(** * thermo.eos_mix: mixing rules, flash and stability of cubic EOS mixtures

    A shallow embedding of the parts of [thermo/eos_mix.py] that carry the
    mixing-rule engine, its cache, the successive-substitution flash loop,
    the Michelsen stability test and the fugacity-coefficient edge cases.

    Numbers: a Python float is modelled as a real number ([R]); rounding,
    overflow, infinities and NaN are outside the model.  What Python raises
    is kept: a division by zero raises [ZeroDivisionError], [log] of a
    non-positive number raises [ValueError], an index out of range raises
    [IndexError], a name read before its first assignment raises
    [UnboundLocalError]. *)

From Stdlib Require Import Reals Lra Lia String.
From stdpp Require Import base list.

Open Scope R_scope.

(** ** Python results and exceptions *)

Module Py.

Inductive value_error : Set :=
  | MathDomain            (* math.log of a non-positive number *)
  | NegativePower         (* a negative float raised to the power 0.5 *)
  | TrivialCondition      (* "Converged to trivial condition, compositions of both phases equal" *)
  | EndOfSS.              (* "End of SS without convergence" *)

Inductive exn : Set :=
  | ZeroDivisionError
  | ValueError (why : value_error)
  | IndexError
  | AttributeError
  | AssertionError
  | UnboundLocalError
  | UnconvergedError.

Inductive res (A : Type) : Type :=
  | Ok (a : A)
  | Raise (e : exn).

Arguments Ok {A} a.
Arguments Raise {A} e.

Definition bind {A B} (m : res A) (k : A -> res B) : res B :=
  match m with
  | Ok a => k a
  | Raise e => Raise e
  end.

(** [try: m except e: h] for one exception class. *)
Definition try_except {A} (m : res A) (catches : exn -> bool) (h : res A) : res A :=
  match m with
  | Ok a => Ok a
  | Raise e => if catches e then h else Raise e
  end.

Definition is_ZeroDivisionError (e : exn) : bool :=
  match e with ZeroDivisionError => true | _ => false end.

Definition is_ValueError (e : exn) : bool :=
  match e with ValueError _ => true | _ => false end.

Definition is_AttributeError (e : exn) : bool :=
  match e with AttributeError => true | _ => false end.

(** A bare [except:] catches everything. *)
Definition any_exception (e : exn) : bool := true.

End Py.

Import Py.

#[global] Instance res_bind : MBind res := fun A B k m => bind m k.

(** ** Floats, comparisons and sequences *)

Definition Rltb (x y : R) : bool := if Rlt_dec x y then true else false.
Definition Reqb (x y : R) : bool := if Req_dec_T x y then true else false.

(** [x / y] on floats. *)
Definition fdiv (x y : R) : res R :=
  if Req_dec_T y 0 then Raise ZeroDivisionError else Ok (x / y).

(** [x ** 0.5]. On a negative base Python 2 raises ValueError and Python 3
    answers with a complex number, which nothing in a model on the reals can
    follow: the model stops there with the ValueError of Python 2. *)
Definition pow_half (x : R) : res R :=
  if Rlt_dec x 0 then Raise (ValueError NegativePower) else Ok (sqrt x).

(** [math.log]. *)
Definition log (x : R) : res R :=
  if Rlt_dec 0 x then Ok (ln x) else Raise (ValueError MathDomain).

(** [l[i]] for an index that is never negative. *)
Definition getitem {A} (l : list A) (i : nat) : res A :=
  match l !! i with
  | Some x => Ok x
  | None => Raise IndexError
  end.

(** [l[i] = x]. *)
Definition setitem {A} (l : list A) (i : nat) (x : A) : res (list A) :=
  if (i <? length l)%nat then Ok (<[i:=x]> l) else Raise IndexError.

Abbreviation matrix := (list (list R)).

(** [m[i][j] = x]: the row is the object stored in [m], so the write is seen
    through [m]. *)
Definition setitem2 (m : matrix) (i j : nat) (x : R) : res matrix :=
  row ← getitem m i;
  row' ← setitem row j x;
  setitem m i row'.


(** The computation does not end in a ValueError, whatever its message. *)
Definition no_ValueError {A} (m : res A) : Prop :=
  forall why, m <> Raise (ValueError why).

(** [[[0.0]*N for _ in cmps]]: N fresh rows. *)
Definition zeros (N : nat) : list R := replicate N 0.
Definition zeros2 (N : nat) : matrix := replicate N (zeros N).

(** [range(a, b)]. *)
Definition range (a b : nat) : list nat := seq a (b - a).

(** [for x in l: s = body x s], stopping at the first exception. *)
Fixpoint for_each {S} (l : list nat) (body : nat -> S -> res S) (s : S) : res S :=
  match l with
  | [] => Ok s
  | x :: l' =>
      match body x s with
      | Ok s' => for_each l' body s'
      | Raise e => Raise e
      end
  end.

(** [[f x for x in l]]. *)
Fixpoint map_res {A B} (f : A -> res B) (l : list A) : res (list B) :=
  match l with
  | [] => Ok []
  | x :: l' => y ← f x; ys ← map_res f l'; Ok (y :: ys)
  end.

(** ** Reading lists and matrices with a default, and finite sums *)

Definition at1 (l : list R) (i : nat) : R := default 0 (l !! i).
Definition at2 (m : matrix) (i j : nat) : R := at1 (default [] (m !! i)) j.

(** [m] has [N] rows of [N] entries. *)
Definition is_matrix (N : nat) (m : matrix) : Prop :=
  length m = N /\ forall i row, m !! i = Some row -> length row = N.

(** [f a + f (a+1) + ... + f (a+n-1)], summed from the left as a loop does. *)
Fixpoint sum_from (a n : nat) (f : nat -> R) : R :=
  match n with
  | O => 0
  | S k => sum_from a k f + f (a + k)%nat
  end.

(** ** The mixing-rule engine (module-level functions) *)

Module MixingRule.

(** The reciprocal of a pairwise root, as each variant computes it. *)
Definition reciprocal (term : R) : res R := fdiv 1 term.

(** The sentinel that stands for the reciprocal of zero. *)
Definition sentinel : R := 1e100.

Definition reciprocal_support_zeros (term : R) : res R :=
  try_except (fdiv 1 term) is_ZeroDivisionError (Ok sentinel).

(** The state of the two nested loops: [(a_alpha_ijs, a_alpha_ij_roots_inv)]. *)
Definition pair_state : Type := matrix * matrix.

Definition pair_body (recip : R -> res R) (kijs_i a_alpha_i_roots : list R)
    (a_alpha_i_root_i : R) (i j : nat) (s : pair_state) : res pair_state :=
  let '(a_alpha_ijs, a_alpha_ij_roots_inv) := s in
  root_j ← getitem a_alpha_i_roots j;
  let term := a_alpha_i_root_i * root_j in
  inv ← recip term;
  a_alpha_ij_roots_inv ← setitem2 a_alpha_ij_roots_inv i j inv;
  kij ← getitem kijs_i j;
  let v := (1 - kij) * term in
  a_alpha_ijs ← setitem2 a_alpha_ijs i j v;
  a_alpha_ijs ← setitem2 a_alpha_ijs j i v;
  Ok (a_alpha_ijs, a_alpha_ij_roots_inv).

Definition row_body (recip : R -> res R) (N : nat) (a_alphas : list R) (kijs : matrix)
    (a_alpha_i_roots : list R) (i : nat) (s : pair_state) : res pair_state :=
  kijs_i ← getitem kijs i;
  a_alpha_i ← getitem a_alphas i;
  _ ← getitem (fst s) i;
  _ ← getitem (snd s) i;
  a_alpha_i_root_i ← getitem a_alpha_i_roots i;
  for_each (range i N) (pair_body recip kijs_i a_alpha_i_roots a_alpha_i_root_i i) s.

(** The body shared by the two variants, which differ in the reciprocal only. *)
Definition composition_independent (recip : R -> res R) (a_alphas : list R) (kijs : matrix)
    : res (matrix * list R * matrix) :=
  let N := length a_alphas in
  let a_alpha_ijs := zeros2 N in
  a_alpha_i_roots ← map_res pow_half a_alphas;
  let a_alpha_ij_roots_inv := zeros2 N in
  '(a_alpha_ijs, a_alpha_ij_roots_inv) ←
     for_each (range 0 N) (row_body recip N a_alphas kijs a_alpha_i_roots)
       (a_alpha_ijs, a_alpha_ij_roots_inv);
  Ok (a_alpha_ijs, a_alpha_i_roots, a_alpha_ij_roots_inv).

Definition a_alpha_aijs_composition_independent :=
  composition_independent reciprocal.

Definition a_alpha_aijs_composition_independent_support_zeros :=
  composition_independent reciprocal_support_zeros.

(** The inner loop of [a_alpha_and_derivatives]: [for j in range(i+1, N)]. *)
Definition upper_body (a_alpha_ijs_i zs : list R) (zi : R) (j : nat) (a_alpha : R) : res R :=
  aij ← getitem a_alpha_ijs_i j;
  zj ← getitem zs j;
  let term := aij * zi * zj in
  Ok (a_alpha + (term + term)).

Definition sum_body (N : nat) (a_alpha_ijs : matrix) (zs : list R) (i : nat) (a_alpha : R)
  : res R :=
  a_alpha_ijs_i ← getitem a_alpha_ijs i;
  zi ← getitem zs i;
  a_alpha ← for_each (range (i + 1) N) (upper_body a_alpha_ijs_i zs zi) a_alpha;
  aii ← getitem a_alpha_ijs_i i;
  Ok (a_alpha + aii * zi * zi).

(** The three optional arguments default to [None]; the second component of
    the result is always [None]. *)
Definition a_alpha_and_derivatives (a_alphas : list R) (T : R) (zs : list R) (kijs : matrix)
    (a_alpha_ijs : option matrix) (a_alpha_i_roots : option (list R))
    (a_alpha_ij_roots_inv : option matrix) : res (R * option R * matrix) :=
  let N := length a_alphas in
  '(a_alpha_ijs, a_alpha_i_roots, a_alpha_ij_roots_inv) ←
     match a_alpha_ijs, a_alpha_i_roots, a_alpha_ij_roots_inv with
     | Some m, Some r, Some v => Ok (m, r, v)
     | _, _, _ => a_alpha_aijs_composition_independent a_alphas kijs
     end;
  a_alpha ← for_each (range 0 N) (sum_body N a_alpha_ijs zs) 0;
  Ok (a_alpha, None, a_alpha_ijs).

(** [[[zs[i]*zs[j] for j in cmps] for i in cmps]]. *)
Definition z_products_of (N : nat) (zs : list R) : res matrix :=
  map_res (fun i =>
    map_res (fun j => zi ← getitem zs i; zj ← getitem zs j; Ok (zi * zj)) (range 0 N))
    (range 0 N).

(** The first loop of [a_alpha_and_derivatives_full]: [for j in range(i)]. *)
Definition lower_body (a_alpha_ijs_i z_products_i : list R) (j : nat) (a_alpha : R) : res R :=
  aij ← getitem a_alpha_ijs_i j;
  zz ← getitem z_products_i j;
  let term := aij * zz in
  Ok (a_alpha + (term + term)).

Definition full_sum_body (a_alpha_ijs z_products : matrix) (i : nat) (a_alpha : R) : res R :=
  a_alpha_ijs_i ← getitem a_alpha_ijs i;
  z_products_i ← getitem z_products i;
  a_alpha ← for_each (range 0 i) (lower_body a_alpha_ijs_i z_products_i) a_alpha;
  aii ← getitem a_alpha_ijs_i i;
  zz ← getitem z_products_i i;
  Ok (a_alpha + aii * zz).

(** The state of the derivative loops:
    [(da_alpha_dT, d2a_alpha_dT2, da_alpha_dT_ijs, d2a_alpha_dT2_ijs)]; the last
    matrix exists only when [second_derivative] is set. *)
Definition deriv_state : Type := R * R * matrix * option matrix.

Definition deriv_pair (a_alphas da_alpha_dTs d2a_alpha_dT2s kijs_i
    a_alpha_ij_roots_inv_i z_products_i : list R) (a_alphai da_alpha_dT_i d2a_alpha_dT2_i : R)
    (i j : nat) (s : deriv_state) : res deriv_state :=
  let '(da_alpha_dT, d2a_alpha_dT2, da_alpha_dT_ijs, d2a_alpha_dT2_ijs) := s in
  if (j <? i)%nat then Ok s else
  a_alphaj ← getitem a_alphas j;
  x0_05_inv ← getitem a_alpha_ij_roots_inv_i j;
  zi_zj ← getitem z_products_i j;
  da_alpha_dT_j ← getitem da_alpha_dTs j;
  let x1 := a_alphai * da_alpha_dT_j in
  let x2 := a_alphaj * da_alpha_dT_i in
  let x1_x2 := x1 + x2 in
  kij ← getitem kijs_i j;
  let kij_m1 := kij - 1 in
  let da_alpha_dT_ij := -0.5 * kij_m1 * x1_x2 * x0_05_inv in
  da_alpha_dT_ijs ← setitem2 da_alpha_dT_ijs i j da_alpha_dT_ij;
  da_alpha_dT_ijs ← setitem2 da_alpha_dT_ijs j i da_alpha_dT_ij;
  let da_alpha_dT_ij := da_alpha_dT_ij * zi_zj in
  let x0 := a_alphai * a_alphaj in
  d2a_alpha_dT2_j ← getitem d2a_alpha_dT2s j;
  q ← fdiv (x0 * (-0.5 * (a_alphai * d2a_alpha_dT2_j + a_alphaj * d2a_alpha_dT2_i)
                  - da_alpha_dT_i * da_alpha_dT_j) + 0.25 * x1_x2 * x1_x2)
           (x0_05_inv * x0 * x0);
  let d2a_alpha_dT2_ij := kij_m1 * q in
  d2a_alpha_dT2_ijs ←
    match d2a_alpha_dT2_ijs with
    | Some m =>
        m ← setitem2 m i j d2a_alpha_dT2_ij;
        m ← setitem2 m j i d2a_alpha_dT2_ij;
        Ok (Some m)
    | None => Ok None
    end;
  let d2a_alpha_dT2_ij := d2a_alpha_dT2_ij * zi_zj in
  if (i =? j)%nat
  then Ok (da_alpha_dT + da_alpha_dT_ij, d2a_alpha_dT2 + d2a_alpha_dT2_ij,
           da_alpha_dT_ijs, d2a_alpha_dT2_ijs)
  else Ok (da_alpha_dT + (da_alpha_dT_ij + da_alpha_dT_ij),
           d2a_alpha_dT2 + (d2a_alpha_dT2_ij + d2a_alpha_dT2_ij),
           da_alpha_dT_ijs, d2a_alpha_dT2_ijs).

Definition deriv_row (N : nat) (a_alphas da_alpha_dTs d2a_alpha_dT2s : list R) (kijs : matrix)
    (a_alpha_ij_roots_inv z_products : matrix) (i : nat) (s : deriv_state) : res deriv_state :=
  kijs_i ← getitem kijs i;
  a_alphai ← getitem a_alphas i;
  z_products_i ← getitem z_products i;
  da_alpha_dT_i ← getitem da_alpha_dTs i;
  d2a_alpha_dT2_i ← getitem d2a_alpha_dT2s i;
  a_alpha_ij_roots_inv_i ← getitem a_alpha_ij_roots_inv i;
  _ ← getitem (snd (fst s)) i;
  for_each (range 0 N)
    (deriv_pair a_alphas da_alpha_dTs d2a_alpha_dT2s kijs_i a_alpha_ij_roots_inv_i
       z_products_i a_alphai da_alpha_dT_i d2a_alpha_dT2_i i) s.

(** The derivative loops, which never read [a_alpha_ijs]. *)
Definition derivative_loops (second_derivative : bool) (a_alphas da_alpha_dTs
    d2a_alpha_dT2s : list R) (kijs a_alpha_ij_roots_inv z_products : matrix) : res deriv_state :=
  let N := length a_alphas in
  let da_alpha_dT_ijs := zeros2 N in
  let d2a_alpha_dT2_ijs := if second_derivative then Some (zeros2 N) else None in
  for_each (range 0 N)
    (deriv_row N a_alphas da_alpha_dTs d2a_alpha_dT2s kijs a_alpha_ij_roots_inv z_products)
    (0, 0, da_alpha_dT_ijs, d2a_alpha_dT2_ijs).

(** The result [(a_alpha, da_alpha_dT, d2a_alpha_dT2, d2a_alpha_dT2_ijs,
    da_alpha_dT_ijs, a_alpha_ijs)]; without [second_derivative] the fourth
    component is left out of the tuple, here [None]. *)
Definition full_result : Type := R * R * R * option matrix * matrix * matrix.

Definition a_alpha_and_derivatives_full (a_alphas da_alpha_dTs d2a_alpha_dT2s : list R)
    (T : R) (zs : list R) (kijs : matrix)
    (a_alpha_ijs : option matrix) (a_alpha_i_roots : option (list R))
    (a_alpha_ij_roots_inv : option matrix) (second_derivative : bool) : res full_result :=
  let N := length a_alphas in
  '(a_alpha_ijs, a_alpha_i_roots, a_alpha_ij_roots_inv) ←
     match a_alpha_ijs, a_alpha_i_roots, a_alpha_ij_roots_inv with
     | Some m, Some r, Some v => Ok (m, r, v)
     | _, _, _ => a_alpha_aijs_composition_independent a_alphas kijs
     end;
  z_products ← z_products_of N zs;
  a_alpha ← for_each (range 0 N) (full_sum_body a_alpha_ijs z_products) 0;
  '(da_alpha_dT, d2a_alpha_dT2, da_alpha_dT_ijs, d2a_alpha_dT2_ijs) ←
     derivative_loops second_derivative a_alphas da_alpha_dTs d2a_alpha_dT2s kijs
       a_alpha_ij_roots_inv z_products;
  Ok (a_alpha, da_alpha_dT, d2a_alpha_dT2, d2a_alpha_dT2_ijs, da_alpha_dT_ijs, a_alpha_ijs).

End MixingRule.

(** ** Instances of the mixture EOS classes

    An attribute that has not been assigned yet is [None]; reading it raises
    [AttributeError]. *)

Module EOS.

Record t : Type := mk {
  N : nat;
  Tcs : list R;
  Pcs : list R;
  omegas : list R;
  kijs : matrix;
  kwargs : matrix;
  ais : list R;
  bs : list R;
  zs : list R;
  T : R;
  P : R;
  V : option R;
  a_alphas : option (list R);
  da_alpha_dTs : option (list R);
  d2a_alpha_dT2s : option (list R);
  a_alpha_ijs : option matrix;
  a_alpha_i_roots : option (list R);
  a_alpha_ij_roots_inv : option matrix;
  da_alpha_dT_ijs : option matrix;
  d2a_alpha_dT2_ijs : option matrix;
  a_alpha : option R;
  b : option R;
  Z_l : option R;
  Z_g : option R;
  phi_l : option R;
  phi_g : option R;
  fugacity_sum_terms : option (list R)
}.

(** [self.__class__.__new__(self.__class__)] followed by the copy of the
    constants of [nonstate_constants]: nothing else is assigned yet. *)
Definition fresh (other : t) (zs' : list R) (T' P' : R) : t :=
  mk (N other) (Tcs other) (Pcs other) (omegas other) (kijs other) (kwargs other)
    (ais other) (bs other) zs' T' P' None None None None None None None None None
    None None None None None None None.

Definition set_pairwise (self : t) (ijs : matrix) (roots : list R) (inv : matrix) : t :=
  mk (N self) (Tcs self) (Pcs self) (omegas self) (kijs self) (kwargs self) (ais self)
    (bs self) (zs self) (T self) (P self) (V self) (a_alphas self) (da_alpha_dTs self)
    (d2a_alpha_dT2s self) (Some ijs) (Some roots) (Some inv) (da_alpha_dT_ijs self)
    (d2a_alpha_dT2_ijs self) (a_alpha self) (b self) (Z_l self) (Z_g self) (phi_l self)
    (phi_g self) (fugacity_sum_terms self).

Definition set_a_alpha_ijs (self : t) (ijs : matrix) : t :=
  mk (N self) (Tcs self) (Pcs self) (omegas self) (kijs self) (kwargs self) (ais self)
    (bs self) (zs self) (T self) (P self) (V self) (a_alphas self) (da_alpha_dTs self)
    (d2a_alpha_dT2s self) (Some ijs) (a_alpha_i_roots self) (a_alpha_ij_roots_inv self)
    (da_alpha_dT_ijs self) (d2a_alpha_dT2_ijs self) (a_alpha self) (b self) (Z_l self)
    (Z_g self) (phi_l self) (phi_g self) (fugacity_sum_terms self).

Definition set_a_alpha_i_roots (self : t) (roots : list R) : t :=
  mk (N self) (Tcs self) (Pcs self) (omegas self) (kijs self) (kwargs self) (ais self)
    (bs self) (zs self) (T self) (P self) (V self) (a_alphas self) (da_alpha_dTs self)
    (d2a_alpha_dT2s self) (a_alpha_ijs self) (Some roots) (a_alpha_ij_roots_inv self)
    (da_alpha_dT_ijs self) (d2a_alpha_dT2_ijs self) (a_alpha self) (b self) (Z_l self)
    (Z_g self) (phi_l self) (phi_g self) (fugacity_sum_terms self).

Definition set_a_alpha_ij_roots_inv (self : t) (inv : matrix) : t :=
  mk (N self) (Tcs self) (Pcs self) (omegas self) (kijs self) (kwargs self) (ais self)
    (bs self) (zs self) (T self) (P self) (V self) (a_alphas self) (da_alpha_dTs self)
    (d2a_alpha_dT2s self) (a_alpha_ijs self) (a_alpha_i_roots self) (Some inv)
    (da_alpha_dT_ijs self) (d2a_alpha_dT2_ijs self) (a_alpha self) (b self) (Z_l self)
    (Z_g self) (phi_l self) (phi_g self) (fugacity_sum_terms self).

Definition set_da_alpha_dT_ijs (self : t) (m : matrix) : t :=
  mk (N self) (Tcs self) (Pcs self) (omegas self) (kijs self) (kwargs self) (ais self)
    (bs self) (zs self) (T self) (P self) (V self) (a_alphas self) (da_alpha_dTs self)
    (d2a_alpha_dT2s self) (a_alpha_ijs self) (a_alpha_i_roots self)
    (a_alpha_ij_roots_inv self) (Some m) (d2a_alpha_dT2_ijs self) (a_alpha self)
    (b self) (Z_l self) (Z_g self) (phi_l self) (phi_g self) (fugacity_sum_terms self).

Definition set_d2a_alpha_dT2_ijs (self : t) (m : matrix) : t :=
  mk (N self) (Tcs self) (Pcs self) (omegas self) (kijs self) (kwargs self) (ais self)
    (bs self) (zs self) (T self) (P self) (V self) (a_alphas self) (da_alpha_dTs self)
    (d2a_alpha_dT2s self) (a_alpha_ijs self) (a_alpha_i_roots self)
    (a_alpha_ij_roots_inv self) (da_alpha_dT_ijs self) (Some m) (a_alpha self) (b self)
    (Z_l self) (Z_g self) (phi_l self) (phi_g self) (fugacity_sum_terms self).

Definition set_alphas (self : t) (a : list R) (da : list R) (d2a : list R) : t :=
  mk (N self) (Tcs self) (Pcs self) (omegas self) (kijs self) (kwargs self) (ais self)
    (bs self) (zs self) (T self) (P self) (V self) (Some a) (Some da) (Some d2a)
    (a_alpha_ijs self) (a_alpha_i_roots self) (a_alpha_ij_roots_inv self)
    (da_alpha_dT_ijs self) (d2a_alpha_dT2_ijs self) (a_alpha self) (b self) (Z_l self)
    (Z_g self) (phi_l self) (phi_g self) (fugacity_sum_terms self).

Definition set_state (self : t) (zs' : list R) (T' : R) (P' : R) (V' : option R) : t :=
  mk (N self) (Tcs self) (Pcs self) (omegas self) (kijs self) (kwargs self) (ais self)
    (bs self) zs' T' P' V' (a_alphas self) (da_alpha_dTs self) (d2a_alpha_dT2s self)
    (a_alpha_ijs self) (a_alpha_i_roots self) (a_alpha_ij_roots_inv self)
    (da_alpha_dT_ijs self) (d2a_alpha_dT2_ijs self) (a_alpha self) (b self) (Z_l self)
    (Z_g self) (phi_l self) (phi_g self) (fugacity_sum_terms self).

Definition set_roots (self : t) (Zl Zg : option R) : t :=
  mk (N self) (Tcs self) (Pcs self) (omegas self) (kijs self) (kwargs self) (ais self)
    (bs self) (zs self) (T self) (P self) (V self) (a_alphas self) (da_alpha_dTs self)
    (d2a_alpha_dT2s self) (a_alpha_ijs self) (a_alpha_i_roots self)
    (a_alpha_ij_roots_inv self) (da_alpha_dT_ijs self) (d2a_alpha_dT2_ijs self)
    (a_alpha self) (b self) Zl Zg (phi_l self) (phi_g self) (fugacity_sum_terms self).

(** Reading an attribute. *)
Definition attr {A} (field : option A) : res A :=
  match field with
  | Some x => Ok x
  | None => Raise AttributeError
  end.

End EOS.

(** ** GCEOSMIX: the cached mixing rule and the constructors of new states *)

Module GCEOSMIX.

Import MixingRule.

(** What [a_alpha_and_derivatives_py] returns: three numbers when [full],
    [a_alpha] alone otherwise. *)
Inductive a_alpha_result : Type :=
  | Full (a_alpha da_alpha_dT d2a_alpha_dT2 : R)
  | Only (a_alpha : R).

Definition is_Attribute_or_AssertionError (e : exn) : bool :=
  match e with AttributeError | AssertionError => true | _ => false end.

(** [assert same_T] and the read of the three cached attributes. *)
Definition cached_pairwise (self : EOS.t) (same_T : bool) : res (matrix * list R * matrix) :=
  _ ← (if same_T then Ok tt else Raise AssertionError);
  ijs ← EOS.attr (EOS.a_alpha_ijs self);
  roots ← EOS.attr (EOS.a_alpha_i_roots self);
  inv ← EOS.attr (EOS.a_alpha_ij_roots_inv self);
  Ok (ijs, roots, inv).

(** The pairwise quantities recomputed from [a_alphas], with the fall-back
    to the divide-safe variant; [quick] catches ZeroDivisionError only, the
    other branch has a bare [except:]. *)
Definition recomputed_pairwise (quick : bool) (a_alphas : list R) (kijs : matrix)
    : res (matrix * list R * matrix) :=
  try_except (a_alpha_aijs_composition_independent a_alphas kijs)
    (if quick then is_ZeroDivisionError else any_exception)
    (a_alpha_aijs_composition_independent_support_zeros a_alphas kijs).

(** The first half of [a_alpha_and_derivatives_py]: where the pairwise
    quantities come from, and what is stored on the instance. *)
Definition pairwise_quantities (self : EOS.t) (a_alphas : list R) (T : R) (quick : bool)
    : EOS.t * res (matrix * list R * matrix) :=
  let kijs := EOS.kijs self in
  let same_T := Reqb T (EOS.T self) in
  if quick then
    match cached_pairwise self same_T with
    | Ok c => (self, Ok c)
    | Raise e =>
        if is_Attribute_or_AssertionError e then
          match recomputed_pairwise true a_alphas kijs with
          | Ok (ijs, roots, inv) => (EOS.set_pairwise self ijs roots inv, Ok (ijs, roots, inv))
          | Raise e' => (self, Raise e')
          end
        else (self, Raise e)
    end
  else
    match recomputed_pairwise false a_alphas kijs with
    | Ok (ijs, roots, inv) =>
        (if same_T then EOS.set_pairwise self ijs roots inv else self, Ok (ijs, roots, inv))
    | Raise e => (self, Raise e)
    end.

(** The second half of [a_alpha_and_derivatives_py], which reads the
    instance for [zs], [kijs] and [N] only: the value returned and the
    tensors to store, [(d2a_alpha_dT2_ijs, da_alpha_dT_ijs, a_alpha_ijs)]; the
    first is stored in the [full] branch alone. A failed call of the full
    routine with [N] other than 1 leaves [d2a_alpha_dT2_ijs] unassigned, and
    the store that follows raises. *)
Definition finish_value (zs : list R) (kijs : matrix) (N : nat)
    (a_alphas da_alpha_dTs d2a_alpha_dT2s : list R) (T : R) (full : bool)
    (ijs : matrix) (roots : list R) (inv : matrix)
    : res (a_alpha_result * option matrix * matrix * matrix) :=
  if full then
    r ← try_except
          (r ← a_alpha_and_derivatives_full a_alphas da_alpha_dTs d2a_alpha_dT2s T
                 zs kijs (Some ijs) (Some roots) (Some inv) true;
           Ok (Some r))
          any_exception
          (if (N =? 1)%nat then
             a0 ← getitem a_alphas 0;
             da0 ← getitem da_alpha_dTs 0;
             d2a0 ← getitem d2a_alpha_dT2s 0;
             Ok (Some (a0, da0, d2a0, Some [[d2a0]], [[da0]], [[a0]]))
           else Ok None);
    match r with
    | None => Raise UnboundLocalError
    | Some (a_alpha, da_alpha_dT, d2a_alpha_dT2, d2a_alpha_dT2_ijs,
            da_alpha_dT_ijs, a_alpha_ijs) =>
        Ok (Full a_alpha da_alpha_dT d2a_alpha_dT2, d2a_alpha_dT2_ijs,
            da_alpha_dT_ijs, a_alpha_ijs)
    end
  else
    '(a_alpha, _, a_alpha_ijs) ←
       a_alpha_and_derivatives a_alphas T zs kijs (Some ijs) (Some roots) (Some inv);
    Ok (Only a_alpha, None, [], a_alpha_ijs).

(** [self.d2a_alpha_dT2_ijs = ...] (in the [full] branch),
    [self.da_alpha_dT_ijs = ...] and [self.a_alpha_ijs = ...]. *)
Definition store_tensors (self : EOS.t) (d2a_alpha_dT2_ijs : option matrix)
    (da_alpha_dT_ijs a_alpha_ijs : matrix) : EOS.t :=
  let self :=
    match d2a_alpha_dT2_ijs with
    | Some m => EOS.set_d2a_alpha_dT2_ijs self m
    | None => self
    end in
  let self := EOS.set_da_alpha_dT_ijs self da_alpha_dT_ijs in
  EOS.set_a_alpha_ijs self a_alpha_ijs.

Definition a_alpha_and_derivatives_py (self : EOS.t)
    (a_alphas da_alpha_dTs d2a_alpha_dT2s : list R) (T : R) (full quick : bool)
    : EOS.t * res a_alpha_result :=
  let '(self, c) := pairwise_quantities self a_alphas T quick in
  match c with
  | Raise e => (self, Raise e)
  | Ok (ijs, roots, inv) =>
      match finish_value (EOS.zs self) (EOS.kijs self) (EOS.N self)
              a_alphas da_alpha_dTs d2a_alpha_dT2s T full ijs roots inv with
      | Raise e => (self, Raise e)
      | Ok (value, d2a_alpha_dT2_ijs, da_alpha_dT_ijs, a_alpha_ijs) =>
          (store_tensors self d2a_alpha_dT2_ijs da_alpha_dT_ijs a_alpha_ijs, Ok value)
      end
  end.


(** [zs == self.zs] on lists of floats. *)
Fixpoint list_Reqb (l1 l2 : list R) : bool :=
  match l1, l2 with
  | [], [] => true
  | x :: l1', y :: l2' => Reqb x y && list_Reqb l1' l2'
  | _, _ => false
  end.

(** The arguments of [self.__class__(...)] in [to_TP_zs]. *)
Record init_args : Type := {
  init_T : R; init_P : R; init_zs : list R;
  init_Tcs : list R; init_Pcs : list R; init_omegas : list R;
  init_only_l : bool; init_only_g : bool; init_fugacities : bool;
  init_kwargs : matrix
}.

(** Objects live in a store and are named by their position in it; the
    store also counts the calls of the class constructor. *)
Record store : Type := { objects : list EOS.t; constructions : nat }.

(** The specification asked for is the one the object already has. *)
Definition same_specs (obj : EOS.t) (T P : R) (zs : list R) : Prop :=
  T = EOS.T obj /\ P = EOS.P obj /\ zs = EOS.zs obj.

Section Constructors.

(** The collaborators of this file that live in the concrete subclass or in
    [thermo.eos]: the constructor of the class, [_fast_init_specific] and
    [solve]. *)
Variable class_init : init_args -> res EOS.t.
Variable _fast_init_specific : EOS.t -> EOS.t -> res EOS.t.
Variable solve : EOS.t -> bool -> bool -> bool -> bool -> res EOS.t.

(** The copy of the cached pairwise quantities: the first missing attribute
    ends the copy ([except AttributeError: pass]). *)
Definition copy_pairwise (self new : EOS.t) : EOS.t :=
  match EOS.a_alpha_ijs self with
  | None => new
  | Some ijs =>
      let new := EOS.set_a_alpha_ijs new ijs in
      match EOS.a_alpha_i_roots self with
      | None => new
      | Some roots =>
          let new := EOS.set_a_alpha_i_roots new roots in
          match EOS.a_alpha_ij_roots_inv self with
          | None => new
          | Some inv => EOS.set_a_alpha_ij_roots_inv new inv
          end
      end
  end.

(** [to_TP_zs_fast] up to the call of [solve]: the new object with what it
    inherits from [self]. *)
Definition fast_copy (self : EOS.t) (T P : R) (zs : list R) : res EOS.t :=
  let new := EOS.fresh self zs T P in
  let copy_alphas := Reqb T (EOS.T self) in
  if copy_alphas then
    a ← EOS.attr (EOS.a_alphas self);
    da ← EOS.attr (EOS.da_alpha_dTs self);
    d2a ← EOS.attr (EOS.d2a_alpha_dT2s self);
    Ok (copy_pairwise self (EOS.set_alphas new a da d2a))
  else Ok new.

Definition to_TP_zs_fast (self : EOS.t) (T P : R) (zs : list R)
    (only_l only_g full_alphas : bool) : res EOS.t :=
  new ← fast_copy self T P zs;
  new ← _fast_init_specific new self;
  solve new (negb (Reqb T (EOS.T self))) only_l only_g full_alphas.

Definition to_TP_zs (st : store) (self : nat) (T P : R) (zs : list R)
    (fugacities only_l only_g : bool) : store * res nat :=
  match objects st !! self with
  | None => (st, Raise AttributeError)
  | Some obj =>
      if negb (Reqb T (EOS.T obj)) || negb (Reqb P (EOS.P obj))
         || negb (list_Reqb zs (EOS.zs obj))
      then
        let args := {| init_T := T; init_P := P; init_zs := zs;
                       init_Tcs := EOS.Tcs obj; init_Pcs := EOS.Pcs obj;
                       init_omegas := EOS.omegas obj;
                       init_only_l := only_l; init_only_g := only_g;
                       init_fugacities := fugacities;
                       init_kwargs := EOS.kwargs obj |} in
        match class_init args with
        | Ok new =>
            ({| objects := objects st ++ [new]; constructions := S (constructions st) |},
             Ok (length (objects st)))
        | Raise e =>
            ({| objects := objects st; constructions := S (constructions st) |}, Raise e)
        end
      else (st, Ok self)
  end.

End Constructors.

(** *** The successive-substitution flash *)

(** The builtin [sum]: from 0, left to right. *)
Definition py_sum (l : list R) : R := fold_left Rplus l 0.

(** The degeneracy guard on one phase: the first negative entry replaces the
    whole vector by its absolute values over their sum. *)
Definition renormalize_if_negative (xs_new : list R) : res (list R) :=
  if existsb (fun xi => Rltb xi 0) xs_new then
    let xs_new_sum := py_sum (map Rabs xs_new) in
    map_res (fun i => fdiv (Rabs i) xs_new_sum) xs_new
  else Ok xs_new.

(** [err3]: the sum over [zip(Ks, xs, ys)] of [(Ki*xi/yi - 1.0)**2]. *)
Fixpoint err3_loop (Ks xs ys : list R) (err3 : R) : res R :=
  match Ks, xs, ys with
  | Ki :: Ks', xi :: xs', yi :: ys' =>
      q ← fdiv (Ki * xi) yi;
      let err_i := q - 1 in
      err3_loop Ks' xs' ys' (err3 + err_i * err_i)
  | _, _, _ => Ok err3
  end.



(** The absolute values of a composition over their sum. *)
Definition renormalized (l : list R) : list R :=
  map (fun x => Rabs x / py_sum (map Rabs l)) l.

(** [sum([abs(xi - yi) for xi, yi in zip(xs, ys)])]. *)
Definition comp_difference (xs ys : list R) : R :=
  py_sum (zip_with (fun xi yi => Rabs (xi - yi)) xs ys).

Definition default_maxiter : nat := 1000.
Definition default_xtol : R := 1e-13.
Definition default_trivial_solution_tol : R := 1e-5.

(** The local names the loop carries: [V_over_F], [xs], [ys], and, once an
    iteration has run, [(i, err3, eos_l, eos_g)]. *)
Record ss_state : Type := {
  V_over_F : option R;
  xs : list R;
  ys : list R;
  last : option (nat * R * EOS.t * EOS.t)
}.

Section Flash.

(** Collaborators: [thermo.activity]'s Wilson correlation and Rachford-Rice
    solver, the subclass hooks behind [to_TP_zs_fast], and the subclass's
    [fugacity_coefficients]. *)
Variable Wilson_K_value : R -> R -> R -> R -> R -> res R.
Variable flash_inner_loop : list R -> list R -> option R -> res (R * list R * list R).
Variable _fast_init_specific : EOS.t -> EOS.t -> res EOS.t.
Variable solve : EOS.t -> bool -> bool -> bool -> bool -> res EOS.t.
Variable fugacity_coefficients : EOS.t -> R -> list R -> res (list R).

(** [[Wilson_K_value(T, P, Tci, Pci, omega) for Pci, Tci, omega in zip(...)]]. *)
Fixpoint wilson_Ks (T P : R) (Pcs Tcs omegas : list R) : res (list R) :=
  match Pcs, Tcs, omegas with
  | Pci :: Pcs', Tci :: Tcs', omega :: omegas' =>
      K ← Wilson_K_value T P Tci Pci omega;
      Ks ← wilson_Ks T P Pcs' Tcs' omegas';
      Ok (K :: Ks)
  | _, _, _ => Ok []
  end.

(** [for Ks in Ks_extra]: the first set that flashes wins; a ValueError moves
    on to the next set, and the last one is raised again when none is left. *)
Fixpoint first_flash (zs : list R) (Ks_extra : list (list R)) (e : exn)
    : res (R * list R * list R) :=
  match Ks_extra with
  | [] => Raise e
  | Ks :: rest =>
      match flash_inner_loop zs Ks None with
      | Ok r => Ok r
      | Raise e' => if is_ValueError e' then first_flash zs rest e' else Raise e'
      end
  end.

Definition initial_split (self : EOS.t) (Ks_initial : option (list R))
    (Ks_extra : option (list (list R))) (xs ys : option (list R))
    : res (option R * list R * list R) :=
  match xs, ys with
  | Some xs, Some ys => Ok (None, xs, ys)
  | _, _ =>
      Ks ← match Ks_initial with
           | None => wilson_Ks (EOS.T self) (EOS.P self) (EOS.Pcs self) (EOS.Tcs self)
                       (EOS.omegas self)
           | Some Ks => Ok Ks
           end;
      '(V_over_F, xs, ys) ←
         match flash_inner_loop (EOS.zs self) Ks None with
         | Ok r => Ok r
         | Raise e =>
             if is_ValueError e then
               match Ks_extra with
               | Some extra => first_flash (EOS.zs self) extra e
               | None => Raise e
               end
             else Raise e
         end;
      Ok (Some V_over_F, xs, ys)
  end.

(** The log fugacity coefficients of one trial phase: near the critical
    point a missing root falls back to the other root. *)
Definition trial_lnphis (near_critical : bool) (eos : EOS.t) (own other : option R)
    (comp : list R) : res (list R) :=
  if near_critical then
    try_except (Z ← EOS.attr own; fugacity_coefficients eos Z comp)
      is_AttributeError
      (Z ← EOS.attr other; fugacity_coefficients eos Z comp)
  else (Z ← EOS.attr own; fugacity_coefficients eos Z comp).

(** One pass of the loop body up to the assignment [xs, ys = xs_new, ys_new]. *)
Definition ss_update (self : EOS.t) (near_critical full_alphas : bool)
    (i : nat) (st : ss_state) : res (ss_state * R) :=
  let T := EOS.T self in
  let P := EOS.P self in
  eos_g ← to_TP_zs_fast _fast_init_specific solve self T P (ys st) false true full_alphas;
  eos_l ← to_TP_zs_fast _fast_init_specific solve self T P (xs st) true false full_alphas;
  lnphis_g ← trial_lnphis near_critical eos_g (EOS.Z_g eos_g) (EOS.Z_l eos_g) (ys st);
  lnphis_l ← trial_lnphis near_critical eos_l (EOS.Z_l eos_l) (EOS.Z_g eos_l) (xs st);
  let Ks := zip_with (fun l g => exp (l - g)) lnphis_l lnphis_g in
  '(V_over_F, xs_new, ys_new) ← flash_inner_loop (EOS.zs self) Ks (V_over_F st);
  xs_new ← renormalize_if_negative xs_new;
  ys_new ← renormalize_if_negative ys_new;
  err3 ← err3_loop Ks (xs st) (ys st) 0;
  Ok ({| V_over_F := Some V_over_F; xs := xs_new; ys := ys_new;
         last := Some (i, err3, eos_l, eos_g) |}, err3).

(** The trivial-solution guard, which stands under [if near_critical:]. *)
Definition trivial_guard (near_critical : bool) (trivial_solution_tol : R)
    (xs ys : list R) : res unit :=
  if near_critical then
    if Rltb (comp_difference xs ys) trivial_solution_tol
    then Raise (ValueError TrivialCondition)
    else Ok tt
  else Ok tt.

(** One pass of the loop body up to, and with, the trivial-solution guard. *)
Definition ss_step (self : EOS.t) (near_critical full_alphas : bool)
    (trivial_solution_tol : R) (i : nat) (st : ss_state) : res (ss_state * R) :=
  '(st', err3) ← ss_update self near_critical full_alphas i st;
  _ ← trivial_guard near_critical trivial_solution_tol (xs st') (ys st');
  Ok (st', err3).

(** [for i in range(maxiter)], with [remaining] passes left and the [break]
    on convergence. *)
Fixpoint ss_loop (self : EOS.t) (near_critical full_alphas : bool)
    (trivial_solution_tol xtol : R) (maxiter remaining i : nat) (st : ss_state)
    : res ss_state :=
  match remaining with
  | O => Ok st
  | S remaining' =>
      '(st', err3) ← ss_step self near_critical full_alphas trivial_solution_tol i st;
      if Rltb err3 xtol then Ok st'
      else if (i =? maxiter - 1)%nat then Raise (ValueError EndOfSS)
      else ss_loop self near_critical full_alphas trivial_solution_tol xtol
             maxiter remaining' (S i) st'
  end.

(** The result [(V_over_F, xs, ys, eos_l, eos_g)], together with what is
    written to [info] when the caller passes a list: [(i, err3)]. *)
Definition sequential_substitution_VL (self : EOS.t) (Ks_initial : option (list R))
    (maxiter : nat) (xtol : R) (near_critical : bool) (Ks_extra : option (list (list R)))
    (xs ys : option (list R)) (trivial_solution_tol : R) (info : bool) (full_alphas : bool)
    : res (option R * list R * list R * EOS.t * EOS.t * option (nat * R)) :=
  '(V_over_F0, xs0, ys0) ← initial_split self Ks_initial Ks_extra xs ys;
  st ← ss_loop self near_critical full_alphas trivial_solution_tol xtol maxiter maxiter 0
         {| V_over_F := V_over_F0; xs := xs0; ys := ys0; last := None |};
  match last st with
  | None => Raise UnboundLocalError
  | Some (i, err3, eos_l, eos_g) =>
      Ok (V_over_F st, GCEOSMIX.xs st, GCEOSMIX.ys st, eos_l, eos_g,
          if info then Some (i, err3) else None)
  end.

End Flash.

(** *** The Michelsen stability test *)

Inductive phase : Set := phase_l | phase_g.

Definition phase_eqb (p q : phase) : bool :=
  match p, q with
  | phase_l, phase_l | phase_g, phase_g => true
  | _, _ => false
  end.

(** The if/elif chain of [stability_Michelsen] (Table 4.6 of Whitson and
    Brule); [sum_g] and [sum_l] stand for [sum_g_criteria < stable_criteria]
    and [sum_l_criteria < stable_criteria]. *)
Definition stable_of (phase_failure_g phase_failure_l trivial_g trivial_l sum_g sum_l : bool)
    : bool :=
  if phase_failure_g && phase_failure_l then true
  else if trivial_g && trivial_l then true
  else if sum_g && trivial_l then true
  else if trivial_g && sum_l then true
  else if sum_g && sum_l then true
  else false.

Definition default_trivial_criteria : R := 1e-4.
Definition default_stable_criteria : R := 1e-7.

(** [sum(log_Ki*log_Ki for log_Ki in log_Ks)]. *)
Definition lnK_2_tot (log_Ks : list R) : R :=
  py_sum (map (fun log_Ki => log_Ki * log_Ki) log_Ks).

(** The classification of the two trials and the K-values handed back. The
    flags [g_pass] and [l_pass] are written and never read, and are left
    out. *)
Definition classify (Ks : list R) (trivial_criteria stable_criteria : R)
    (zs_sum_g : R) (Ks_g : list R) (phase_failure_g : bool)
    (zs_sum_l : R) (Ks_l : list R) (phase_failure_l : bool)
    : res (bool * list R * (list R * list R)) :=
  log_Ks_g ← map_res log Ks_g;
  log_Ks_l ← map_res log Ks_l;
  let sum_g_criteria := zs_sum_g - 1 in
  let sum_l_criteria := zs_sum_l - 1 in
  let trivial_g := Rltb (lnK_2_tot log_Ks_g) trivial_criteria in
  let trivial_l := Rltb (lnK_2_tot log_Ks_l) trivial_criteria in
  let stable :=
    stable_of phase_failure_g phase_failure_l trivial_g trivial_l
      (Rltb sum_g_criteria stable_criteria) (Rltb sum_l_criteria stable_criteria) in
  let Ks := if stable then Ks else zip_with Rmult Ks_g Ks_l in
  Ok (stable, Ks, (Ks_g, Ks_l)).

Section Stability.

Variable Wilson_K_value : R -> R -> R -> R -> R -> res R.
Variable _fast_init_specific : EOS.t -> EOS.t -> res EOS.t.
Variable solve : EOS.t -> bool -> bool -> bool -> bool -> res EOS.t.
(** [eos_fugacities_lowest_Gibbs], which goes through the subclass's
    fugacities. *)
Variable eos_fugacities_lowest_Gibbs : EOS.t -> res (list R * phase).

(** The locals of the one-sided iteration: [Ks] and, once a pass has run,
    [(sum_zs_test, fugacities_phase)]. The counter [same_phase_count] is
    written and never read, and is left out. *)
Definition trial_state : Type := list R * option (R * phase).

(** [[f(x, y) for x, y in zip(l1, l2)]] with an [f] that may raise. *)
Fixpoint zip_res (f : R -> R -> res R) (l1 l2 : list R) : res (list R) :=
  match l1, l2 with
  | x :: l1', y :: l2' => v ← f x y; vs ← zip_res f l1' l2'; Ok (v :: vs)
  | _, _ => Ok []
  end.

Definition trial_step (self : EOS.t) (T P : R) (zs : list R) (liq : bool)
    (fugacities_ref : list R) (Ks : list R) : res (list R * R * phase * R) :=
  zs_test ← (if liq then zip_res (fun zi Ki => fdiv zi Ki) zs Ks
             else Ok (zip_with Rmult zs Ks));
  let sum_zs_test := py_sum zs_test in
  zs_test_normalized ← map_res (fun zi => fdiv zi sum_zs_test) zs_test;
  eos_test ← to_TP_zs_fast _fast_init_specific solve self T P zs_test_normalized
               false false false;
  '(fugacities_test, fugacities_phase) ← eos_fugacities_lowest_Gibbs eos_test;
  corrections ←
    (if liq
     then zip_res (fun fi f_ref => q ← fdiv fi f_ref; Ok (q * sum_zs_test))
            fugacities_test fugacities_ref
     else zip_res (fun fi f_ref => fdiv f_ref (fi * sum_zs_test))
            fugacities_test fugacities_ref);
  let Ks := zip_with Rmult Ks corrections in
  let err := py_sum (map (fun corr => (corr - 1) * (corr - 1)) corrections) in
  Ok (Ks, sum_zs_test, fugacities_phase, err).

Fixpoint trial_loop (self : EOS.t) (T P : R) (zs : list R) (liq : bool) (xtol : R)
    (fugacities_ref : list R) (fugacities_ref_phase : phase)
    (maxiter remaining i : nat) (st : trial_state) : res trial_state :=
  match remaining with
  | O => Ok st
  | S remaining' =>
      '(Ks, sum_zs_test, fugacities_phase, err) ←
         trial_step self T P zs liq fugacities_ref (fst st);
      let st' := (Ks, Some (sum_zs_test, fugacities_phase)) in
      if Rltb err xtol then Ok st'
      else if (i =? maxiter - 1)%nat
              && negb (phase_eqb fugacities_ref_phase fugacities_phase)
      then Raise UnconvergedError
      else trial_loop self T P zs liq xtol fugacities_ref fugacities_ref_phase
             maxiter remaining' (S i) st'
  end.

(** Returns [(sum_zs_test, Ks, fugacities_ref_phase == fugacities_phase)]. *)
Definition stabiliy_iteration_Michelsen (self : EOS.t) (T P : R) (zs : list R)
    (Ks_initial : option (list R)) (maxiter : nat) (xtol : R) (liq : bool)
    : res (R * list R * bool) :=
  '(fugacities_ref, fugacities_ref_phase) ← eos_fugacities_lowest_Gibbs self;
  Ks ← match Ks_initial with
       | None => wilson_Ks Wilson_K_value T P (EOS.Pcs self) (EOS.Tcs self) (EOS.omegas self)
       | Some Ks => Ok Ks
       end;
  st ← trial_loop self T P zs liq xtol fugacities_ref fugacities_ref_phase
         maxiter maxiter 0 (Ks, None);
  match snd st with
  | None => Raise UnboundLocalError
  | Some (sum_zs_test, fugacities_phase) =>
      Ok (sum_zs_test, fst st, phase_eqb fugacities_ref_phase fugacities_phase)
  end.

(** Returns [(stable, Ks, [Ks_g, Ks_l])]. *)
Definition stability_Michelsen (self : EOS.t) (T P : R) (zs : list R)
    (Ks_initial : option (list R)) (maxiter : nat)
    (xtol trivial_criteria stable_criteria : R)
    : res (bool * list R * (list R * list R)) :=
  Ks ← match Ks_initial with
       | None => wilson_Ks Wilson_K_value T P (EOS.Pcs self) (EOS.Tcs self) (EOS.omegas self)
       | Some Ks => Ok Ks
       end;
  '(zs_sum_g, Ks_g, phase_failure_g) ←
     stabiliy_iteration_Michelsen self T P zs (Some Ks) maxiter xtol false;
  '(zs_sum_l, Ks_l, phase_failure_l) ←
     stabiliy_iteration_Michelsen self T P zs (Some Ks) maxiter xtol true;
  classify Ks trivial_criteria stable_criteria
    zs_sum_g Ks_g phase_failure_g zs_sum_l Ks_l phase_failure_l.

End Stability.

(** *** The generic fugacity coefficients *)

(** [log(1e-300)], what stands for the logarithm of a fugacity coefficient
    that has none. *)
Definition log_of_tiny : R := -690.7755278982137.

(** [F]: the fugacity coefficient of the phase whose root is [Z]. *)
Definition phase_phi (self : EOS.t) (Z : R) : res R :=
  try_except
    (Z_l ← EOS.attr (EOS.Z_l self);
     if Reqb Z Z_l then EOS.attr (EOS.phi_l self) else EOS.attr (EOS.phi_g self))
    any_exception
    (EOS.attr (EOS.phi_g self)).

(** [logF]. *)
Definition log_or_tiny (F : R) : res R :=
  try_except (log F) any_exception (Ok log_of_tiny).

Section GenericFugacity.

(** Collaborators: [dlnphi_dns] of this class (built on the derivative
    tensors) and [thermo.utils.dns_to_dn_partials]. *)
Variable dlnphi_dns : EOS.t -> R -> list R -> res (list R).
Variable dns_to_dn_partials : list R -> R -> res (list R).

Definition fugacity_coefficients (self : EOS.t) (Z : R) (zs : list R) : res (list R) :=
  F ← phase_phi self Z;
  logF ← log_or_tiny F;
  dns ← dlnphi_dns self Z zs;
  dns_to_dn_partials dns logF.

End GenericFugacity.

End GCEOSMIX.

(** ** PRMIX: the closed-form fugacity coefficients *)

Module PRMIX.

(** [root_two = sqrt(2.)]. *)
Definition root_two : R := sqrt 2.

(** The property [_fugacity_sum_terms]: the stored list when there is one,
    else the sums of [zs[j]*a_alpha_ijs[i][j]] built from the lower triangle.
    The property also stores what it computes; that write is left out. *)
Definition sum_terms_pair (zs l : list R) (i j : nat) (terms : list R) : res (list R) :=
  zi ← getitem zs i;
  lj ← getitem l j;
  tj ← getitem terms j;
  terms ← setitem terms j (tj + zi * lj);
  zj ← getitem zs j;
  ti ← getitem terms i;
  setitem terms i (ti + zj * lj).

Definition sum_terms_row (zs : list R) (a_alpha_ijs : matrix) (i : nat) (terms : list R)
    : res (list R) :=
  l ← getitem a_alpha_ijs i;
  terms ← for_each (range 0 i) (sum_terms_pair zs l i) terms;
  zi ← getitem zs i;
  li ← getitem l i;
  ti ← getitem terms i;
  setitem terms i (ti + zi * li).

Definition _fugacity_sum_terms (self : EOS.t) : res (list R) :=
  match EOS.fugacity_sum_terms self with
  | Some terms => Ok terms
  | None =>
      a_alpha_ijs ← EOS.attr (EOS.a_alpha_ijs self);
      for_each (range 0 (EOS.N self)) (sum_terms_row (EOS.zs self) a_alpha_ijs)
        (zeros (EOS.N self))
  end.

(** The first log term, [x0]. *)
Definition log_Z_minus_B (Z B : R) : res R :=
  try_except (log (Z - B)) is_ValueError (Ok 0).

(** The second log term times [A], [x4]. *)
Definition A_log_ratio (A ZB root_two_B : R) : res R :=
  try_except
    (q ← fdiv (ZB + root_two_B) (ZB - root_two_B); l ← log q; Ok (A * l))
    is_ValueError (Ok 0).

Section ClosedForm.

(** The gas constant [R] of [thermo.utils]. *)
Variable R_gas : R.

Definition fugacity_coefficients (self : EOS.t) (Z : R) (zs : list R) : res (list R) :=
  R_inv ← fdiv 1 R_gas;
  let R2_inv := R_inv * R_inv in
  a_alpha ← EOS.attr (EOS.a_alpha self);
  T_inv ← fdiv 1 (EOS.T self);
  let bs := EOS.bs self in
  b ← EOS.attr (EOS.b self);
  let P_T := EOS.P self * T_inv in
  let A := a_alpha * P_T * R2_inv * T_inv in
  let B := b * P_T * R_inv in
  x0 ← log_Z_minus_B Z B;
  let root_two_B := B * root_two in
  let two_root_two_B := root_two_B + root_two_B in
  let ZB := Z + B in
  x4 ← A_log_ratio A ZB root_two_B;
  fugacity_sum_terms ← _fugacity_sum_terms self;
  match fdiv (2 * x4) (a_alpha * two_root_two_B) with
  | Raise e => if is_ZeroDivisionError e then Ok (zeros (EOS.N self)) else Raise e
  | Ok t50 =>
      t51 ← fdiv (x4 + (Z - 1) * two_root_two_B) (b * two_root_two_B);
      map_res (fun i =>
                 bi ← getitem bs i;
                 si ← getitem fugacity_sum_terms i;
                 Ok (bi * t51 - x0 - t50 * si))
        (range 0 (EOS.N self))
  end.

End ClosedForm.

End PRMIX.

(** ** A concrete two-component scenario

    Nitrogen and methane at 115 K and 1 MPa, and simple stand-ins for the
    collaborators, on which the model is run. *)

Module Scenario.

Definition base : EOS.t :=
  EOS.mk 2 [126.1; 190.6] [33.94e5; 46.04e5] [0.04; 0.011] [[0; 0]; [0; 0]]
    [[0; 0]; [0; 0]] [0.15; 0.25] [2e-5; 3e-5] [1/2; 1/2] 115 1e6 None
    (Some [1; 4]) (Some [0; 0]) (Some [0; 0]) None None None None None
    None None None None None None None.

(** A class constructor that stores what it is given. *)
Definition init (args : GCEOSMIX.init_args) : res EOS.t :=
  Ok (EOS.mk (length (GCEOSMIX.init_Tcs args)) (GCEOSMIX.init_Tcs args)
        (GCEOSMIX.init_Pcs args) (GCEOSMIX.init_omegas args) (GCEOSMIX.init_kwargs args)
        (GCEOSMIX.init_kwargs args) [] [] (GCEOSMIX.init_zs args) (GCEOSMIX.init_T args)
        (GCEOSMIX.init_P args) None None None None None None None None None
        None None None None None None None).

Definition fast_init (new other : EOS.t) : res EOS.t := Ok new.

(** A root solver that finds a liquid-like and a vapor-like root. *)
Definition solve (new : EOS.t) (pure_a_alphas only_l only_g full_alphas : bool)
    : res EOS.t :=
  Ok (EOS.set_roots new (Some (1/10)) (Some (9/10))).

(** The trial phase of composition [comp] that [to_TP_zs_fast] builds from
    [base] with these stand-ins. *)
Definition trial (comp : list R) : EOS.t :=
  EOS.set_roots (EOS.set_alphas (EOS.fresh base comp 115 1e6) [1; 4] [0; 0] [0; 0])
    (Some (1/10)) (Some (9/10)).

(** Fugacity coefficients whose liquid-over-vapor ratios are [k1] and [k2]. *)
Definition lnphis (k1 k2 : R) (eos : EOS.t) (Z : R) (comp : list R) : res (list R) :=
  if Rltb Z (1/2) then Ok [ln k1; ln k2] else Ok [0; 0].

(** A Rachford-Rice solver that answers with a fixed split. *)
Definition rachford_rice (V_over_F : R) (xs ys : list R)
    (zs Ks : list R) (guess : option R) : res (R * list R * list R) :=
  Ok (V_over_F, xs, ys).

Definition wilson (T P Tc Pc omega : R) : res R := Ok 1.

(** Every state has the fugacities [[1; 1]] and is liquid-like. *)
Definition lowest_Gibbs (eos : EOS.t) : res (list R * GCEOSMIX.phase) :=
  Ok ([1; 1], GCEOSMIX.phase_l).

(** A Peng-Robinson state of the same mixture, with its mixture parameters
    and stored fugacity sum terms, asked about a root below [B]. *)
Definition pr : EOS.t :=
  EOS.mk 2 [126.1; 190.6] [33.94e5; 46.04e5] [0.04; 0.011] [[0; 0]; [0; 0]]
    [[0; 0]; [0; 0]] [0.15; 0.25] [2e-5; 3e-5] [1/2; 1/2] 100 1e6 None
    (Some [1; 4]) (Some [0; 0]) (Some [0; 0]) None None None None None
    (Some (1/5)) (Some 2.5e-5) (Some (1/100)) (Some (9/10)) None (Some 0)
    (Some [1/10; 3/10]).

(** Stand-ins for [dlnphi_dns] and for [dns_to_dn_partials], which adds [F]
    to every entry. *)
Definition dlnphi_dns (eos : EOS.t) (Z : R) (zs : list R) : res (list R) := Ok [0; 0].

Definition dns_to_dn_partials (dns : list R) (F : R) : res (list R) :=
  Ok (map (fun dni => F + dni) dns).

(** A one-component instance at 300 K whose cached pairwise matrix, [[5]],
    is not the one its [a_alphas = [1]] give: the cache of another
    temperature. *)
Definition single : EOS.t :=
  EOS.mk 1 [126.1] [33.94e5] [0.04] [[0]] [[0]] [0.15] [2e-5] [1] 300 1e5 None
    (Some [1]) (Some [0]) (Some [0]) (Some [[5]]) (Some [1]) (Some [[1]]) None None
    None None None None None None None.

End Scenario.

Module MixingRuleSpec.

(** The combining rule, in the words of the specification. *)
Definition a_alpha_ij (a_alphas : list R) (kijs : matrix) (i j : nat) : R :=
  (1 - at2 kijs i j) * sqrt (at1 a_alphas i * at1 a_alphas j).

(** The double sum over all [i], [j], in the words of the specification. *)
Definition a_alpha_double_sum (zs a_alphas : list R) (kijs : matrix) : R :=
  let N := length a_alphas in
  sum_from 0 N (fun i =>
    sum_from 0 N (fun j => at1 zs i * at1 zs j * a_alpha_ij a_alphas kijs i j)).

Definition symmetric (N : nat) (m : matrix) : Prop :=
  forall i j, (i < N)%nat -> (j < N)%nat -> at2 m i j = at2 m j i.

Definition zero_diagonal (N : nat) (m : matrix) : Prop :=
  forall i, (i < N)%nat -> at2 m i i = 0.

(** *** What the nested loops have written so far

    The loops visit the pairs [(i, j)], [i <= j], row by row. *)

(** The pair [(p, q)] is visited before the loops stand at [(i, j)]. *)
Definition written (i j p q : nat) : bool :=
  (p <? i)%nat || ((p =? i)%nat && (q <? j)%nat).

Definition root_product (a_alphas : list R) (p q : nat) : R :=
  sqrt (at1 a_alphas p) * sqrt (at1 a_alphas q).

(** The entry the loops write at [(p, q)] and at [(q, p)]. *)
Definition ijs_entry (a_alphas : list R) (kijs : matrix) (p q : nat) : R :=
  (1 - at2 kijs (Nat.min p q) (Nat.max p q))
  * root_product a_alphas (Nat.min p q) (Nat.max p q).

(** The reciprocal entry: written on and above the diagonal only. *)
Definition inv_entry (rval : R -> R) (a_alphas : list R) (p q : nat) : R :=
  if (p <=? q)%nat then rval (root_product a_alphas p q) else 0.

(** The two matrices when the loops stand at [(i, j)]. *)
Definition filled (N : nat) (rval : R -> R) (a_alphas : list R) (kijs : matrix)
    (i j : nat) (s : matrix * matrix) : Prop :=
  is_matrix N (fst s) /\ is_matrix N (snd s) /\
  (forall p q, (p < N)%nat -> (q < N)%nat ->
     at2 (fst s) p q =
       if written i j (Nat.min p q) (Nat.max p q) then ijs_entry a_alphas kijs p q else 0) /\
  (forall p q, (p < N)%nat -> (q < N)%nat ->
     at2 (snd s) p q =
       if written i j p q then inv_entry rval a_alphas p q else 0).

(** One term of the double sum, read from the pairwise matrix. *)
Definition weighted (a_alpha_ijs : matrix) (zs : list R) (i j : nat) : R :=
  at2 a_alpha_ijs i j * at1 zs i * at1 zs j.

(** Both matrices have [N] rows of [N] entries. *)
Definition shaped (N : nat) (s : matrix * matrix) : Prop :=
  is_matrix N (fst s) /\ is_matrix N (snd s).

(** The value of [1.0/term], and of the divide-safe reciprocal. *)
Definition reciprocal_value (term : R) : R := 1 / term.


End MixingRuleSpec.

(** ** Tangent-plane distance functions (static methods of GCEOSMIX) *)

Module TangentPlane.

(** The loop of [TPD] over [zip(ys, lnphis_test, zs, lnphis)]. *)
Fixpoint TPD_loop (ys lnphis_test zs lnphis : list R) (tot : R) : res R :=
  match ys, lnphis_test, zs, lnphis with
  | yi :: ys', phi_yi :: lnphis_test', zi :: zs', phi_zi :: lnphis' =>
      log_zi ← log zi;
      let di := log_zi + phi_zi in
      log_yi ← log yi;
      TPD_loop ys' lnphis_test' zs' lnphis' (tot + yi * (log_yi + phi_yi - di))
  | _, _, _, _ => Ok tot
  end.

(** The entries [zip] pairs up: those at the positions all four lists have. *)
Definition zipped (ys lnphis_test zs lnphis : list R) (i : nat) (yi zi : R) : Prop :=
  ys !! i = Some yi /\ zs !! i = Some zi /\
  is_Some (lnphis_test !! i) /\ is_Some (lnphis !! i).

Section GasConstant.

(** The gas constant [R] of [thermo.utils]. *)
Variable R_gas : R.

Definition TPD (T : R) (zs lnphis ys lnphis_test : list R) : res R :=
  tot ← TPD_loop ys lnphis_test zs lnphis 0;
  Ok (tot * R_gas * T).

End GasConstant.

(** [log(zi) if zi > 0.0 else -690.0]. *)
Definition log_or_m690 (zi : R) : res R :=
  if Rltb 0 zi then log zi else Ok (-690).

(** One [ki], with the ValueError of [log(yi)] caught. *)
Definition ki_of (yi log_phi_yi zi log_phi_zi : R) : res R :=
  log_zi ← log_or_m690 zi;
  let di := log_phi_zi + log_zi in
  try_except (log_yi ← log yi; Ok (log_phi_yi + log_yi - di))
    is_ValueError
    (Ok (log_phi_yi + -690 - di)).

(** The list [kis] after the first loop of [Stateva_Tsvetkov_TPDF]. *)
Fixpoint kis_loop (ys lnphis_trial zs lnphis : list R) (kis : list R) : res (list R) :=
  match ys, lnphis_trial, zs, lnphis with
  | yi :: ys', log_phi_yi :: lnphis_trial', zi :: zs', log_phi_zi :: lnphis' =>
      ki ← ki_of yi log_phi_yi zi log_phi_zi;
      kis_loop ys' lnphis_trial' zs' lnphis' (kis ++ [ki])
  | _, _, _, _ => Ok kis
  end.

(** The body of the second loop: [t = kis[i+1] - kis[i]; tot += t*t]. *)
Definition gap_body (kis : list R) (i : nat) (tot : R) : res R :=
  k_next ← getitem kis (i + 1);
  k ← getitem kis i;
  let t := k_next - k in
  Ok (tot + t * t).

Definition Stateva_Tsvetkov_TPDF (lnphis zs lnphis_trial ys : list R) : res R :=
  kis ← kis_loop ys lnphis_trial zs lnphis [];
  k0 ← getitem kis 0;
  let kis := kis ++ [k0] in
  for_each (range 0 (length zs)) (gap_body kis) 0.

End TangentPlane.

(** ** Pseudo-critical properties and the mixture's saturation pressure *)

Module PseudoCritical.

(** [acc += zs[i]*vals[i]], the body of the three pseudo-property loops. *)
Definition mole_weighted (zs vals : list R) (i : nat) (acc : R) : res R :=
  zi ← getitem zs i;
  vi ← getitem vals i;
  Ok (acc + zi * vi).

Definition pseudo_Tc (self : EOS.t) : res R :=
  for_each (range 0 (EOS.N self)) (mole_weighted (EOS.zs self) (EOS.Tcs self)) 0.

Definition pseudo_Pc (self : EOS.t) : res R :=
  for_each (range 0 (EOS.N self)) (mole_weighted (EOS.zs self) (EOS.Pcs self)) 0.

Definition pseudo_a (self : EOS.t) : res R :=
  for_each (range 0 (EOS.N self)) (mole_weighted (EOS.zs self) (EOS.ais self)) 0.

(** The loop of [Psat] on a mixture: [Tc += Tcs[i]*zs[i]] and so on. *)
Definition Psat_body (self : EOS.t) (i : nat) (s : R * R * R) : res (R * R * R) :=
  let '(Tc, Pc, a) := s in
  Tci ← getitem (EOS.Tcs self) i;
  zi ← getitem (EOS.zs self) i;
  Pci ← getitem (EOS.Pcs self) i;
  zi' ← getitem (EOS.zs self) i;
  ai ← getitem (EOS.ais self) i;
  zi'' ← getitem (EOS.zs self) i;
  Ok (Tc + Tci * zi, Pc + Pci * zi', a + ai * zi'').

Section Saturation.

(** [GCEOS.Psat] of [thermo.eos], which reads the [Tc], [Pc], [omega] and [a]
    that [Psat] has put on the instance; it is always called with
    [polish=False]. *)
Variable GCEOS_Psat : EOS.t -> R -> R -> R -> R -> R -> bool -> res R.

(** The local [omega] is assigned in the one-component branch only. *)
Definition Psat (self : EOS.t) (T : R) (polish : bool) : res R :=
  '(Tc, Pc, omega, a) ←
     (if (EOS.N self =? 1)%nat then
        Tc ← getitem (EOS.Tcs self) 0;
        Pc ← getitem (EOS.Pcs self) 0;
        omega ← getitem (EOS.omegas self) 0;
        a ← getitem (EOS.ais self) 0;
        Ok (Tc, Pc, Some omega, a)
      else
        '(Tc, Pc, a) ← for_each (range 0 (EOS.N self)) (Psat_body self) (0, 0, 0);
        Ok (Tc, Pc, None, a));
  omega ← match omega with
          | Some omega => Ok omega
          | None => Raise UnboundLocalError
          end;
  GCEOS_Psat self Tc Pc omega a T false.

End Saturation.

End PseudoCritical.

(** ** New states from an existing one: [to], [to_TV_zs], [to_PV_zs] *)

Module Respecify.

Import GCEOSMIX.

(** The keyword arguments of [self.__class__(...)]: each of [T], [P] and [V]
    may be left at [None]. *)
Record spec_args : Type := {
  spec_T : option R; spec_P : option R; spec_V : option R; spec_zs : list R;
  spec_Tcs : list R; spec_Pcs : list R; spec_omegas : list R;
  spec_only_l : bool; spec_only_g : bool; spec_fugacities : bool;
  spec_kwargs : matrix
}.

(** The call of [to_TP_zs], which passes [T] and [P]. *)
Definition of_init_args (a : init_args) : spec_args :=
  {| spec_T := Some (init_T a); spec_P := Some (init_P a); spec_V := None;
     spec_zs := init_zs a; spec_Tcs := init_Tcs a; spec_Pcs := init_Pcs a;
     spec_omegas := init_omegas a; spec_only_l := init_only_l a;
     spec_only_g := init_only_g a; spec_fugacities := init_fugacities a;
     spec_kwargs := init_kwargs a |}.

(** [V == self.V], where [self.V] is [None] on a state specified by [T] and
    [P]. *)
Definition option_Reqb (x y : option R) : bool :=
  match x, y with
  | Some a, Some b => Reqb a b
  | None, None => true
  | _, _ => false
  end.

Section Constructor.

Variable class_new : spec_args -> res EOS.t.

(** The call of the class constructor: the new object joins the store. *)
Definition construct (st : store) (args : spec_args) : store * res nat :=
  match class_new args with
  | Ok new =>
      ({| objects := objects st ++ [new]; constructions := S (constructions st) |},
       Ok (length (objects st)))
  | Raise e =>
      ({| objects := objects st; constructions := S (constructions st) |}, Raise e)
  end.

Definition args_of (obj : EOS.t) (T P V : option R) (zs : list R)
    (fugacities only_l only_g : bool) : spec_args :=
  {| spec_T := T; spec_P := P; spec_V := V; spec_zs := zs;
     spec_Tcs := EOS.Tcs obj; spec_Pcs := EOS.Pcs obj; spec_omegas := EOS.omegas obj;
     spec_only_l := only_l; spec_only_g := only_g; spec_fugacities := fugacities;
     spec_kwargs := EOS.kwargs obj |}.

Definition to_TV_zs (st : store) (self : nat) (T : R) (V : option R) (zs : list R)
    (fugacities only_l only_g : bool) : store * res nat :=
  match objects st !! self with
  | None => (st, Raise AttributeError)
  | Some obj =>
      if Reqb T (EOS.T obj) && option_Reqb V (EOS.V obj) && list_Reqb zs (EOS.zs obj)
      then (st, Ok self)
      else construct st (args_of obj (Some T) None V zs fugacities only_l only_g)
  end.

Definition to_PV_zs (st : store) (self : nat) (P : R) (V : option R) (zs : list R)
    (fugacities only_l only_g : bool) : store * res nat :=
  match objects st !! self with
  | None => (st, Raise AttributeError)
  | Some obj =>
      if Reqb P (EOS.P obj) && option_Reqb V (EOS.V obj) && list_Reqb zs (EOS.zs obj)
      then (st, Ok self)
      else construct st (args_of obj None (Some P) V zs fugacities only_l only_g)
  end.

(** [to]: the first pair of specifications that is complete decides, in the
    order (T, P), (T, V), (P, V). *)
Definition to (st : store) (self : nat) (zs : option (list R)) (T P V : option R)
    (fugacities : bool) : store * res nat :=
  match objects st !! self with
  | None => (st, Raise AttributeError)
  | Some obj =>
      let zs := match zs with Some zs => zs | None => EOS.zs obj end in
      match T, P, V with
      | Some T, Some P, _ =>
          to_TP_zs (fun a => class_new (of_init_args a)) st self T P zs fugacities
            false false
      | Some T, _, Some V => to_TV_zs st self T (Some V) zs fugacities false false
      | _, Some P, Some V => to_PV_zs st self P (Some V) zs fugacities false false
      | _, _, _ => construct st (args_of obj T P V zs fugacities false false)
      end
  end.

End Constructor.

End Respecify.

(** ** The choice of the root for stability tests (module-level functions) *)

Module PhaseChoice.

Open Scope string_scope.

(** The attributes of an EOS object these functions read; an attribute the
    solver has not set is [None]. *)
Record roots : Type := {
  G_dep_l : option R; G_dep_g : option R;
  Z_l : option R; Z_g : option R;
  lnphis_l : option (list R); lnphis_g : option (list R)
}.

(** [getattr(eos, name)] on the attributes that hold a number. *)
Definition getattr (eos : roots) (name : string) : res R :=
  if String.eqb name "Z_l" then EOS.attr (Z_l eos)
  else if String.eqb name "Z_g" then EOS.attr (Z_g eos)
  else if String.eqb name "G_dep_l" then EOS.attr (G_dep_l eos)
  else if String.eqb name "G_dep_g" then EOS.attr (G_dep_g eos)
  else Raise AttributeError.

(** [getattr(eos, name)] on the attributes that hold a list. *)
Definition getattr_list (eos : roots) (name : string) : res (list R) :=
  if String.eqb name "lnphis_l" then EOS.attr (lnphis_l eos)
  else if String.eqb name "lnphis_g" then EOS.attr (lnphis_g eos)
  else Raise AttributeError.

Definition hasattr {A} (field : option A) : bool :=
  match field with Some _ => true | None => false end.

Definition eos_Z_test_phase_stability (eos : roots) : res (R * string * string) :=
  try_except
    (G_l ← EOS.attr (G_dep_l eos);
     G_g ← EOS.attr (G_dep_g eos);
     if Rltb G_l G_g
     then Z_eos ← EOS.attr (Z_l eos); Ok (Z_eos, "Z_g", "Z_l")
     else Z_eos ← EOS.attr (Z_g eos); Ok (Z_eos, "Z_l", "Z_g"))
    any_exception
    (Z_eos ← (if hasattr (Z_g eos) then EOS.attr (Z_g eos) else EOS.attr (Z_l eos));
     let prefer := if hasattr (Z_g eos) then "Z_l" else "Z_g" in
     let alt := if hasattr (Z_g eos) then "Z_g" else "Z_l" in
     Ok (Z_eos, prefer, alt)).

Definition eos_Z_trial_phase_stability (eos : roots) (prefer alt : string) : res R :=
  try_except
    (G_l ← EOS.attr (G_dep_l eos);
     G_g ← EOS.attr (G_dep_g eos);
     if Rltb G_l G_g then EOS.attr (Z_l eos) else EOS.attr (Z_g eos))
    any_exception
    (try_except (getattr eos alt) any_exception (getattr eos prefer)).

Definition eos_lnphis_test_phase_stability (eos : roots)
    : res (list R * string * string) :=
  try_except
    (G_l ← EOS.attr (G_dep_l eos);
     G_g ← EOS.attr (G_dep_g eos);
     if Rltb G_l G_g
     then lnphis_eos ← EOS.attr (lnphis_l eos); Ok (lnphis_eos, "lnphis_g", "lnphis_l")
     else lnphis_eos ← EOS.attr (lnphis_g eos); Ok (lnphis_eos, "lnphis_l", "lnphis_g"))
    any_exception
    (lnphis_eos ← (if hasattr (lnphis_g eos) then EOS.attr (lnphis_g eos)
                   else EOS.attr (lnphis_l eos));
     let prefer := if hasattr (lnphis_g eos) then "lnphis_l" else "lnphis_g" in
     let alt := if hasattr (lnphis_g eos) then "lnphis_g" else "lnphis_l" in
     Ok (lnphis_eos, prefer, alt)).

Definition eos_lnphis_trial_phase_stability (eos : roots) (prefer alt : string)
    : res (list R) :=
  try_except
    (G_l ← EOS.attr (G_dep_l eos);
     G_g ← EOS.attr (G_dep_g eos);
     if Rltb G_l G_g then EOS.attr (lnphis_l eos) else EOS.attr (lnphis_g eos))
    any_exception
    (try_except (getattr_list eos alt) any_exception (getattr_list eos prefer)).

End PhaseChoice.

(** ** Composition derivatives of the mixture parameters *)

Module CompositionDerivatives.

(** *** GCEOSMIX: derivatives of [b] *)

Definition db_dns (self : EOS.t) : res (list R) :=
  b ← EOS.attr (EOS.b self);
  Ok (map (fun bi => bi - b) (EOS.bs self)).

Definition d2b_dninjs (self : EOS.t) : res matrix :=
  b ← EOS.attr (EOS.b self);
  let bb := 2 * b in
  let bs := EOS.bs self in
  Ok (map (fun bi => map (fun bj => bb - bi - bj) bs) bs).

Definition d3b_dninjnks (self : EOS.t) : res (list matrix) :=
  b ← EOS.attr (EOS.b self);
  let m3b := -3 * b in
  let bs := EOS.bs self in
  Ok (map (fun bi => map (fun bj => map (fun bk => 2 * (m3b + bi + bj + bk)) bs) bs) bs).

(** *** GCEOSMIX: derivatives of [a_alpha] *)





(** *** What the loops of [_fugacity_sum_terms] have added so far *)




(** *** PRMIX: derivatives of [delta = 2b] and [epsilon = -b*b] *)

Definition ddelta_dzs (self : EOS.t) : res (list R) :=
  Ok (map (fun i => i + i) (EOS.bs self)).

Definition ddelta_dns (self : EOS.t) : res (list R) :=
  b ← EOS.attr (EOS.b self);
  Ok (map (fun bi => 2 * (bi - b)) (EOS.bs self)).

Definition d2delta_dninjs (self : EOS.t) : res matrix :=
  b ← EOS.attr (EOS.b self);
  let bb := 2 * b in
  let bs := EOS.bs self in
  Ok (map (fun bi => map (fun bj => 2 * (bb - bi - bj)) bs) bs).

Definition d3delta_dninjnks (self : EOS.t) : res (list matrix) :=
  b ← EOS.attr (EOS.b self);
  let m3b := -3 * b in
  let bs := EOS.bs self in
  Ok (map (fun bi => map (fun bj => map (fun bk => 4 * (m3b + bi + bj + bk)) bs) bs) bs).

Definition depsilon_dzs (self : EOS.t) : res (list R) :=
  b ← EOS.attr (EOS.b self);
  let b2n := -2 * b in
  Ok (map (fun bi => bi * b2n) (EOS.bs self)).

Definition depsilon_dns (self : EOS.t) : res (list R) :=
  b ← EOS.attr (EOS.b self);
  let b2 := b + b in
  Ok (map (fun bi => b2 * (b - bi)) (EOS.bs self)).

(** The two loops run over [cmps] and index [bs]. *)
Definition d2epsilon_dninjs (self : EOS.t) : res matrix :=
  let bs := EOS.bs self in
  b ← EOS.attr (EOS.b self);
  let bb := b + b in
  map_res (fun i =>
    map_res (fun j =>
      bi ← getitem bs i;
      bj ← getitem bs j;
      Ok (- bb * (bb - (bi + bj)) - 2 * (b - bi) * (b - bj)))
      (range 0 (EOS.N self)))
    (range 0 (EOS.N self)).

End CompositionDerivatives.

(** ** PRMIX: construction and the pure-component alpha functions *)

Module PengRobinson.

(** [x ** -0.5]: zero raised to a negative power raises ZeroDivisionError;
    a negative base is treated as in [pow_half]. *)
Definition pow_neg_half (x : R) : res R :=
  if Rlt_dec x 0 then Raise (ValueError NegativePower)
  else if Req_dec_T x 0 then Raise ZeroDivisionError
  else Ok (1 / sqrt x).

(** The attributes that PRMIX adds to an instance. *)
Record attrs : Type := { kappas : list R; delta : R; epsilon : R }.

Definition set_b (self : EOS.t) (b : R) : EOS.t :=
  EOS.mk (EOS.N self) (EOS.Tcs self) (EOS.Pcs self) (EOS.omegas self) (EOS.kijs self)
    (EOS.kwargs self) (EOS.ais self) (EOS.bs self) (EOS.zs self) (EOS.T self) (EOS.P self)
    (EOS.V self) (EOS.a_alphas self) (EOS.da_alpha_dTs self) (EOS.d2a_alpha_dT2s self)
    (EOS.a_alpha_ijs self) (EOS.a_alpha_i_roots self) (EOS.a_alpha_ij_roots_inv self)
    (EOS.da_alpha_dT_ijs self) (EOS.d2a_alpha_dT2_ijs self) (EOS.a_alpha self) (Some b)
    (EOS.Z_l self) (EOS.Z_g self) (EOS.phi_l self) (EOS.phi_g self)
    (EOS.fugacity_sum_terms self).

(** [for bi, zi in zip(self.bs, self.zs): b += bi*zi]. *)
Definition zipped_b (bs zs : list R) : R :=
  fold_left (fun b p => b + fst p * snd p) (zip bs zs) 0.

(** [_fast_init_specific]: the kappas are taken from [other]; [b], [delta]
    and [epsilon] are computed again for the new composition. *)
Definition _fast_init_specific (self : EOS.t) (other : attrs) : EOS.t * attrs :=
  let b := zipped_b (EOS.bs self) (EOS.zs self) in
  (set_b self b, {| kappas := kappas other; delta := 2 * b; epsilon := - b * b |}).

(** [for i in cmps: b += bs[i]*zs[i]]. *)
Definition indexed_b_body (bs zs : list R) (i : nat) (b : R) : res R :=
  bi ← getitem bs i;
  zi ← getitem zs i;
  Ok (b + bi * zi).

Section Constants.

(** The constants [c1] and [c2] of the class [PR] of [thermo.eos], and the
    gas constant. *)
Variable c1 c2 R_gas : R.

(** [__init__] for a state specified by [T] and [P], up to the call of
    [solve]. *)
Definition init (Tcs Pcs omegas zs : list R) (kijs : option matrix) (T P : R)
    (V : option R) : res (EOS.t * attrs) :=
  let N := length Tcs in
  let kijs := match kijs with Some kijs => kijs | None => zeros2 N end in
  let c1R2 := c1 * (R_gas * R_gas) in
  let c2R := c2 * R_gas in
  ais ← map_res (fun i =>
           Tci ← getitem Tcs i;
           Tci' ← getitem Tcs i;
           Pci ← getitem Pcs i;
           fdiv (c1R2 * Tci * Tci') Pci) (range 0 N);
  bs ← map_res (fun i =>
          Tci ← getitem Tcs i;
          Pci ← getitem Pcs i;
          fdiv (c2R * Tci) Pci) (range 0 N);
  b ← for_each (range 0 N) (indexed_b_body bs zs) 0;
  let kappas := map (fun omega => omega * (-0.26992 * omega + 1.54226) + 0.37464) omegas in
  Ok (EOS.mk N Tcs Pcs omegas kijs kijs ais bs zs T P V None None None None None None
        None None None (Some b) None None None None None,
      {| kappas := kappas; delta := 2 * b; epsilon := - b * b |}).

End Constants.

(** What [a_alpha_and_derivatives_vectorized] returns: the list of
    [a_alphas], or the three lists when [full]. *)
Inductive vectorized_result : Type :=
  | Alphas (a_alphas : list R)
  | AlphasAndDerivatives (a_alphas da_alpha_dTs d2a_alpha_dT2s : list R).

(** The body of the loop of the branch [not full]. *)
Definition alpha_only (ais kappas Tcs : list R) (T : R) (i : nat) : res R :=
  Tci ← getitem Tcs i;
  x1 ← pow_neg_half Tci;
  kappa ← getitem kappas i;
  let x2 := 1 + kappa * (1 - T * x1) in
  ai ← getitem ais i;
  Ok (ai * x2 * x2).

(** The loop of the branch [full], over [zip(ais, kappas, Tcs)]. *)
Fixpoint alpha_full_loop (x0 x0_inv x5 x6 : R) (ais kappas Tcs : list R)
    (out : list R * list R * list R) : res (list R * list R * list R) :=
  match ais, kappas, Tcs with
  | a :: ais', kappa :: kappas', Tc :: Tcs' =>
      let '(a_alphas, da_alpha_dTs, d2a_alpha_dT2s) := out in
      x1 ← pow_neg_half Tc;
      let x2 := kappa * (x0 * x1 - 1) - 1 in
      let x3 := a * kappa in
      let x4 := x1 * x2 in
      alpha_full_loop x0 x0_inv x5 x6 ais' kappas' Tcs'
        (a_alphas ++ [a * x2 * x2],
         da_alpha_dTs ++ [x4 * x3 * x0_inv],
         d2a_alpha_dT2s ++ [x3 * (x5 * x1 * x1 * kappa - x4 * x6)])
  | _, _, _ => Ok out
  end.

(** The branch [full] of [a_alpha_and_derivatives_vectorized]. *)
Definition vectorized_full (self : EOS.t) (extra : attrs) (T : R)
    : res (list R * list R * list R) :=
  T_inv ← fdiv 1 T;
  x0 ← pow_half T;
  x0_inv ← fdiv 1 x0;
  let x0T_inv := x0_inv * T_inv in
  let x5 := 0.5 * T_inv in
  let x6 := 0.5 * x0T_inv in
  alpha_full_loop x0 x0_inv x5 x6 (EOS.ais self) (kappas extra) (EOS.Tcs self) ([], [], []).

Definition a_alpha_and_derivatives_vectorized (self : EOS.t) (extra : attrs) (T : R)
    (full : bool) : res vectorized_result :=
  if negb full then
    a_alphas ← map_res (alpha_only (EOS.ais self) (kappas extra) (EOS.Tcs self) T)
                 (range 0 (EOS.N self));
    Ok (Alphas a_alphas)
  else
    '(a_alphas, da_alpha_dTs, d2a_alpha_dT2s) ← vectorized_full self extra T;
    Ok (AlphasAndDerivatives a_alphas da_alpha_dTs d2a_alpha_dT2s).

(** What one pass of the [full] loop appends to the three lists, for a
    component with [a], [kappa] and [Tc], at the temperature [T]. *)
Definition x2_at (kappa Tc T : R) : R := kappa * (sqrt T * (1 / sqrt Tc) - 1) - 1.

Definition a_alpha_entry (a kappa Tc T : R) : R :=
  a * x2_at kappa Tc T * x2_at kappa Tc T.

Definition da_alpha_dT_entry (a kappa Tc T : R) : R :=
  1 / sqrt Tc * x2_at kappa Tc T * (a * kappa) * (1 / sqrt T).

Definition d2a_alpha_dT2_entry (a kappa Tc T : R) : R :=
  a * kappa * (0.5 * (1 / T) * (1 / sqrt Tc) * (1 / sqrt Tc) * kappa
               - 1 / sqrt Tc * x2_at kappa Tc T * (0.5 * (1 / sqrt T * (1 / T)))).

(** The alpha function of Peng and Robinson, and the value of the [i]-th
    entry of each list of the [full] branch as a function of the
    temperature (0 where the call does not return). *)
Definition alpha_PR (a kappa Tc T : R) : R :=
  a * ((1 + kappa * (1 - sqrt (T / Tc))) * (1 + kappa * (1 - sqrt (T / Tc)))).

Definition a_alpha_at (self : EOS.t) (extra : attrs) (i : nat) (T : R) : R :=
  match a_alpha_and_derivatives_vectorized self extra T true with
  | Ok (AlphasAndDerivatives a_alphas _ _) => at1 a_alphas i
  | _ => 0
  end.

Definition da_alpha_dT_at (self : EOS.t) (extra : attrs) (i : nat) (T : R) : R :=
  match a_alpha_and_derivatives_vectorized self extra T true with
  | Ok (AlphasAndDerivatives _ da_alpha_dTs _) => at1 da_alpha_dTs i
  | _ => 0
  end.

Definition d2a_alpha_dT2_at (self : EOS.t) (extra : attrs) (i : nat) (T : R) : R :=
  match a_alpha_and_derivatives_vectorized self extra T true with
  | Ok (AlphasAndDerivatives _ _ d2a_alpha_dT2s) => at1 d2a_alpha_dT2s i
  | _ => 0
  end.

End PengRobinson.

(** ** [GCEOSMIX.a_alpha_and_derivatives] on a PRMIX instance *)

Module MixtureAlpha.

Import GCEOSMIX.

Section Method.

(** [IS_PYPY] of [fluids.numerics], and [a_alpha_and_derivatives_numpy],
    which is taken with more than 20 components outside PyPy. *)
Variable IS_PYPY : bool.
Variable a_alpha_and_derivatives_numpy :
  EOS.t -> list R -> list R -> list R -> R -> bool -> bool -> EOS.t * res a_alpha_result.

(** PRMIX has its [a_alpha_and_derivatives_vectorized], which is called with
    [full=True] whatever [full] is, so the branch under
    [except NotImplementedError], through the pure-component alpha functions,
    is not taken. *)
Definition a_alpha_and_derivatives (self : EOS.t) (extra : PengRobinson.attrs) (T : R)
    (full quick pure_a_alphas : bool) : EOS.t * res a_alpha_result :=
  match
    (if pure_a_alphas then
       '(a_alphas, da_alpha_dTs, d2a_alpha_dT2s) ← PengRobinson.vectorized_full self extra T;
       Ok (EOS.set_alphas self a_alphas da_alpha_dTs d2a_alpha_dT2s,
           a_alphas, da_alpha_dTs, d2a_alpha_dT2s)
     else
       a_alphas ← EOS.attr (EOS.a_alphas self);
       da_alpha_dTs ← EOS.attr (EOS.da_alpha_dTs self);
       d2a_alpha_dT2s ← EOS.attr (EOS.d2a_alpha_dT2s self);
       Ok (self, a_alphas, da_alpha_dTs, d2a_alpha_dT2s))
  with
  | Raise e => (self, Raise e)
  | Ok (self, a_alphas, da_alpha_dTs, d2a_alpha_dT2s) =>
      if negb IS_PYPY && (20 <? EOS.N self)%nat
      then a_alpha_and_derivatives_numpy self a_alphas da_alpha_dTs d2a_alpha_dT2s T
             full quick
      else a_alpha_and_derivatives_py self a_alphas da_alpha_dTs d2a_alpha_dT2s T
             full quick
  end.

End Method.

End MixtureAlpha.

(** ** What the derivative loops of the full mixing rule have written *)

Module DerivativeSpec.

(** The double sum of a pairwise matrix weighted by the mole fractions. *)
Definition double_sum (N : nat) (zs : list R) (m : matrix) : R :=
  sum_from 0 N (fun p => sum_from 0 N (fun q => at1 zs p * at1 zs q * at2 m p q)).

(** The loops standing at row [i], column [j]: the entries that no pass has
    written yet still hold 0.0. *)
Definition unwritten (N i j : nat) (m : matrix) : Prop :=
  forall p q, (p < N)%nat -> (q < N)%nat -> (i <= p)%nat -> (i <= q)%nat ->
    (p = i -> (j <= q)%nat) -> (q = i -> (j <= p)%nat) -> at2 m p q = 0.

(** The running total and the matrix filled so far agree. *)
Definition consistent (N : nat) (zs : list R) (i j : nat) (total : R) (m : matrix) : Prop :=
  is_matrix N m /\ MixingRuleSpec.symmetric N m /\ unwritten N i j m /\
  total = double_sum N zs m.

(** The same for the whole state of the loops. *)
Definition state_consistent (N : nat) (zs : list R) (i j : nat)
    (s : MixingRule.deriv_state) : Prop :=
  let '(da_alpha_dT, d2a_alpha_dT2, da_alpha_dT_ijs, d2a_alpha_dT2_ijs) := s in
  consistent N zs i j da_alpha_dT da_alpha_dT_ijs /\
  match d2a_alpha_dT2_ijs with
  | Some m => consistent N zs i j d2a_alpha_dT2 m
  | None => True
  end.

End DerivativeSpec.

(** ** The residuals of the Newton flash: [_err_VL] *)

Module NewtonResidual.

Import GCEOSMIX.

(** [[lnKi - lnphi_l + lnphi_g for lnphi_l, lnphi_g, lnKi in zip(lnphis_l,
    lnphis_g, lnKs)]]. *)
Fixpoint residuals (lnphis_l lnphis_g lnKs : list R) : list R :=
  match lnphis_l, lnphis_g, lnKs with
  | lnphi_l :: lnphis_l', lnphi_g :: lnphis_g', lnKi :: lnKs' =>
      (lnKi - lnphi_l + lnphi_g) :: residuals lnphis_l' lnphis_g' lnKs'
  | _, _, _ => []
  end.

Section ErrVL.

(** Collaborators: [Rachford_Rice_flash_error] of [thermo.activity], the
    subclass's [_fast_init_specific] and [solve], and [fugacities()], seen
    through the two attributes read after it: [(lnphis_l, lnphis_g)], each
    [None] when the call has not set it. *)
Variable Rachford_Rice_flash_error : R -> list R -> list R -> res R.
Variable _fast_init_specific : EOS.t -> EOS.t -> res EOS.t.
Variable solve : EOS.t -> bool -> bool -> bool -> bool -> res EOS.t.
Variable fugacities : EOS.t -> res (option (list R) * option (list R)).

(** Returns [Fs] together with what is written to [info]:
    [(VF, xs, ys, eos_l, eos_g)]. *)
Definition _err_VL (self : EOS.t) (lnKsVF : list R) (T P : R) (zs : list R)
    (near_critical : bool) : res (list R * (R * list R * list R * EOS.t * EOS.t)) :=
  let lnKs := take (length lnKsVF - 1) lnKsVF in
  let Ks := map exp lnKs in
  VF ← getitem lnKsVF (length lnKsVF - 1);
  xs ← zip_res (fun zi Ki => fdiv zi (1 + VF * (Ki - 1))) zs Ks;
  let ys := zip_with (fun Ki xi => Ki * xi) Ks xs in
  err_RR ← Rachford_Rice_flash_error VF zs Ks;
  eos_g ← to_TP_zs_fast _fast_init_specific solve self T P ys false true true;
  '(g_lnphis_l, g_lnphis_g) ← fugacities eos_g;
  eos_l ← to_TP_zs_fast _fast_init_specific solve self T P xs true false true;
  '(l_lnphis_l, l_lnphis_g) ← fugacities eos_l;
  '(lnphis_g, lnphis_l) ←
     (if negb near_critical then
        lnphis_g ← EOS.attr g_lnphis_g;
        lnphis_l ← EOS.attr l_lnphis_l;
        Ok (lnphis_g, lnphis_l)
      else
        lnphis_g ← try_except (EOS.attr g_lnphis_g) is_AttributeError
                     (EOS.attr g_lnphis_l);
        lnphis_l ← try_except (EOS.attr l_lnphis_l) is_AttributeError
                     (EOS.attr l_lnphis_g);
        Ok (lnphis_g, lnphis_l));
  let Fs := residuals lnphis_l lnphis_g lnKs ++ [err_RR] in
  Ok (Fs, (VF, xs, ys, eos_l, eos_g)).

End ErrVL.

End NewtonResidual.

(** ** The inner loop of the dew-point search: [_V_over_F_dew_T_inner] *)

Module DewPoint.

Import GCEOSMIX.

(** The attributes of a state that the loop reads; one the solver has not
    set is [None]. *)
Record phase_attrs : Type := {
  V_l : option R; V_g : option R;
  phis_l : option (list R); phis_g : option (list R);
  fugacities_l : option (list R); fugacities_g : option (list R)
}.

(** How a call ends when nothing it calls raises: with a value, or with one
    of the two ValueErrors the method raises itself, "there is no vapor
    root" and "the solver did not converge to a liquid root". *)
Inductive outcome : Type :=
  | Returned (v : R)
  | NoVaporRoot
  | NoLiquidRoot.

(** [sum([abs(a - b) for a, b in zip(l1, l2)])]. *)
Definition abs_differences (l1 l2 : list R) : R :=
  py_sum (zip_with (fun a b => Rabs (a - b)) l1 l2).

Section DewLoop.

(** Collaborators: [to_TP_zs] of the instance, seen through the attributes
    of the state it hands back, and [Wilson_K_value], [K_value] and
    [flash_inner_loop] of [thermo.activity]. *)
Variable to_TP_zs : EOS.t -> R -> R -> list R -> res phase_attrs.
Variable Wilson_K_value : R -> R -> R -> R -> R -> res R.
Variable K_value : R -> R -> res R.
Variable flash_inner_loop : list R -> list R -> option R -> res (R * list R * list R).

(** The locals that live across the passes: [V_over_F], [xs], [ys], and
    [eos_l] once a pass has run. *)
Definition dew_state : Type := R * list R * list R * option phase_attrs.

(** One pass of the loop body, up to [xs, ys = xs_new, ys_new]; the error it
    computes is returned beside the new locals. *)
Definition dew_pass (self : EOS.t) (eos_g : phase_attrs) (T P : R) (zs : list R)
    (st : dew_state) : res (dew_state * R) :=
  let '(_, xs, ys, _) := st in
  eos_l ← to_TP_zs self T P xs;
  '(phis_l', fugacities_l') ←
     (if negb (PhaseChoice.hasattr (V_l eos_l)) then
        p ← EOS.attr (phis_g eos_l);
        f ← EOS.attr (fugacities_g eos_l);
        Ok (p, f)
      else
        p ← EOS.attr (phis_l eos_l);
        f ← EOS.attr (fugacities_l eos_l);
        Ok (p, f));
  phis_g_ref ← EOS.attr (phis_g eos_g);
  Ks ← zip_res K_value phis_l' phis_g_ref;
  '(V_over_F, xs_new, ys_new) ← flash_inner_loop zs Ks None;
  let err := abs_differences xs_new xs + abs_differences ys_new ys in
  Ok ((V_over_F, xs_new, ys_new, Some eos_l), err).

(** [for i in range(maxiter)], with [remaining] passes left; the [break]
    stands under [if xtol < 1E-10:]. *)
Fixpoint dew_loop (self : EOS.t) (eos_g : phase_attrs) (T P : R) (zs : list R)
    (xtol : R) (remaining : nat) (st : dew_state) : res dew_state :=
  match remaining with
  | O => Ok st
  | S remaining' =>
      '(st', err) ← dew_pass self eos_g T P zs st;
      if Rltb xtol 1e-10 then Ok st'
      else dew_loop self eos_g T P zs xtol remaining' st'
  end.

Definition _V_over_F_dew_T_inner (self : EOS.t) (T P : R) (zs : list R)
    (maxiter : nat) (xtol : R) : res outcome :=
  eos_g ← to_TP_zs self T P zs;
  if negb (PhaseChoice.hasattr (V_g eos_g)) then Ok NoVaporRoot
  else
    Ks ← wilson_Ks Wilson_K_value T P (EOS.Pcs self) (EOS.Tcs self) (EOS.omegas self);
    '(V_over_F, xs, ys) ← flash_inner_loop zs Ks None;
    '(V_over_F, _, _, eos_l) ←
       dew_loop self eos_g T P zs xtol maxiter (V_over_F, xs, ys, None);
    match eos_l with
    | None => Raise UnboundLocalError
    | Some eos_l =>
        if negb (PhaseChoice.hasattr (V_l eos_l)) then Ok NoLiquidRoot
        else Ok (Returned (V_over_F - 1))
    end.

End DewLoop.

End DewPoint.

(** ** More concrete cases

    Stand-ins and states on which the further properties are run. *)

Module Cases.

Import GCEOSMIX.

(** A class constructor that stores what it is given, for a state specified
    by [T] and [P]; it refuses any other pair. *)
Definition class_new (args : Respecify.spec_args) : res EOS.t :=
  match Respecify.spec_T args, Respecify.spec_P args with
  | Some T, Some P =>
      Scenario.init
        {| init_T := T; init_P := P; init_zs := Respecify.spec_zs args;
           init_Tcs := Respecify.spec_Tcs args; init_Pcs := Respecify.spec_Pcs args;
           init_omegas := Respecify.spec_omegas args;
           init_only_l := Respecify.spec_only_l args;
           init_only_g := Respecify.spec_only_g args;
           init_fugacities := Respecify.spec_fugacities args;
           init_kwargs := Respecify.spec_kwargs args |}
  | _, _ => Raise AssertionError
  end.

(** The store that holds [Scenario.base] alone. *)
Definition one_object : store := {| objects := [Scenario.base]; constructions := 0 |}.

(** Every state has the fugacities [[1; 1]]; one with a vapor-like root is
    vapor, any other liquid. *)
Definition lowest_Gibbs_by_root (eos : EOS.t) : res (list R * phase) :=
  Ok ([1; 1], match EOS.Z_g eos with Some _ => phase_g | None => phase_l end).

(** An object with both roots, the liquid-like one of lower Gibbs energy. *)
Definition two_roots : PhaseChoice.roots :=
  {| PhaseChoice.G_dep_l := Some (-2); PhaseChoice.G_dep_g := Some (-1);
     PhaseChoice.Z_l := Some (1/10); PhaseChoice.Z_g := Some (9/10);
     PhaseChoice.lnphis_l := Some [-1; -2]; PhaseChoice.lnphis_g := Some [0; 0] |}.

(** The attributes PRMIX adds to [Scenario.pr]. *)
Definition pr_attrs : PengRobinson.attrs :=
  {| PengRobinson.kappas := [1; 1/2]; PengRobinson.delta := 5e-5;
     PengRobinson.epsilon := - 2.5e-5 * 2.5e-5 |}.

(** [Scenario.base] with a composition of one entry for its two components. *)
Definition short_composition : EOS.t := EOS.fresh Scenario.base [1] 115 1e6.

(** A saturation-pressure routine that would answer 1 bar. *)
Definition GCEOS_Psat (self : EOS.t) (Tc Pc omega a T : R) (polish : bool) : res R :=
  Ok 1e5.

(** Stand-ins for [Rachford_Rice_flash_error] and for [fugacities()], which
    leaves both lists of log fugacity coefficients on the state. *)
Definition rachford_rice_error (VF : R) (zs Ks : list R) : res R := Ok 0.

Definition fugacities (eos : EOS.t) : res (option (list R) * option (list R)) :=
  Ok (Some [0; 0], Some [0; 0]).

(** A [to_TP_zs] whose states have both roots and unit fugacity
    coefficients, and a [K_value] that divides. *)
Definition both_roots_state (self : EOS.t) (T P : R) (zs : list R)
    : res DewPoint.phase_attrs :=
  Ok {| DewPoint.V_l := Some 1e-4; DewPoint.V_g := Some 1e-2;
        DewPoint.phis_l := Some [1; 1]; DewPoint.phis_g := Some [1; 1];
        DewPoint.fugacities_l := Some [5e5; 5e5];
        DewPoint.fugacities_g := Some [5e5; 5e5] |}.

Definition K_value (phi_l phi_g : R) : res R := fdiv phi_l phi_g.

(** Pure nitrogen at its critical temperature, as a one-component PRMIX
    without cached pairwise quantities, and the attributes PRMIX adds. *)
Definition pure_component : EOS.t := EOS.fresh Scenario.single [1] 126.1 1e5.

Definition pure_attrs : PengRobinson.attrs :=
  {| PengRobinson.kappas := [1/2]; PengRobinson.delta := 4e-5;
     PengRobinson.epsilon := - 2e-5 * 2e-5 |}.

(** An [a_alpha_and_derivatives_numpy] that is not there. *)
Definition no_numpy (self : EOS.t) (a_alphas da_alpha_dTs d2a_alpha_dT2s : list R) (T : R)
    (full quick : bool) : EOS.t * res a_alpha_result :=
  (self, Raise AttributeError).

End Cases.

(** * Properties *)

(** ** The error monad and the list primitives *)

Lemma bind_Ok {A B} (m : res A) (k : A -> res B) (b : B) :
  (m ≫= k) = Ok b <-> exists a, m = Ok a /\ k a = Ok b.
Proof.
  destruct m as [a|e]; simpl; split.
  - intros H. exists a. split; [reflexivity | exact H].
  - intros (a' & Ha & Hk). inversion Ha; subst. exact Hk.
  - intros H. discriminate H.
  - intros (a' & Ha & _). discriminate Ha.
Qed.

Lemma getitem_Ok {A} (l : list A) (i : nat) (x : A) :
  getitem l i = Ok x <-> l !! i = Some x.
Proof.
  unfold getitem. destruct (l !! i) as [y|]; split; intros H;
    try discriminate H; inversion H; subst; reflexivity.
Qed.

Lemma getitem_lt {A} (l : list A) (i : nat) :
  (i < length l)%nat -> exists x, getitem l i = Ok x /\ l !! i = Some x.
Proof.
  intros H. destruct (lookup_lt_is_Some_2 l i H) as [x Hx].
  exists x. split; [apply getitem_Ok|]; exact Hx.
Qed.

Lemma getitem_at1 (l : list R) (i : nat) (x : R) :
  getitem l i = Ok x -> at1 l i = x.
Proof. intros H. apply getitem_Ok in H. unfold at1. rewrite H. reflexivity. Qed.

Lemma setitem_Ok {A} (l : list A) (i : nat) (x : A) (l' : list A) :
  setitem l i x = Ok l' <-> (i < length l)%nat /\ l' = <[i:=x]> l.
Proof.
  unfold setitem. destruct (Nat.ltb_spec i (length l)) as [Hlt|Hge]; split.
  - intros H. inversion H. split; [exact Hlt | reflexivity].
  - intros [_ ->]. reflexivity.
  - intros H. discriminate H.
  - intros [Hlt _]. lia.
Qed.

Lemma for_each_app {S} (l1 l2 : list nat) (body : nat -> S -> res S) (s : S) :
  for_each (l1 ++ l2) body s = (for_each l1 body s ≫= for_each l2 body).
Proof.
  revert s. induction l1 as [|x l1 IH]; intros s; simpl.
  - reflexivity.
  - destruct (body x s) as [s'|e]; simpl; [apply IH | reflexivity].
Qed.

Lemma range_snoc (a b : nat) :
  (a <= b)%nat -> range a (S b) = range a b ++ [b].
Proof.
  intros H. unfold range. replace (S b - a)%nat with (S (b - a)) by lia.
  rewrite seq_S. replace (a + (b - a))%nat with b by lia. reflexivity.
Qed.

Lemma range_nil (a b : nat) : (b <= a)%nat -> range a b = [].
Proof. intros H. unfold range. replace (b - a)%nat with O by lia. reflexivity. Qed.

(** A loop over [range(a, b)] whose body keeps an invariant, when it returns. *)
Lemma for_each_range_partial {S} (P : nat -> S -> Prop) (body : nat -> S -> res S) (a b : nat) :
  (a <= b)%nat ->
  (forall k s s', (a <= k < b)%nat -> P k s -> body k s = Ok s' -> P (Datatypes.S k) s') ->
  forall s s', P a s -> for_each (range a b) body s = Ok s' -> P b s'.
Proof.
  intros Hab Hstep. induction b as [|b IH].
  - intros s s' HP H. assert (a = O) by lia. subst. unfold range in H. simpl in H.
    inversion H; subst. exact HP.
  - intros s s' HP H. destruct (decide (a = Datatypes.S b)) as [->|Hne].
    + rewrite range_nil in H by lia. simpl in H. inversion H; subst. exact HP.
    + rewrite range_snoc in H by lia. rewrite for_each_app in H.
      apply bind_Ok in H. destruct H as (s1 & H1 & H2).
      simpl in H2. destruct (body b s1) as [s2|e] eqn:Hb; [|discriminate H2].
      inversion H2; subst. apply (Hstep b s1); [lia | | exact Hb].
      apply (IH ltac:(lia)) with (s := s); [|exact HP|exact H1].
      intros k t t' Hk. apply Hstep. lia.
Qed.

(** A loop over [range(a, b)] whose body returns under the invariant returns. *)
Lemma for_each_range_total {S} (P : nat -> S -> Prop) (body : nat -> S -> res S) (a b : nat) :
  (a <= b)%nat ->
  (forall k s, (a <= k < b)%nat -> P k s -> exists s', body k s = Ok s' /\ P (Datatypes.S k) s') ->
  forall s, P a s -> exists s', for_each (range a b) body s = Ok s' /\ P b s'.
Proof.
  intros Hab Hstep. induction b as [|b IH]; intros s HP.
  - assert (a = O) by lia. subst. exists s. split; [reflexivity | exact HP].
  - destruct (decide (a = Datatypes.S b)) as [->|Hne].
    + rewrite range_nil by lia. exists s. split; [reflexivity | exact HP].
    + destruct (IH ltac:(lia)) with (s := s) as (s1 & H1 & HP1); [|exact HP|].
      { intros k t Hk. apply Hstep. lia. }
      destruct (Hstep b s1 ltac:(lia) HP1) as (s2 & H2 & HP2).
      exists s2. split; [|exact HP2].
      rewrite range_snoc by lia. rewrite for_each_app, H1. simpl.
      rewrite H2. reflexivity.
Qed.

(** ** Matrices *)

Lemma setitem2_Ok (m : matrix) (i j : nat) (x : R) (m' : matrix) :
  setitem2 m i j x = Ok m' <->
  exists row, m !! i = Some row /\ (j < length row)%nat /\ m' = <[i := <[j := x]> row]> m.
Proof.
  unfold setitem2. split.
  - intros H. apply bind_Ok in H. destruct H as (row & Hrow & H).
    apply bind_Ok in H. destruct H as (row' & Hrow' & H).
    apply getitem_Ok in Hrow. apply setitem_Ok in Hrow'. apply setitem_Ok in H.
    destruct Hrow' as [Hj ->]. destruct H as [_ ->].
    exists row. auto.
  - intros (row & Hrow & Hj & ->).
    assert (Hi : (i < length m)%nat) by (apply lookup_lt_is_Some_1; eauto).
    apply bind_Ok. exists row. split; [apply getitem_Ok; exact Hrow|].
    apply bind_Ok. exists (<[j:=x]> row). split.
    + apply setitem_Ok. auto.
    + apply setitem_Ok. auto.
Qed.

Lemma at2_update (m : matrix) (i j : nat) (x : R) (row : list R) (p q : nat) :
  m !! i = Some row -> (j < length row)%nat ->
  at2 (<[i := <[j := x]> row]> m) p q = if decide (p = i /\ q = j) then x else at2 m p q.
Proof.
  intros Hrow Hj.
  assert (Hi : (i < length m)%nat) by (apply lookup_lt_is_Some_1; eauto).
  unfold at2, at1. destruct (decide (p = i)) as [->|Hp].
  - rewrite list_lookup_insert_eq by exact Hi. simpl. rewrite Hrow. simpl.
    destruct (decide (q = j)) as [->|Hq].
    + rewrite list_lookup_insert_eq by exact Hj.
      destruct (decide (i = i /\ j = j)) as [_|Hn]; [reflexivity | exfalso; auto].
    + rewrite list_lookup_insert_ne by auto.
      destruct (decide (i = i /\ q = j)) as [[_ Hn]|_]; [contradiction | reflexivity].
  - rewrite list_lookup_insert_ne by auto.
    destruct (decide (p = i /\ q = j)) as [[Hn _]|_]; [contradiction | reflexivity].
Qed.

Lemma is_matrix_update (N : nat) (m : matrix) (i j : nat) (x : R) (row : list R) :
  is_matrix N m -> m !! i = Some row ->
  is_matrix N (<[i := <[j := x]> row]> m).
Proof.
  intros [Hlen Hrows] Hrow. split.
  - rewrite length_insert. exact Hlen.
  - intros p r Hp. destruct (decide (p = i)) as [->|Hne].
    + rewrite list_lookup_insert_eq in Hp by (apply lookup_lt_is_Some_1; eauto).
      inversion Hp; subst. rewrite length_insert. apply (Hrows i). exact Hrow.
    + rewrite list_lookup_insert_ne in Hp by auto. apply (Hrows p). exact Hp.
Qed.

Lemma is_matrix_row (N : nat) (m : matrix) (i : nat) :
  is_matrix N m -> (i < N)%nat -> exists row, m !! i = Some row /\ length row = N.
Proof.
  intros [Hlen Hrows] Hi.
  destruct (lookup_lt_is_Some_2 m i ltac:(lia)) as [row Hrow].
  exists row. split; [exact Hrow | apply (Hrows i); exact Hrow].
Qed.

(** Writing one entry of a well-shaped matrix. *)
Lemma setitem2_matrix (N : nat) (m : matrix) (i j : nat) (x : R) :
  is_matrix N m -> (i < N)%nat -> (j < N)%nat ->
  exists m', setitem2 m i j x = Ok m' /\ is_matrix N m' /\
    forall p q, at2 m' p q = if decide (p = i /\ q = j) then x else at2 m p q.
Proof.
  intros Hm Hi Hj. destruct (is_matrix_row N m i Hm Hi) as (row & Hrow & Hlen).
  exists (<[i := <[j := x]> row]> m). split; [|split].
  - apply setitem2_Ok. exists row. split; [exact Hrow|]. split; [lia | reflexivity].
  - apply is_matrix_update; assumption.
  - intros p q. apply at2_update; [exact Hrow | lia].
Qed.

Lemma setitem2_inv (N : nat) (m : matrix) (i j : nat) (x : R) (m' : matrix) :
  is_matrix N m -> setitem2 m i j x = Ok m' ->
  is_matrix N m' /\
  forall p q, at2 m' p q = if decide (p = i /\ q = j) then x else at2 m p q.
Proof.
  intros Hm H. apply setitem2_Ok in H. destruct H as (row & Hrow & Hj & ->). split.
  - apply is_matrix_update; assumption.
  - intros p q. apply at2_update; assumption.
Qed.

Lemma zeros2_is_matrix (N : nat) : is_matrix N (zeros2 N).
Proof.
  unfold zeros2, zeros. split.
  - apply length_replicate.
  - intros i row H. apply lookup_replicate in H. destruct H as [-> _].
    apply length_replicate.
Qed.

Lemma at2_zeros2 (N p q : nat) : at2 (zeros2 N) p q = 0.
Proof.
  unfold at2, at1, zeros2, zeros.
  destruct (replicate N (replicate N 0) !! p) as [row|] eqn:Hrow; simpl.
  - apply lookup_replicate in Hrow. destruct Hrow as [-> _].
    destruct (replicate N 0 !! q) as [x|] eqn:Hx; simpl; [|reflexivity].
    apply lookup_replicate in Hx. destruct Hx as [-> _]. reflexivity.
  - reflexivity.
Qed.

(** ** The pure-species roots *)

Lemma map_res_pow_half (a_alphas roots : list R) :
  map_res pow_half a_alphas = Ok roots ->
  length roots = length a_alphas /\
  forall i, at1 roots i = sqrt (at1 a_alphas i) /\
            ((i < length a_alphas)%nat -> 0 <= at1 a_alphas i).
Proof.
  revert roots. induction a_alphas as [|a l IH]; intros roots H; simpl in H.
  - inversion H; subst. split; [reflexivity|]. intros i. split.
    + unfold at1. simpl. rewrite sqrt_0. reflexivity.
    + simpl. lia.
  - apply bind_Ok in H. destruct H as (r & Hr & H).
    apply bind_Ok in H. destruct H as (rs & Hrs & H). inversion H; subst.
    destruct (IH rs Hrs) as [Hlen Hat]. split; [simpl; lia|].
    unfold pow_half in Hr. destruct (Rlt_dec a 0) as [Hneg|Hpos]; [discriminate Hr|].
    inversion Hr; subst. intros [|i].
    + unfold at1. simpl. split; [reflexivity | intros _; lra].
    + destruct (Hat i) as [H1 H2]. unfold at1 in *. simpl. split; [exact H1|].
      intros Hi. apply H2. lia.
Qed.

Lemma map_res_pow_half_total (a_alphas : list R) :
  (forall i, (i < length a_alphas)%nat -> 0 <= at1 a_alphas i) ->
  exists roots, map_res pow_half a_alphas = Ok roots.
Proof.
  induction a_alphas as [|a l IH]; intros Hpos; simpl.
  - exists []. reflexivity.
  - destruct IH as [rs Hrs].
    { intros i Hi. apply (Hpos (Datatypes.S i)). simpl. lia. }
    exists (sqrt a :: rs). cbn [map_res]. rewrite Hrs. unfold pow_half.
    destruct (Rlt_dec a 0) as [Hneg|_].
    + specialize (Hpos O ltac:(simpl; lia)). unfold at1 in Hpos. simpl in Hpos. lra.
    + reflexivity.
Qed.

(** ** The composition-independent matrices *)

Section CompositionIndependent.

Import MixingRule MixingRuleSpec.

Variable recip : R -> res R.
Variable rval : R -> R.
Hypothesis recip_value : forall t r, recip t = Ok r -> r = rval t.

Variable N : nat.
Variable a_alphas : list R.
Variable kijs : matrix.
Variable roots : list R.
Hypothesis roots_sqrt : forall p, at1 roots p = sqrt (at1 a_alphas p).

Lemma written_true (i j p q : nat) :
  written i j p q = true <-> (p < i)%nat \/ (p = i /\ (q < j)%nat).
Proof.
  unfold written. rewrite orb_true_iff, andb_true_iff.
  rewrite !Nat.ltb_lt, Nat.eqb_eq. tauto.
Qed.

Lemma written_false (i j p q : nat) :
  written i j p q = false <-> ~ ((p < i)%nat \/ (p = i /\ (q < j)%nat)).
Proof.
  rewrite <- written_true. destruct (written i j p q); split; intros H.
  - discriminate H.
  - exfalso. apply H. reflexivity.
  - intros H'. discriminate H'.
  - reflexivity.
Qed.

Lemma pair_body_step (kijs_i : list R) (root_i : R) (i j : nat) (s s' : matrix * matrix) :
  kijs !! i = Some kijs_i -> getitem roots i = Ok root_i ->
  (i <= j)%nat ->
  filled N rval a_alphas kijs i j s ->
  pair_body recip kijs_i roots root_i i j s = Ok s' ->
  filled N rval a_alphas kijs i (S j) s'.
Proof.
  intros Hk Hri Hij (Hm1 & Hm2 & Hijs & Hinv) H.
  destruct s as [ijs inv]. unfold pair_body in H. simpl in Hm1, Hm2, Hijs, Hinv.
  apply bind_Ok in H. destruct H as (root_j & Hrj & H).
  apply bind_Ok in H. destruct H as (r & Hr & H).
  apply bind_Ok in H. destruct H as (inv' & Hinv' & H).
  apply bind_Ok in H. destruct H as (kij & Hkij & H).
  apply bind_Ok in H. destruct H as (ijs1 & Hijs1 & H).
  apply bind_Ok in H. destruct H as (ijs2 & Hijs2 & H).
  inversion H; subst s'; clear H.
  apply getitem_at1 in Hri, Hrj, Hkij. rewrite roots_sqrt in Hri, Hrj.
  apply recip_value in Hr.
  destruct (setitem2_inv N _ _ _ _ _ Hm2 Hinv') as [Hm2' Hat_inv].
  destruct (setitem2_inv N _ _ _ _ _ Hm1 Hijs1) as [Hm1' Hat1].
  destruct (setitem2_inv N _ _ _ _ _ Hm1' Hijs2) as [Hm1'' Hat2].
  assert (Hkij' : at2 kijs i j = kij).
  { unfold at2. rewrite Hk. simpl. exact Hkij. }
  split; [exact Hm1''|]. split; [exact Hm2'|]. simpl. split.
  - intros p q Hp Hq. rewrite Hat2, Hat1, (Hijs p q Hp Hq).
    destruct (decide (p = j /\ q = i)) as [[-> ->]|Hn1].
    + replace (written i (S j) (Nat.min j i) (Nat.max j i)) with true
        by (symmetry; apply written_true; lia).
      unfold ijs_entry, root_product.
      replace (Nat.min j i) with i by lia. replace (Nat.max j i) with j by lia.
      rewrite Hkij', <- Hri, <- Hrj. reflexivity.
    + destruct (decide (p = i /\ q = j)) as [[-> ->]|Hn2].
      * replace (written i (S j) (Nat.min i j) (Nat.max i j)) with true
          by (symmetry; apply written_true; lia).
        unfold ijs_entry, root_product.
        replace (Nat.min i j) with i by lia. replace (Nat.max i j) with j by lia.
        rewrite Hkij', <- Hri, <- Hrj. reflexivity.
      * replace (written i (S j) (Nat.min p q) (Nat.max p q))
          with (written i j (Nat.min p q) (Nat.max p q)); [reflexivity|].
        destruct (written i j (Nat.min p q) (Nat.max p q)) eqn:Hw; symmetry.
        -- apply written_true. apply written_true in Hw. lia.
        -- apply written_false. apply written_false in Hw. lia.
  - intros p q Hp Hq. rewrite Hat_inv, (Hinv p q Hp Hq).
    destruct (decide (p = i /\ q = j)) as [[-> ->]|Hn].
    + replace (written i (S j) i j) with true by (symmetry; apply written_true; lia).
      unfold inv_entry, root_product.
      replace (i <=? j)%nat with true by (symmetry; apply Nat.leb_le; lia).
      rewrite Hr, <- Hri, <- Hrj. reflexivity.
    + replace (written i (S j) p q) with (written i j p q); [reflexivity|].
      destruct (written i j p q) eqn:Hw; symmetry.
      * apply written_true. apply written_true in Hw. lia.
      * apply written_false. apply written_false in Hw. lia.
Qed.

Lemma row_body_step (i : nat) (s s' : matrix * matrix) :
  (i < N)%nat ->
  filled N rval a_alphas kijs i i s ->
  row_body recip N a_alphas kijs roots i s = Ok s' ->
  filled N rval a_alphas kijs (S i) (S i) s'.
Proof.
  intros Hi Hs H. unfold row_body in H.
  apply bind_Ok in H. destruct H as (kijs_i & Hk & H).
  apply bind_Ok in H. destruct H as (a_i & _ & H).
  apply bind_Ok in H. destruct H as (row1 & _ & H).
  apply bind_Ok in H. destruct H as (row2 & _ & H).
  apply bind_Ok in H. destruct H as (root_i & Hri & H).
  apply getitem_Ok in Hk.
  assert (Hend : filled N rval a_alphas kijs i N s').
  { eapply (for_each_range_partial (fun j t => filled N rval a_alphas kijs i j t))
      with (s := s); [|  |exact Hs|exact H]; [lia|].
    intros j t t' Hj Ht Hbody.
    apply (pair_body_step kijs_i root_i i j t t'); auto. lia. }
  destruct Hend as (Hm1 & Hm2 & Hijs & Hinv).
  split; [exact Hm1|]. split; [exact Hm2|]. split.
  - intros p q Hp Hq. rewrite (Hijs p q Hp Hq).
    replace (written (S i) (S i) (Nat.min p q) (Nat.max p q))
      with (written i N (Nat.min p q) (Nat.max p q)); [reflexivity|].
    destruct (written i N (Nat.min p q) (Nat.max p q)) eqn:Hw; symmetry.
    + apply written_true. apply written_true in Hw. lia.
    + apply written_false. apply written_false in Hw. lia.
  - intros p q Hp Hq. rewrite (Hinv p q Hp Hq).
    destruct (written i N p q) eqn:Hw; destruct (written (S i) (S i) p q) eqn:Hw';
      try reflexivity.
    + apply written_true in Hw. apply written_false in Hw'. lia.
    + apply written_false in Hw. apply written_true in Hw'.
      unfold inv_entry. replace (p <=? q)%nat with false; [reflexivity|].
      symmetry. apply Nat.leb_gt. lia.
Qed.

Lemma filled_start :
  filled N rval a_alphas kijs 0 0 (zeros2 N, zeros2 N).
Proof.
  split; [apply zeros2_is_matrix|]. split; [apply zeros2_is_matrix|]. simpl.
  split; intros p q _ _; rewrite at2_zeros2.
  - replace (written 0 0 (Nat.min p q) (Nat.max p q)) with false; [reflexivity|].
    symmetry. apply written_false. lia.
  - replace (written 0 0 p q) with false; [reflexivity|].
    symmetry. apply written_false. lia.
Qed.

Lemma rows_filled (s' : matrix * matrix) :
  for_each (range 0 N) (row_body recip N a_alphas kijs roots) (zeros2 N, zeros2 N) = Ok s' ->
  filled N rval a_alphas kijs N N s'.
Proof.
  intros H.
  eapply (for_each_range_partial (fun i t => filled N rval a_alphas kijs i i t))
    with (s := (zeros2 N, zeros2 N)); [| |apply filled_start|exact H]; [lia|].
  intros i t t' Hi Ht Hbody. apply (row_body_step i t t'); auto. lia.
Qed.

(** *** The loops return when every lookup and reciprocal does *)

Hypothesis roots_length : length roots = N.
Hypothesis kijs_shape : is_matrix N kijs.
Hypothesis recip_total :
  forall p q, (p <= q < N)%nat -> exists r, recip (root_product a_alphas p q) = Ok r.

Lemma pair_body_total (kijs_i : list R) (root_i : R) (i j : nat) (s : matrix * matrix) :
  kijs !! i = Some kijs_i -> getitem roots i = Ok root_i ->
  (i <= j < N)%nat -> shaped N s ->
  exists s', pair_body recip kijs_i roots root_i i j s = Ok s' /\ shaped N s'.
Proof.
  intros Hk Hri Hij [Hm1 Hm2]. destruct s as [ijs inv]. simpl in Hm1, Hm2.
  unfold pair_body.
  destruct (getitem_lt roots j ltac:(lia)) as (root_j & Hrj & _).
  rewrite Hrj. simpl.
  destruct (recip_total i j Hij) as [r Hr].
  unfold root_product in Hr. rewrite <- !roots_sqrt in Hr.
  rewrite (getitem_at1 _ _ _ Hri), (getitem_at1 _ _ _ Hrj) in Hr.
  rewrite Hr. simpl.
  destruct (setitem2_matrix N inv i j r Hm2 ltac:(lia) ltac:(lia)) as (inv' & Hinv' & Hm2' & _).
  rewrite Hinv'. simpl.
  assert (Hlen : length kijs_i = N) by (destruct kijs_shape as [_ Hrows]; eapply Hrows; eauto).
  destruct (getitem_lt kijs_i j ltac:(lia)) as (kij & Hkij & _).
  rewrite Hkij. simpl.
  destruct (setitem2_matrix N ijs i j ((1 - kij) * (root_i * root_j)) Hm1
              ltac:(lia) ltac:(lia)) as (ijs1 & Hijs1 & Hm1' & _).
  rewrite Hijs1. simpl.
  destruct (setitem2_matrix N ijs1 j i ((1 - kij) * (root_i * root_j)) Hm1'
              ltac:(lia) ltac:(lia)) as (ijs2 & Hijs2 & Hm1'' & _).
  rewrite Hijs2. simpl.
  exists (ijs2, inv'). split; [reflexivity|]. split; assumption.
Qed.

Hypothesis a_alphas_length : length a_alphas = N.

Lemma row_body_total (i : nat) (s : matrix * matrix) :
  (i < N)%nat -> shaped N s ->
  exists s', row_body recip N a_alphas kijs roots i s = Ok s' /\ shaped N s'.
Proof.
  intros Hi Hs. unfold row_body.
  destruct (is_matrix_row N kijs i kijs_shape Hi) as (kijs_i & Hk & _).
  rewrite (proj2 (getitem_Ok kijs i kijs_i) Hk). simpl.
  destruct (getitem_lt a_alphas i ltac:(lia)) as (a_i & Ha & _). rewrite Ha. simpl.
  destruct Hs as [Hm1 Hm2].
  destruct (is_matrix_row N _ i Hm1 Hi) as (row1 & Hrow1 & _).
  rewrite (proj2 (getitem_Ok _ i row1) Hrow1). simpl.
  destruct (is_matrix_row N _ i Hm2 Hi) as (row2 & Hrow2 & _).
  rewrite (proj2 (getitem_Ok _ i row2) Hrow2). simpl.
  destruct (getitem_lt roots i ltac:(lia)) as (root_i & Hri & _). rewrite Hri. simpl.
  apply (for_each_range_total (fun _ t => shaped N t) _ i N ltac:(lia)).
  - intros j t Hj Ht. apply (pair_body_total kijs_i root_i i j t); auto.
  - split; assumption.
Qed.

Lemma rows_total :
  exists s', for_each (range 0 N) (row_body recip N a_alphas kijs roots)
               (zeros2 N, zeros2 N) = Ok s'.
Proof.
  destruct (for_each_range_total (fun _ t => shaped N t)
              (row_body recip N a_alphas kijs roots) 0 N ltac:(lia)) with
      (s := (zeros2 N, zeros2 N)) as (s' & Hs' & _).
  - intros i t Hi Ht. apply row_body_total; [lia | exact Ht].
  - split; apply zeros2_is_matrix.
  - exists s'. exact Hs'.
Qed.

End CompositionIndependent.

(** ** Finite sums *)

Lemma sum_from_ext (a n : nat) (f g : nat -> R) :
  (forall k, (a <= k < a + n)%nat -> f k = g k) -> sum_from a n f = sum_from a n g.
Proof.
  induction n as [|n IH]; intros H; simpl.
  - reflexivity.
  - rewrite IH, (H (a + n)%nat) by (try (intros k Hk; apply H); lia). reflexivity.
Qed.

Lemma sum_from_plus (a n : nat) (f g : nat -> R) :
  sum_from a n (fun k => f k + g k) = sum_from a n f + sum_from a n g.
Proof. induction n as [|n IH]; simpl; [|rewrite IH]; lra. Qed.

(** The sum over the upper triangle, taken twice, plus the diagonal: the
    order in which [a_alpha_and_derivatives] adds the terms. *)
Lemma triangle_sum (f : nat -> nat -> R) (n : nat) :
  (forall i j, (i < n)%nat -> (j < n)%nat -> f i j = f j i) ->
  sum_from 0 n (fun i => sum_from (i + 1) (n - (i + 1)) (fun j => f i j + f i j) + f i i)
  = sum_from 0 n (fun i => sum_from 0 n (fun j => f i j)).
Proof.
  induction n as [|n IH]; intros Hsym.
  - reflexivity.
  - cbn [sum_from]. replace (S n - (0 + n + 1))%nat with O by lia. cbn [sum_from].
    rewrite (sum_from_ext 0 n
      (fun i => sum_from (i + 1) (S n - (i + 1)) (fun j => f i j + f i j) + f i i)
      (fun i => (sum_from (i + 1) (n - (i + 1)) (fun j => f i j + f i j) + f i i)
                + (f i n + f i n))).
    2:{ intros i Hi. replace (S n - (i + 1))%nat with (S (n - (i + 1))) by lia.
        cbn [sum_from]. replace (i + 1 + (n - (i + 1)))%nat with n by lia. lra. }
    rewrite sum_from_plus, IH by (intros i j Hi Hj; apply Hsym; lia).
    change (0 + n)%nat with n.
    rewrite (sum_from_plus 0 n (fun i => sum_from 0 n (fun j => f i j)) (fun i => f i n)).
    rewrite (sum_from_plus 0 n (fun k => f k n) (fun k => f k n)).
    rewrite (sum_from_ext 0 n (fun j => f n j) (fun i => f i n))
      by (intros i Hi; apply Hsym; lia).
    lra.
Qed.

(** ** The accumulation loops of [a_alpha_and_derivatives] *)

Section Accumulate.

Import MixingRule MixingRuleSpec.

Variable N : nat.
Variable a_alpha_ijs : matrix.
Variable zs : list R.

(** A loop that adds [g j] to its accumulator at each [j]. *)
Lemma adding_loop (body : nat -> R -> res R) (g : nat -> R) (a b : nat) (acc acc' : R) :
  (forall j x x', (a <= j < b)%nat -> body j x = Ok x' -> x' = x + g j) ->
  for_each (range a b) body acc = Ok acc' ->
  acc' = acc + sum_from a (b - a) g.
Proof.
  intros Hbody H. destruct (decide (a <= b)%nat) as [Hab|Hab].
  - eapply (for_each_range_partial (fun j x => x = acc + sum_from a (j - a) g))
      with (s := acc); [exact Hab| | |exact H].
    + intros j x x' Hj -> Hx. rewrite (Hbody j _ x' Hj Hx).
      replace (S j - a)%nat with (S (j - a)) by lia. cbn [sum_from].
      replace (a + (j - a))%nat with j by lia. lra.
    + replace (a - a)%nat with O by lia. simpl. lra.
  - rewrite range_nil in H by lia. simpl in H. injection H as <-.
    replace (b - a)%nat with O by lia. simpl. lra.
Qed.

Lemma sum_body_partial (i : nat) (acc acc' : R) :
  sum_body N a_alpha_ijs zs i acc = Ok acc' ->
  acc' = acc + (sum_from (i + 1) (N - (i + 1))
                  (fun j => weighted a_alpha_ijs zs i j + weighted a_alpha_ijs zs i j)
                + weighted a_alpha_ijs zs i i).
Proof.
  intros H. unfold sum_body in H.
  apply bind_Ok in H. destruct H as (row & Hrow & H).
  apply bind_Ok in H. destruct H as (zi & Hzi & H).
  apply bind_Ok in H. destruct H as (acc1 & Hloop & H).
  apply bind_Ok in H. destruct H as (aii & Haii & H).
  injection H as <-.
  apply getitem_Ok in Hrow. apply getitem_at1 in Hzi, Haii.
  assert (Hat : forall j, at2 a_alpha_ijs i j = at1 row j).
  { intros j. unfold at2. rewrite Hrow. reflexivity. }
  apply (adding_loop _ (fun j => weighted a_alpha_ijs zs i j + weighted a_alpha_ijs zs i j))
    in Hloop.
  - rewrite Hloop. unfold weighted. rewrite (Hat i), Hzi, Haii. lra.
  - intros j x x' _ Hx. unfold upper_body in Hx.
    apply bind_Ok in Hx. destruct Hx as (aij & Haij & Hx).
    apply bind_Ok in Hx. destruct Hx as (zj & Hzj & Hx).
    injection Hx as <-. apply getitem_at1 in Haij, Hzj.
    unfold weighted. rewrite Hat, Hzi, Haij, Hzj. reflexivity.
Qed.

Lemma accumulate_partial (a_alpha : R) :
  for_each (range 0 N) (sum_body N a_alpha_ijs zs) 0 = Ok a_alpha ->
  a_alpha = sum_from 0 N (fun i =>
    sum_from (i + 1) (N - (i + 1))
      (fun j => weighted a_alpha_ijs zs i j + weighted a_alpha_ijs zs i j)
    + weighted a_alpha_ijs zs i i).
Proof.
  intros H. apply (adding_loop _ (fun i =>
    sum_from (i + 1) (N - (i + 1))
      (fun j => weighted a_alpha_ijs zs i j + weighted a_alpha_ijs zs i j)
    + weighted a_alpha_ijs zs i i)) in H.
  - rewrite H. replace (N - 0)%nat with N by lia. lra.
  - intros i x x' _ Hx. apply sum_body_partial. exact Hx.
Qed.

Hypothesis ijs_shape : is_matrix N a_alpha_ijs.
Hypothesis zs_length : length zs = N.

Lemma accumulate_total :
  exists a_alpha, for_each (range 0 N) (sum_body N a_alpha_ijs zs) 0 = Ok a_alpha.
Proof.
  destruct (for_each_range_total (fun _ (_ : R) => True)
              (sum_body N a_alpha_ijs zs) 0 N ltac:(lia)) with (s := 0)
    as (a & Ha & _); [|exact I|exists a; exact Ha].
  intros i acc Hi _. unfold sum_body.
  destruct (is_matrix_row N a_alpha_ijs i ijs_shape ltac:(lia)) as (row & Hrow & Hlen).
  rewrite (proj2 (getitem_Ok _ i row) Hrow). simpl.
  destruct (getitem_lt zs i ltac:(lia)) as (zi & Hzi & _). rewrite Hzi. simpl.
  destruct (for_each_range_total (fun _ (_ : R) => True)
              (upper_body row zs zi) (i + 1) N ltac:(lia)) with (s := acc)
    as (acc1 & Hacc1 & _); [|exact I|].
  { intros j x Hj _. unfold upper_body.
    destruct (getitem_lt row j ltac:(lia)) as (aij & Haij & _). rewrite Haij. simpl.
    destruct (getitem_lt zs j ltac:(lia)) as (zj & Hzj & _). rewrite Hzj. simpl.
    eexists. split; [reflexivity | exact I]. }
  rewrite Hacc1. simpl.
  destruct (getitem_lt row i ltac:(lia)) as (aii & Haii & _). rewrite Haii. simpl.
  eexists. split; [reflexivity | exact I].
Qed.

End Accumulate.

(** ** The two variants of the composition-independent matrices *)

Section Variants.

Import MixingRule MixingRuleSpec.

Lemma Forall_at1 (P : R -> Prop) (l : list R) (i : nat) :
  Forall P l -> (i < length l)%nat -> P (at1 l i).
Proof.
  intros HP Hi. destruct (lookup_lt_is_Some_2 l i Hi) as [x Hx].
  unfold at1. rewrite Hx. simpl. eapply Forall_lookup_1; eauto.
Qed.

Lemma composition_independent_partial (recip : R -> res R) (rval : R -> R)
    (a_alphas : list R) (kijs ijs : matrix) (roots : list R) (inv : matrix) :
  (forall t r, recip t = Ok r -> r = rval t) ->
  composition_independent recip a_alphas kijs = Ok (ijs, roots, inv) ->
  let N := length a_alphas in
  is_matrix N ijs /\ is_matrix N inv /\ length roots = N /\
  (forall p, at1 roots p = sqrt (at1 a_alphas p)) /\
  (forall p, (p < N)%nat -> 0 <= at1 a_alphas p) /\
  (forall p q, (p < N)%nat -> (q < N)%nat -> at2 ijs p q = ijs_entry a_alphas kijs p q) /\
  (forall p q, (p < N)%nat -> (q < N)%nat -> at2 inv p q = inv_entry rval a_alphas p q).
Proof.
  intros Hrecip H N. unfold composition_independent in H.
  apply bind_Ok in H. destruct H as (roots' & Hroots & H).
  apply bind_Ok in H. destruct H as ([ijs' inv'] & Hloop & H).
  injection H as <- <- <-.
  destruct (map_res_pow_half _ _ Hroots) as [Hlen Hat].
  apply (rows_filled recip rval Hrecip N a_alphas kijs roots' (fun p => proj1 (Hat p)))
    in Hloop.
  destruct Hloop as (Hm1 & Hm2 & Hijs & Hinv). simpl in Hm1, Hm2, Hijs, Hinv.
  split; [exact Hm1|]. split; [exact Hm2|]. split; [exact Hlen|].
  split; [intros p; apply Hat|]. split; [intros p; apply Hat|]. split.
  - intros p q Hp Hq. rewrite (Hijs p q Hp Hq).
    replace (written N N (Nat.min p q) (Nat.max p q)) with true; [reflexivity|].
    symmetry. apply written_true. lia.
  - intros p q Hp Hq. rewrite (Hinv p q Hp Hq).
    replace (written N N p q) with true; [reflexivity|].
    symmetry. apply written_true. lia.
Qed.

Lemma composition_independent_total (recip : R -> res R) (a_alphas : list R) (kijs : matrix) :
  let N := length a_alphas in
  Forall (fun a => 0 <= a) a_alphas ->
  is_matrix N kijs ->
  (forall p q, (p <= q < N)%nat -> exists r, recip (root_product a_alphas p q) = Ok r) ->
  exists out, composition_independent recip a_alphas kijs = Ok out.
Proof.
  intros N Hpos Hk Hrecip. unfold composition_independent.
  destruct (map_res_pow_half_total a_alphas) as [roots Hroots].
  { intros i Hi. apply (Forall_at1 (fun a => 0 <= a)); assumption. }
  rewrite Hroots. simpl.
  destruct (map_res_pow_half _ _ Hroots) as [Hlen Hat].
  destruct (rows_total recip N a_alphas kijs roots (fun p => proj1 (Hat p))
              Hlen Hk Hrecip eq_refl) as [[ijs inv] Hloop].
  fold N. rewrite Hloop. simpl. eexists. reflexivity.
Qed.

Lemma reciprocal_value_spec (t r : R) :
  reciprocal t = Ok r -> r = reciprocal_value t.
Proof.
  unfold reciprocal, fdiv, reciprocal_value.
  destruct (Req_dec_T t 0); intros H; [discriminate H | injection H as <-; reflexivity].
Qed.


Lemma root_product_pos (a_alphas : list R) (p q : nat) :
  Forall (fun a => 0 < a) a_alphas -> (p < length a_alphas)%nat -> (q < length a_alphas)%nat ->
  root_product a_alphas p q <> 0.
Proof.
  intros Hpos Hp Hq. unfold root_product.
  pose proof (Forall_at1 _ _ p Hpos Hp) as H1. pose proof (Forall_at1 _ _ q Hpos Hq) as H2.
  simpl in H1, H2. apply sqrt_lt_R0 in H1, H2. nra.
Qed.

(** On a symmetric [kijs] the entries follow the combining rule of the
    specification. *)
Lemma ijs_entry_spec (a_alphas : list R) (kijs : matrix) (N p q : nat) :
  symmetric N kijs -> (p < N)%nat -> (q < N)%nat ->
  0 <= at1 a_alphas p -> 0 <= at1 a_alphas q ->
  ijs_entry a_alphas kijs p q = a_alpha_ij a_alphas kijs p q.
Proof.
  intros Hsym Hp Hq Hap Haq. unfold ijs_entry, a_alpha_ij, root_product.
  rewrite (sqrt_mult_alt _ _ Hap).
  destruct (Nat.le_ge_cases p q) as [Hle|Hle].
  - rewrite Nat.min_l, Nat.max_r by exact Hle. reflexivity.
  - rewrite Nat.min_r, Nat.max_l by exact Hle.
    rewrite (Hsym q p Hq Hp). ring.
Qed.

Lemma ijs_entry_sym (a_alphas : list R) (kijs : matrix) (p q : nat) :
  ijs_entry a_alphas kijs p q = ijs_entry a_alphas kijs q p.
Proof. unfold ijs_entry. rewrite (Nat.min_comm p q), (Nat.max_comm p q). reflexivity. Qed.

End Variants.

(** ** The mixture attraction parameter *)

Section MixtureAttraction.

Import MixingRule MixingRuleSpec.

Lemma a_alpha_and_derivatives_partial (a_alphas : list R) (T : R) (zs : list R)
    (kijs : matrix) (a_alpha : R) (o : option R) (ijs : matrix) :
  symmetric (length a_alphas) kijs ->
  a_alpha_and_derivatives a_alphas T zs kijs None None None = Ok (a_alpha, o, ijs) ->
  a_alpha = a_alpha_double_sum zs a_alphas kijs /\
  is_matrix (length a_alphas) ijs /\
  forall p q, (p < length a_alphas)%nat -> (q < length a_alphas)%nat ->
    at2 ijs p q = a_alpha_ij a_alphas kijs p q.
Proof.
  intros Hsym H. unfold a_alpha_and_derivatives in H.
  apply bind_Ok in H. destruct H as ([[ijs' roots] inv] & Hci & H).
  apply bind_Ok in H. destruct H as (a & Hacc & H).
  injection H as <- <- <-.
  apply (composition_independent_partial _ reciprocal_value) in Hci;
    [|exact reciprocal_value_spec].
  destruct Hci as (Hm & _ & _ & _ & Hpos & Hijs & _).
  assert (Hentry : forall p q, (p < length a_alphas)%nat -> (q < length a_alphas)%nat ->
                     at2 ijs' p q = a_alpha_ij a_alphas kijs p q).
  { intros p q Hp Hq. rewrite (Hijs p q Hp Hq).
    apply (ijs_entry_spec _ _ (length a_alphas)); auto. }
  split; [|split; [exact Hm | exact Hentry]].
  apply accumulate_partial in Hacc. rewrite Hacc.
  rewrite (triangle_sum (weighted ijs' zs)).
  - unfold a_alpha_double_sum. apply sum_from_ext. intros i Hi.
    apply sum_from_ext. intros j Hj. unfold weighted.
    rewrite Hentry by lia. ring.
  - intros i j Hi Hj. unfold weighted.
    rewrite (Hijs i j Hi Hj), (Hijs j i Hj Hi), ijs_entry_sym. ring.
Qed.

Lemma a_alpha_and_derivatives_total (a_alphas : list R) (T : R) (zs : list R) (kijs : matrix) :
  length zs = length a_alphas ->
  is_matrix (length a_alphas) kijs ->
  Forall (fun a => 0 < a) a_alphas ->
  exists out, a_alpha_and_derivatives a_alphas T zs kijs None None None = Ok out.
Proof.
  intros Hzs Hk Hpos. unfold a_alpha_and_derivatives.
  destruct (composition_independent_total reciprocal a_alphas kijs) as [[[ijs roots] inv] Hci].
  - eapply Forall_impl; [exact Hpos|]. intros a Ha. simpl in Ha. lra.
  - exact Hk.
  - intros p q Hpq. unfold reciprocal, fdiv.
    destruct (Req_dec_T (root_product a_alphas p q) 0) as [Hz|_]; [|eexists; reflexivity].
    exfalso. apply (root_product_pos a_alphas p q Hpos); try lia. exact Hz.
  - unfold a_alpha_aijs_composition_independent. rewrite Hci. simpl.
    apply (composition_independent_partial _ reciprocal_value) in Hci;
      [|exact reciprocal_value_spec].
    destruct Hci as (Hm & _).
    destruct (accumulate_total (length a_alphas) ijs zs Hm Hzs) as [a Ha].
    rewrite Ha. simpl. eexists. reflexivity.
Qed.

(** C1. For a composition [zs] of length N, pure-species attraction values
    [a_alphas] and a symmetric N x N interaction matrix [kijs] with zero
    diagonal, the [a_alpha] that [a_alpha_and_derivatives] computes is the
    double sum over all i, j of zs[i]*zs[j]*(1-kijs[i][j])*sqrt(a_alphas[i]*a_alphas[j]):
    every result it returns has that value, and it returns one whenever the
    attraction values are positive. *)
Theorem a_alpha_is_double_sum (a_alphas : list R) (T : R) (zs : list R) (kijs : matrix) :
  length zs = length a_alphas ->
  is_matrix (length a_alphas) kijs ->
  symmetric (length a_alphas) kijs ->
  zero_diagonal (length a_alphas) kijs ->
  (forall a_alpha o ijs,
      a_alpha_and_derivatives a_alphas T zs kijs None None None = Ok (a_alpha, o, ijs) ->
      a_alpha = a_alpha_double_sum zs a_alphas kijs) /\
  (Forall (fun a => 0 < a) a_alphas ->
   exists ijs,
     a_alpha_and_derivatives a_alphas T zs kijs None None None
     = Ok (a_alpha_double_sum zs a_alphas kijs, None, ijs)).
Proof.
  intros Hzs Hk Hsym _. split.
  - intros a_alpha o ijs H.
    apply (a_alpha_and_derivatives_partial _ _ _ _ _ _ _ Hsym H).
  - intros Hpos.
    destruct (a_alpha_and_derivatives_total a_alphas T zs kijs Hzs Hk Hpos)
      as [[[a o] ijs] H].
    destruct (a_alpha_and_derivatives_partial _ _ _ _ _ _ _ Hsym H) as [-> _].
    exists ijs. rewrite H. f_equal. f_equal.
    unfold a_alpha_and_derivatives in H.
    apply bind_Ok in H. destruct H as (c & _ & H).
    destruct c as [[c1 c2] c3].
    apply bind_Ok in H. destruct H as (x & _ & H).
    injection H as _ <- _. reflexivity.
Qed.

End MixtureAttraction.


Lemma a_alpha_is_double_sum_witness :
  exists ijs,
    MixingRule.a_alpha_and_derivatives [1; 4] 300 [1/2; 1/2]
      [[0; 1/10]; [1/10; 0]] None None None
    = Ok (MixingRuleSpec.a_alpha_double_sum [1/2; 1/2] [1; 4] [[0; 1/10]; [1/10; 0]],
          None, ijs).
Proof.
  apply (a_alpha_is_double_sum [1; 4] 300 [1/2; 1/2] [[0; 1/10]; [1/10; 0]]).
  - reflexivity.
  - split; [reflexivity|]. intros i row H.
    destruct i as [|[|i]]; simpl in H; inversion H; reflexivity.
  - intros i j Hi Hj. simpl in Hi, Hj.
    destruct i as [|[|i]]; destruct j as [|[|j]]; try lia; reflexivity.
  - intros i Hi. simpl in Hi. destruct i as [|[|i]]; try lia; reflexivity.
  - repeat constructor; lra.
Defined.

(** ** Evaluating the model on concrete floats *)

Ltac decide_reals :=
  match goal with
  | |- context [Req_dec_T ?x ?y] =>
      first [ destruct (Req_dec_T x y); [|exfalso; lra]
            | destruct (Req_dec_T x y); [exfalso; lra|] ]
  | |- context [Rlt_dec ?x ?y] =>
      first [ destruct (Rlt_dec x y); [|exfalso; lra]
            | destruct (Rlt_dec x y); [exfalso; lra|] ]
  | |- context [Rcase_abs ?x] =>
      first [ destruct (Rcase_abs x); [|exfalso; lra]
            | destruct (Rcase_abs x); [exfalso; lra|] ]
  end.

Create HintDb py_model.

#[local] Hint Unfold fdiv log pow_half Rltb Reqb : py_model.
#[local] Hint Unfold MixingRule.reciprocal MixingRule.reciprocal_support_zeros
  MixingRule.composition_independent MixingRule.a_alpha_aijs_composition_independent
  MixingRule.a_alpha_aijs_composition_independent_support_zeros
  MixingRule.a_alpha_and_derivatives MixingRule.a_alpha_and_derivatives_full
  MixingRule.z_products_of MixingRule.derivative_loops : py_model.
#[local] Hint Unfold GCEOSMIX.to_TP_zs_fast GCEOSMIX.fast_copy GCEOSMIX.to_TP_zs
  GCEOSMIX.pairwise_quantities GCEOSMIX.cached_pairwise GCEOSMIX.recomputed_pairwise
  GCEOSMIX.finish_value GCEOSMIX.store_tensors GCEOSMIX.a_alpha_and_derivatives_py
  GCEOSMIX.renormalize_if_negative GCEOSMIX.comp_difference GCEOSMIX.py_sum
  GCEOSMIX.initial_split GCEOSMIX.trial_lnphis GCEOSMIX.ss_step GCEOSMIX.ss_update
  GCEOSMIX.trivial_guard
  GCEOSMIX.sequential_substitution_VL
  GCEOSMIX.classify GCEOSMIX.stable_of GCEOSMIX.lnK_2_tot GCEOSMIX.trial_step
  GCEOSMIX.stabiliy_iteration_Michelsen GCEOSMIX.stability_Michelsen
  GCEOSMIX.phase_phi GCEOSMIX.log_or_tiny GCEOSMIX.fugacity_coefficients : py_model.
#[local] Hint Unfold PRMIX.log_Z_minus_B PRMIX.A_log_ratio PRMIX._fugacity_sum_terms
  PRMIX.fugacity_coefficients : py_model.
#[local] Hint Unfold Scenario.init Scenario.fast_init Scenario.solve Scenario.lnphis
  Scenario.rachford_rice Scenario.wilson Scenario.lowest_Gibbs Scenario.dlnphi_dns
  Scenario.dns_to_dn_partials : py_model.

Ltac py_eval :=
  repeat first
    [ progress cbn -[Rplus Rmult Rminus Rdiv Rinv Ropp IZR Z.pow_pos sqrt ln exp Rabs
                     MixingRule.sentinel]
    | progress autounfold with py_model
    | progress rewrite ?sqrt_0, ?sqrt_1, ?ln_1, ?exp_0, ?Rminus_0_r
    | progress rewrite ?exp_ln by lra
    | decide_reals
    | progress unfold Rabs ].

(** Equality of evaluated results, down to the floats in them. *)
Ltac reals_eq :=
  try reflexivity;
  lazymatch goal with
  | |- @eq R _ _ => first [lra | field; lra | field]
  | |- _ => progress f_equal; reals_eq
  end.

(** ** A single component *)

Section SingleComponent.

Import MixingRule MixingRuleSpec.



End SingleComponent.

(** ** The divide-safe variant *)

Section SupportZeros.

Import MixingRule MixingRuleSpec.












End SupportZeros.

(** ** Comparisons of floats *)

Lemma Reqb_true (x y : R) : Reqb x y = true <-> x = y.
Proof.
  unfold Reqb. destruct (Req_dec_T x y) as [H|H]; split; intros H'; auto;
    try discriminate; try contradiction.
Qed.

Lemma Reqb_refl (x : R) : Reqb x x = true.
Proof. apply Reqb_true. reflexivity. Qed.

Lemma Rltb_true (x y : R) : Rltb x y = true <-> x < y.
Proof.
  unfold Rltb. destruct (Rlt_dec x y) as [H|H]; split; intros H'; auto;
    try discriminate; try contradiction.
Qed.

Lemma Rltb_false (x y : R) : Rltb x y = false <-> ~ x < y.
Proof.
  unfold Rltb. destruct (Rlt_dec x y) as [H|H]; split; intros H'; auto;
    try discriminate; try contradiction.
Qed.

Lemma list_Reqb_true (l1 l2 : list R) : GCEOSMIX.list_Reqb l1 l2 = true <-> l1 = l2.
Proof.
  revert l2. induction l1 as [|x l1 IH]; intros [|y l2]; simpl; split; intros H;
    try reflexivity; try discriminate.
  - apply andb_true_iff in H. destruct H as [Hx Hl].
    apply Reqb_true in Hx. apply IH in Hl. subst. reflexivity.
  - injection H as -> ->. apply andb_true_iff. split; [apply Reqb_refl | apply IH; reflexivity].
Qed.

(** ** Moving an instance to a new temperature, pressure and composition *)

Section ToTPzs.

Import GCEOSMIX.

Variable class_init : init_args -> res EOS.t.

Lemma specs_differ (obj : EOS.t) (T P : R) (zs : list R) :
  negb (Reqb T (EOS.T obj)) || negb (Reqb P (EOS.P obj)) || negb (list_Reqb zs (EOS.zs obj))
  = false <-> same_specs obj T P zs.
Proof.
  unfold same_specs. rewrite !orb_false_iff, !negb_false_iff.
  rewrite !Reqb_true, list_Reqb_true. tauto.
Qed.

(** C10. With [T], [P] and [zs] all equal to the instance's own,
    [to_TP_zs] returns the very same object, the store is untouched and the
    class constructor is not called; when at least one of them differs, and
    only then, the constructor is called once with the new specification and
    the instance's own constants, and what it builds is a new object of the
    store. *)
Theorem to_TP_zs_same_object (st : store) (self : nat) (obj : EOS.t)
    (T P : R) (zs : list R) (fugacities only_l only_g : bool) :
  objects st !! self = Some obj ->
  (same_specs obj T P zs ->
   to_TP_zs class_init st self T P zs fugacities only_l only_g = (st, Ok self)) /\
  (~ same_specs obj T P zs ->
   let args := {| init_T := T; init_P := P; init_zs := zs;
                  init_Tcs := EOS.Tcs obj; init_Pcs := EOS.Pcs obj;
                  init_omegas := EOS.omegas obj;
                  init_only_l := only_l; init_only_g := only_g;
                  init_fugacities := fugacities; init_kwargs := EOS.kwargs obj |} in
   let out := to_TP_zs class_init st self T P zs fugacities only_l only_g in
   constructions (fst out) = S (constructions st) /\
   match class_init args with
   | Ok new =>
       snd out = Ok (length (objects st)) /\ length (objects st) <> self /\
       objects (fst out) = objects st ++ [new] /\
       objects (fst out) !! self = Some obj
   | Raise e => snd out = Raise e /\ objects (fst out) = objects st
   end) /\
  (constructions (fst (to_TP_zs class_init st self T P zs fugacities only_l only_g))
   = constructions st <-> same_specs obj T P zs).
Proof.
  intros Hobj.
  assert (Hself : (self < length (objects st))%nat) by (apply lookup_lt_is_Some_1; eauto).
  unfold to_TP_zs. rewrite Hobj.
  destruct (negb (Reqb T (EOS.T obj)) || negb (Reqb P (EOS.P obj))
            || negb (list_Reqb zs (EOS.zs obj))) eqn:Hd.
  - assert (Hn : ~ same_specs obj T P zs).
    { intros Hs. apply specs_differ in Hs. rewrite Hs in Hd. discriminate Hd. }
    split; [intros Hs; contradiction|]. split.
    + intros _. cbv zeta.
      destruct (class_init _) as [new|e]; simpl.
      * split; [reflexivity|]. split; [reflexivity|]. split; [lia|]. split; [reflexivity|].
        rewrite lookup_app_l by exact Hself. exact Hobj.
      * auto.
    + destruct (class_init _) as [new|e]; simpl; split; intros H; try lia; contradiction.
  - apply specs_differ in Hd. split; [intros _; reflexivity|]. split.
    + intros Hn. contradiction.
    + simpl. split; intros _; [exact Hd | reflexivity].
Qed.

End ToTPzs.

(** ** The Michelsen stability test *)

Section StabilityFacts.

Import GCEOSMIX.

Lemma stable_of_spec (pf_g pf_l triv_g triv_l sum_g sum_l : bool) :
  stable_of pf_g pf_l triv_g triv_l sum_g sum_l
  = (pf_g && pf_l) || ((triv_g || sum_g) && (triv_l || sum_l)).
Proof.
  destruct pf_g, pf_l, triv_g, triv_l, sum_g, sum_l; reflexivity.
Qed.

Lemma classify_Ok (Ks : list R) (tc sc zs_sum_g : R) (Ks_g : list R) (pf_g : bool)
    (zs_sum_l : R) (Ks_l : list R) (pf_l : bool) (out : bool * list R * (list R * list R)) :
  classify Ks tc sc zs_sum_g Ks_g pf_g zs_sum_l Ks_l pf_l = Ok out ->
  exists log_Ks_g log_Ks_l,
    map_res log Ks_g = Ok log_Ks_g /\ map_res log Ks_l = Ok log_Ks_l /\
    let stable :=
      stable_of pf_g pf_l (Rltb (lnK_2_tot log_Ks_g) tc) (Rltb (lnK_2_tot log_Ks_l) tc)
        (Rltb (zs_sum_g - 1) sc) (Rltb (zs_sum_l - 1) sc) in
    out = (stable, if stable then Ks else zip_with Rmult Ks_g Ks_l, (Ks_g, Ks_l)).
Proof.
  intros H. unfold classify in H.
  apply bind_Ok in H. destruct H as (lg & Hlg & H).
  apply bind_Ok in H. destruct H as (ll & Hll & H).
  injection H as <-. exists lg, ll. auto.
Qed.

Variable Wilson_K_value : R -> R -> R -> R -> R -> res R.
Variable _fast_init_specific : EOS.t -> EOS.t -> res EOS.t.
Variable solve : EOS.t -> bool -> bool -> bool -> bool -> res EOS.t.
Variable eos_fugacities_lowest_Gibbs : EOS.t -> res (list R * phase).

(** C3, as the code has it. [stability_Michelsen] answers stable exactly
    when both one-sided trials end in a phase of the reference's type (the
    "phase failure" of both), or each trial is trivial or within the
    stability threshold of the reference; whenever it answers unstable, the
    K-values it returns are the element-wise product of the two trial sets. *)
Theorem stability_Michelsen_classification (self : EOS.t) (T P : R) (zs : list R)
    (Ks_initial : option (list R)) (maxiter : nat) (xtol trivial_criteria stable_criteria : R)
    (stable : bool) (Ks' Ks_g Ks_l : list R) :
  stability_Michelsen Wilson_K_value _fast_init_specific solve eos_fugacities_lowest_Gibbs
    self T P zs Ks_initial maxiter xtol trivial_criteria stable_criteria
  = Ok (stable, Ks', (Ks_g, Ks_l)) ->
  exists Ks zs_sum_g phase_failure_g zs_sum_l phase_failure_l log_Ks_g log_Ks_l,
    stabiliy_iteration_Michelsen Wilson_K_value _fast_init_specific solve
      eos_fugacities_lowest_Gibbs self T P zs (Some Ks) maxiter xtol false
    = Ok (zs_sum_g, Ks_g, phase_failure_g) /\
    stabiliy_iteration_Michelsen Wilson_K_value _fast_init_specific solve
      eos_fugacities_lowest_Gibbs self T P zs (Some Ks) maxiter xtol true
    = Ok (zs_sum_l, Ks_l, phase_failure_l) /\
    map_res log Ks_g = Ok log_Ks_g /\ map_res log Ks_l = Ok log_Ks_l /\
    (stable = true <->
       (phase_failure_g = true /\ phase_failure_l = true) \/
       ((lnK_2_tot log_Ks_g < trivial_criteria \/ zs_sum_g - 1 < stable_criteria) /\
        (lnK_2_tot log_Ks_l < trivial_criteria \/ zs_sum_l - 1 < stable_criteria))) /\
    (stable = false -> Ks' = zip_with Rmult Ks_g Ks_l) /\
    (stable = true -> Ks' = Ks).
Proof.
  intros H. unfold stability_Michelsen in H.
  apply bind_Ok in H. destruct H as (Ks & _ & H).
  apply bind_Ok in H. destruct H as ([[zg Kg] pfg] & Hg & H).
  apply bind_Ok in H. destruct H as ([[zl Kl] pfl] & Hl & H).
  apply classify_Ok in H. destruct H as (lg & ll & Hlg & Hll & H).
  cbv zeta in H. injection H as Hstable HKs <- <-.
  exists Ks, zg, pfg, zl, pfl, lg, ll.
  split; [exact Hg|]. split; [exact Hl|]. split; [exact Hlg|]. split; [exact Hll|].
  rewrite stable_of_spec in Hstable. split; [|split].
  - rewrite Hstable. rewrite orb_true_iff, !andb_true_iff, !orb_true_iff, !Rltb_true.
    tauto.
  - intros ->. rewrite HKs, stable_of_spec, <- Hstable. reflexivity.
  - intros ->. rewrite HKs, stable_of_spec, <- Hstable. reflexivity.
Qed.

End StabilityFacts.

Section StabilityRuns.

Import GCEOSMIX.

(** A pass of the one-sided iteration that meets the tolerance ends it. *)
Lemma trial_loop_break (fi : EOS.t -> EOS.t -> res EOS.t)
    (so : EOS.t -> bool -> bool -> bool -> bool -> res EOS.t)
    (lg : EOS.t -> res (list R * phase)) (self : EOS.t) (T P : R) (zs : list R) (liq : bool)
    (xtol : R) (f_ref : list R) (ref_phase : phase) (maxiter r i : nat) (st : trial_state)
    (Ks : list R) (sum_zs_test : R) (ph : phase) (err : R) :
  trial_step fi so lg self T P zs liq f_ref (fst st) = Ok (Ks, sum_zs_test, ph, err) ->
  err < xtol ->
  trial_loop fi so lg self T P zs liq xtol f_ref ref_phase maxiter (S r) i st
  = Ok (Ks, Some (sum_zs_test, ph)).
Proof.
  intros Hstep Herr. cbn [trial_loop]. rewrite Hstep. cbn [mbind res_bind bind].
  rewrite (proj2 (Rltb_true err xtol) Herr). reflexivity.
Qed.

(** The last pass, when it misses the tolerance in the phase of the
    reference, ends the iteration without an error. *)
Lemma trial_loop_last_same_phase (fi : EOS.t -> EOS.t -> res EOS.t)
    (so : EOS.t -> bool -> bool -> bool -> bool -> res EOS.t)
    (lg : EOS.t -> res (list R * phase)) (self : EOS.t) (T P : R) (zs : list R) (liq : bool)
    (xtol : R) (f_ref : list R) (ref_phase : phase) (maxiter : nat) (st : trial_state)
    (Ks : list R) (sum_zs_test : R) (err : R) :
  trial_step fi so lg self T P zs liq f_ref (fst st) = Ok (Ks, sum_zs_test, ref_phase, err) ->
  ~ err < xtol ->
  trial_loop fi so lg self T P zs liq xtol f_ref ref_phase (S maxiter) 1 maxiter st
  = Ok (Ks, Some (sum_zs_test, ref_phase)).
Proof.
  intros Hstep Herr. cbn [trial_loop]. rewrite Hstep. cbn [mbind res_bind bind].
  rewrite (proj2 (Rltb_false err xtol) Herr).
  replace (maxiter =? S maxiter - 1)%nat with true by (symmetry; apply Nat.eqb_eq; lia).
  destruct ref_phase; reflexivity.
Qed.

Lemma trial_step_unit (liq : bool) :
  trial_step Scenario.fast_init Scenario.solve Scenario.lowest_Gibbs
    Scenario.base 115 1e6 [1/2; 1/2] liq [1; 1] [1; 1]
  = Ok ([1; 1], 1, phase_l, 0).
Proof.
  destruct liq; py_eval; repeat f_equal; field.
Qed.

Lemma iteration_unit (liq : bool) :
  stabiliy_iteration_Michelsen Scenario.wilson Scenario.fast_init Scenario.solve
    Scenario.lowest_Gibbs Scenario.base 115 1e6 [1/2; 1/2] (Some [1; 1]) 20 1e-12 liq
  = Ok (1, [1; 1], true).
Proof.
  unfold stabiliy_iteration_Michelsen.
  change (Scenario.lowest_Gibbs Scenario.base) with (@Ok (list R * phase) ([1; 1], phase_l)).
  cbn [mbind res_bind bind].
  erewrite trial_loop_break with (st := ([1; 1], None));
    [ | apply trial_step_unit | lra].
  reflexivity.
Qed.

Lemma stability_Michelsen_classification_witness :
  exists Ks zs_sum_g phase_failure_g zs_sum_l phase_failure_l log_Ks_g log_Ks_l,
    stabiliy_iteration_Michelsen Scenario.wilson Scenario.fast_init Scenario.solve
      Scenario.lowest_Gibbs Scenario.base 115 1e6 [1/2; 1/2] (Some Ks) 20 1e-12 false
    = Ok (zs_sum_g, [1; 1], phase_failure_g) /\
    stabiliy_iteration_Michelsen Scenario.wilson Scenario.fast_init Scenario.solve
      Scenario.lowest_Gibbs Scenario.base 115 1e6 [1/2; 1/2] (Some Ks) 20 1e-12 true
    = Ok (zs_sum_l, [1; 1], phase_failure_l) /\
    map_res log [1; 1] = Ok log_Ks_g /\ map_res log [1; 1] = Ok log_Ks_l /\
    (true = true <->
       (phase_failure_g = true /\ phase_failure_l = true) \/
       ((lnK_2_tot log_Ks_g < 1e-4 \/ zs_sum_g - 1 < 1e-7) /\
        (lnK_2_tot log_Ks_l < 1e-4 \/ zs_sum_l - 1 < 1e-7))) /\
    (true = false -> [1; 1] = zip_with Rmult [1; 1] [1; 1]) /\
    (true = true -> [1; 1] = Ks).
Proof.
  apply (stability_Michelsen_classification Scenario.wilson Scenario.fast_init
           Scenario.solve Scenario.lowest_Gibbs Scenario.base 115 1e6 [1/2; 1/2]
           (Some [1; 1]) 20 1e-12 1e-4 1e-7).
  unfold stability_Michelsen. cbn [mbind res_bind bind].
  rewrite !iteration_unit. cbn [mbind res_bind bind].
  py_eval. reflexivity.
Defined.

Lemma trial_step_split_g :
  trial_step Scenario.fast_init Scenario.solve Scenario.lowest_Gibbs
    Scenario.base 115 1e6 [1/2; 1/2] false [1; 1] [4; 1]
  = Ok ([8/5; 2/5], 5/2, phase_l, 18/25).
Proof. py_eval; repeat f_equal; field. Qed.

Lemma trial_step_split_l :
  trial_step Scenario.fast_init Scenario.solve Scenario.lowest_Gibbs
    Scenario.base 115 1e6 [1/2; 1/2] true [1; 1] [4; 1]
  = Ok ([5/2; 5/8], 5/8, phase_l, 9/32).
Proof. py_eval; repeat f_equal; field. Qed.

Lemma ln_le_minus_1 (y : R) : 0 < y -> ln y <= y - 1.
Proof.
  intros Hy. pose proof (exp_ineq1_le (ln y)) as H. rewrite exp_ln in H by exact Hy. lra.
Qed.

(** C3, as it is worded, fails when both trials end in the phase of the
    reference: with one pass allowed and the initial K-values [4, 1], the
    vapor-like trial is neither trivial nor within the stability threshold,
    and the mixture is still reported stable. *)
Lemma stability_phase_failure_counterexample :
  stability_Michelsen Scenario.wilson Scenario.fast_init Scenario.solve
    Scenario.lowest_Gibbs Scenario.base 115 1e6 [1/2; 1/2] (Some [4; 1]) 1 1e-12 1e-4 1e-7
  = Ok (true, [4; 1], ([8/5; 2/5], [5/2; 5/8])) /\
  stabiliy_iteration_Michelsen Scenario.wilson Scenario.fast_init Scenario.solve
    Scenario.lowest_Gibbs Scenario.base 115 1e6 [1/2; 1/2] (Some [4; 1]) 1 1e-12 false
  = Ok (5/2, [8/5; 2/5], true) /\
  map_res log [8/5; 2/5] = Ok [ln (8/5); ln (2/5)] /\
  ~ (lnK_2_tot [ln (8/5); ln (2/5)] < 1e-4 \/ 5/2 - 1 < 1e-7).
Proof.
  assert (Hg : stabiliy_iteration_Michelsen Scenario.wilson Scenario.fast_init
                 Scenario.solve Scenario.lowest_Gibbs Scenario.base 115 1e6 [1/2; 1/2]
                 (Some [4; 1]) 1 1e-12 false = Ok (5/2, [8/5; 2/5], true)).
  { unfold stabiliy_iteration_Michelsen.
    change (Scenario.lowest_Gibbs Scenario.base) with (@Ok (list R * phase) ([1; 1], phase_l)).
    cbn [mbind res_bind bind].
    erewrite trial_loop_last_same_phase with (st := ([4; 1], None));
      [ | apply trial_step_split_g | lra].
    reflexivity. }
  assert (Hl : stabiliy_iteration_Michelsen Scenario.wilson Scenario.fast_init
                 Scenario.solve Scenario.lowest_Gibbs Scenario.base 115 1e6 [1/2; 1/2]
                 (Some [4; 1]) 1 1e-12 true = Ok (5/8, [5/2; 5/8], true)).
  { unfold stabiliy_iteration_Michelsen.
    change (Scenario.lowest_Gibbs Scenario.base) with (@Ok (list R * phase) ([1; 1], phase_l)).
    cbn [mbind res_bind bind].
    erewrite trial_loop_last_same_phase with (st := ([4; 1], None));
      [ | apply trial_step_split_l | lra].
    reflexivity. }
  split; [|split; [exact Hg|split]].
  - unfold stability_Michelsen. cbn [mbind res_bind bind]. rewrite Hg, Hl.
    cbn [mbind res_bind bind]. py_eval. reflexivity.
  - py_eval. reflexivity.
  - intros [H|H]; [|lra].
    unfold lnK_2_tot, py_sum in H. simpl in H.
    pose proof (ln_le_minus_1 (2/5) ltac:(lra)) as Hb. nra.
Qed.

End StabilityRuns.

Section ToTPzsRuns.

Import GCEOSMIX.

Lemma to_TP_zs_same_object_witness :
  to_TP_zs Scenario.init {| objects := [Scenario.base]; constructions := 0 |} 0
    115 1e6 [1/2; 1/2] true false false
  = ({| objects := [Scenario.base]; constructions := 0 |}, Ok 0%nat) /\
  constructions
    (fst (to_TP_zs Scenario.init {| objects := [Scenario.base]; constructions := 0 |} 0
            120 1e6 [1/2; 1/2] true false false)) = 1%nat.
Proof.
  split.
  - apply (to_TP_zs_same_object Scenario.init
             {| objects := [Scenario.base]; constructions := 0 |} 0 Scenario.base
             115 1e6 [1/2; 1/2] true false false eq_refl).
    repeat split.
  - apply (to_TP_zs_same_object Scenario.init
             {| objects := [Scenario.base]; constructions := 0 |} 0 Scenario.base
             120 1e6 [1/2; 1/2] true false false eq_refl).
    intros (HT & _). simpl in HT. lra.
Defined.

End ToTPzsRuns.

(** ** The successive-substitution flash *)

Section FlashFacts.

Import GCEOSMIX.

Lemma py_sum_shift (l : list R) (a : R) : fold_left Rplus l a = a + py_sum l.
Proof.
  unfold py_sum. revert a. induction l as [|x l IH]; intros a; simpl.
  - lra.
  - rewrite (IH (a + x)), (IH (0 + x)). lra.
Qed.

Lemma py_sum_cons (x : R) (l : list R) : py_sum (x :: l) = x + py_sum l.
Proof. unfold py_sum at 1. simpl. rewrite py_sum_shift. lra. Qed.

Lemma py_sum_abs_nonneg (l : list R) : 0 <= py_sum (map Rabs l).
Proof.
  induction l as [|x l IH]; simpl.
  - unfold py_sum. simpl. lra.
  - rewrite py_sum_cons. pose proof (Rabs_pos x). lra.
Qed.

Lemma py_sum_abs_pos (l : list R) :
  Exists (fun x => x < 0) l -> 0 < py_sum (map Rabs l).
Proof.
  induction 1 as [x l Hx|x l _ IH]; simpl; rewrite py_sum_cons.
  - pose proof (py_sum_abs_nonneg l). rewrite Rabs_left by exact Hx. lra.
  - pose proof (Rabs_pos x). lra.
Qed.

Lemma py_sum_scaled (f : R -> R) (s : R) (l : list R) :
  py_sum (map (fun x => f x / s) l) = py_sum (map f l) / s.
Proof.
  induction l as [|x l IH]; simpl.
  - unfold py_sum. simpl. lra.
  - rewrite !py_sum_cons, IH. lra.
Qed.

Lemma existsb_negative (l : list R) :
  existsb (fun xi => Rltb xi 0) l = true <-> Exists (fun x => x < 0) l.
Proof.
  rewrite existsb_exists, Exists_exists. split; intros (x & Hin & Hx); exists x.
  - split; [apply list_elem_of_In; exact Hin | apply Rltb_true; exact Hx].
  - split; [apply list_elem_of_In; exact Hin | apply Rltb_true; exact Hx].
Qed.

Lemma map_res_fdiv (f : R -> R) (s : R) (l : list R) :
  s <> 0 -> map_res (fun i => fdiv (f i) s) l = Ok (map (fun i => f i / s) l).
Proof.
  intros Hs. induction l as [|x l IH]; [reflexivity|].
  cbn [map_res map]. rewrite IH. unfold fdiv.
  destruct (Req_dec_T s 0) as [Hz|_]; [contradiction | reflexivity].
Qed.

(** The guard never raises: it returns the renormalized absolute values when
    an entry is negative and the vector itself otherwise. *)
Lemma renormalize_if_negative_value (l : list R) :
  renormalize_if_negative l
  = Ok (if existsb (fun xi => Rltb xi 0) l then renormalized l else l).
Proof.
  unfold renormalize_if_negative.
  destruct (existsb (fun xi => Rltb xi 0) l) eqn:Hneg; [|reflexivity].
  apply existsb_negative in Hneg. apply py_sum_abs_pos in Hneg.
  unfold renormalized. apply map_res_fdiv. lra.
Qed.

Lemma renormalized_sums_to_1 (l : list R) :
  Exists (fun x => x < 0) l -> py_sum (renormalized l) = 1.
Proof.
  intros Hneg. apply py_sum_abs_pos in Hneg. unfold renormalized.
  rewrite (py_sum_scaled Rabs). field. lra.
Qed.

Lemma guarded_value (l l' : list R) :
  renormalize_if_negative l = Ok l' ->
  (Exists (fun x => x < 0) l -> l' = renormalized l /\ py_sum l' = 1) /\
  (~ Exists (fun x => x < 0) l -> l' = l).
Proof.
  rewrite renormalize_if_negative_value. intros H. injection H as <-.
  destruct (existsb (fun xi => Rltb xi 0) l) eqn:Hneg; split; intros H.
  - split; [reflexivity | apply renormalized_sums_to_1; exact H].
  - exfalso. apply H. apply existsb_negative. exact Hneg.
  - apply existsb_negative in H. rewrite H in Hneg. discriminate Hneg.
  - reflexivity.
Qed.

Variable Wilson_K_value : R -> R -> R -> R -> R -> res R.
Variable flash_inner_loop : list R -> list R -> option R -> res (R * list R * list R).
Variable _fast_init_specific : EOS.t -> EOS.t -> res EOS.t.
Variable solve : EOS.t -> bool -> bool -> bool -> bool -> res EOS.t.
Variable fugacity_coefficients : EOS.t -> R -> list R -> res (list R).

#[local] Abbreviation update :=
  (ss_update flash_inner_loop _fast_init_specific solve fugacity_coefficients).
#[local] Abbreviation step :=
  (ss_step flash_inner_loop _fast_init_specific solve fugacity_coefficients).
#[local] Abbreviation loop :=
  (ss_loop flash_inner_loop _fast_init_specific solve fugacity_coefficients).
#[local] Abbreviation flash :=
  (sequential_substitution_VL Wilson_K_value flash_inner_loop _fast_init_specific solve
     fugacity_coefficients).

(** What a pass that went through has computed. *)
Lemma ss_update_Ok (self : EOS.t) (nc fa : bool) (i : nat) (st st' : ss_state) (err3 : R) :
  update self nc fa i st = Ok (st', err3) ->
  exists Ks V xs_new ys_new eos_l eos_g,
    flash_inner_loop (EOS.zs self) Ks (V_over_F st) = Ok (V, xs_new, ys_new) /\
    renormalize_if_negative xs_new = Ok (xs st') /\
    renormalize_if_negative ys_new = Ok (ys st') /\
    err3_loop Ks (xs st) (ys st) 0 = Ok err3 /\
    V_over_F st' = Some V /\
    last st' = Some (i, err3, eos_l, eos_g).
Proof.
  intros H. unfold ss_update in H.
  apply bind_Ok in H. destruct H as (eos_g & _ & H).
  apply bind_Ok in H. destruct H as (eos_l & _ & H).
  apply bind_Ok in H. destruct H as (lnphis_g & _ & H).
  apply bind_Ok in H. destruct H as (lnphis_l & _ & H).
  apply bind_Ok in H. destruct H as ([[V xs_new] ys_new] & Hrr & H).
  apply bind_Ok in H. destruct H as (xs' & Hxs & H).
  apply bind_Ok in H. destruct H as (ys' & Hys & H).
  apply bind_Ok in H. destruct H as (e & He & H).
  injection H as <- <-. simpl.
  eexists _, V, xs_new, ys_new, eos_l, eos_g. repeat split; eassumption.
Qed.

Lemma ss_step_Ok (self : EOS.t) (nc fa : bool) (tol : R) (i : nat) (st st' : ss_state)
    (err3 : R) :
  step self nc fa tol i st = Ok (st', err3) ->
  update self nc fa i st = Ok (st', err3) /\
  (nc = true -> ~ comp_difference (xs st') (ys st') < tol).
Proof.
  intros H. unfold ss_step in H.
  apply bind_Ok in H. destruct H as ([st1 e1] & Hup & H).
  apply bind_Ok in H. destruct H as ([] & Hguard & H).
  injection H as <- <-. split; [exact Hup|].
  intros ->. unfold trivial_guard in Hguard.
  destruct (Rltb (comp_difference (xs st1) (ys st1)) tol) eqn:Hlt; [discriminate Hguard|].
  apply Rltb_false. exact Hlt.
Qed.

(** C7. In a pass of the loop the two compositions kept for the next pass
    are what the Rachford-Rice update produced, put through the guard: a
    phase with a negative mole fraction is replaced, whole, by the absolute
    values of its entries over their sum, which sums to 1; a phase without
    one is kept; and the guard itself never raises. *)
Theorem degeneracy_guard (self : EOS.t) (nc fa : bool) (tol : R) (i : nat)
    (st st' : ss_state) (err3 : R) :
  step self nc fa tol i st = Ok (st', err3) ->
  exists Ks V xs_new ys_new,
    flash_inner_loop (EOS.zs self) Ks (V_over_F st) = Ok (V, xs_new, ys_new) /\
    renormalize_if_negative xs_new = Ok (xs st') /\
    renormalize_if_negative ys_new = Ok (ys st') /\
    (Exists (fun x => x < 0) xs_new -> xs st' = renormalized xs_new /\ py_sum (xs st') = 1) /\
    (~ Exists (fun x => x < 0) xs_new -> xs st' = xs_new) /\
    (Exists (fun y => y < 0) ys_new -> ys st' = renormalized ys_new /\ py_sum (ys st') = 1) /\
    (~ Exists (fun y => y < 0) ys_new -> ys st' = ys_new) /\
    (forall l, exists l', renormalize_if_negative l = Ok l').
Proof.
  intros H. apply ss_step_Ok in H. destruct H as [H _].
  apply ss_update_Ok in H.
  destruct H as (Ks & V & xs_new & ys_new & _ & _ & Hrr & Hxs & Hys & _).
  exists Ks, V, xs_new, ys_new.
  destruct (guarded_value _ _ Hxs) as [Hx1 Hx2].
  destruct (guarded_value _ _ Hys) as [Hy1 Hy2].
  repeat split; try assumption; try (apply Hx1; assumption); try (apply Hy1; assumption);
    try (apply Hx2; assumption); try (apply Hy2; assumption).
  intros l. eexists. apply renormalize_if_negative_value.
Qed.


(** A loop that returns has stopped on a pass that met the tolerance. *)
Lemma ss_loop_Ok (self : EOS.t) (nc fa : bool) (tol xtol : R) (maxiter r i : nat)
    (st st' : ss_state) :
  (i + r = maxiter)%nat ->
  loop self nc fa tol xtol maxiter r i st = Ok st' ->
  (r = O /\ st' = st) \/
  exists j st0 err3,
    (i <= j < maxiter)%nat /\ step self nc fa tol j st0 = Ok (st', err3) /\ err3 < xtol.
Proof.
  revert i st. induction r as [|r IH]; intros i st Hsync H.
  - left. simpl in H. injection H as <-. auto.
  - right. cbn [ss_loop] in H.
    apply bind_Ok in H. destruct H as ([st1 e] & Hstep & H).
    destruct (Rltb e xtol) eqn:He.
    + injection H as <-. exists i, st, e. split; [lia|]. split; [exact Hstep|].
      apply Rltb_true. exact He.
    + destruct (i =? maxiter - 1)%nat eqn:Hi; [discriminate H|].
      apply Nat.eqb_neq in Hi.
      destruct (IH (S i) st1 ltac:(lia) H) as [[Hr _]|(j & st0 & e' & Hj & Hs & He')].
      * lia.
      * exists j, st0, e'. split; [lia|]. auto.
Qed.

Lemma flash_Ok (self : EOS.t) (Ks_initial : option (list R)) (maxiter : nat) (xtol : R)
    (nc : bool) (Ks_extra : option (list (list R))) (xs0 ys0 : option (list R)) (tol : R)
    (info fa : bool) (V : option R) (xs1 ys1 : list R) (eos_l eos_g : EOS.t)
    (inf : option (nat * R)) :
  flash self Ks_initial maxiter xtol nc Ks_extra xs0 ys0 tol info fa
  = Ok (V, xs1, ys1, eos_l, eos_g, inf) ->
  exists i st0 st' err3,
    (i < maxiter)%nat /\ step self nc fa tol i st0 = Ok (st', err3) /\ err3 < xtol /\
    V = V_over_F st' /\ xs1 = xs st' /\ ys1 = ys st' /\
    last st' = Some (i, err3, eos_l, eos_g) /\
    inf = (if info then Some (i, err3) else None).
Proof.
  intros H. unfold sequential_substitution_VL in H.
  apply bind_Ok in H. destruct H as ([[V0 x0] y0] & _ & H).
  apply bind_Ok in H. destruct H as (st' & Hloop & H).
  apply ss_loop_Ok in Hloop; [|lia].
  destruct Hloop as [[_ ->]|(j & st0 & e & Hj & Hstep & He)].
  - simpl in H. discriminate H.
  - pose proof (ss_step_Ok _ _ _ _ _ _ _ _ Hstep) as [Hup _].
    apply ss_update_Ok in Hup.
    destruct Hup as (Ks & V1 & xn & yn & l & g & _ & _ & _ & _ & _ & Hlast).
    rewrite Hlast in H. injection H as <- <- <- <- <- <-.
    exists j, st0, st', e. repeat split; try assumption; try lia; reflexivity.
Qed.


(** C4, as the code has it. With [near_critical] set (the default), a pass
    whose new compositions differ by less than the trivial-solution tolerance
    in the sum of |x_i - y_i| makes the call fail with the "trivial
    condition" error, and no call returns such compositions. *)
Theorem trivial_solution_guard (self : EOS.t) (Ks_initial : option (list R))
    (maxiter : nat) (xtol : R) (Ks_extra : option (list (list R)))
    (xs0 ys0 : option (list R)) (tol : R) (info fa : bool) :
  (forall r i st st' err3,
     update self true fa i st = Ok (st', err3) ->
     comp_difference (xs st') (ys st') < tol ->
     loop self true fa tol xtol maxiter (S r) i st = Raise (ValueError TrivialCondition)) /\
  (forall V xs1 ys1 eos_l eos_g inf,
     flash self Ks_initial maxiter xtol true Ks_extra xs0 ys0 tol info fa
     = Ok (V, xs1, ys1, eos_l, eos_g, inf) ->
     ~ comp_difference xs1 ys1 < tol).
Proof.
  split.
  - intros r i st st' e Hup Hdiff. cbn [ss_loop]. unfold ss_step. rewrite Hup.
    cbn [mbind res_bind bind]. unfold trivial_guard.
    rewrite (proj2 (Rltb_true _ _) Hdiff). reflexivity.
  - intros V xs1 ys1 eos_l eos_g inf H. apply flash_Ok in H.
    destruct H as (i & st0 & st' & e & _ & Hstep & _ & _ & -> & -> & _).
    apply ss_step_Ok in Hstep. destruct Hstep as [_ Hguard]. apply Hguard. reflexivity.
Qed.

End FlashFacts.

(** ** Runs of the flash on the two-component scenario *)

Section FlashRuns.

Import GCEOSMIX.

Lemma ss_loop_break (rr : list R -> list R -> option R -> res (R * list R * list R))
    (fi : EOS.t -> EOS.t -> res EOS.t) (so : EOS.t -> bool -> bool -> bool -> bool -> res EOS.t)
    (fc : EOS.t -> R -> list R -> res (list R)) (self : EOS.t) (nc fa : bool) (tol xtol : R)
    (maxiter r i : nat) (st st' : ss_state) (err3 : R) :
  ss_step rr fi so fc self nc fa tol i st = Ok (st', err3) ->
  err3 < xtol ->
  ss_loop rr fi so fc self nc fa tol xtol maxiter (S r) i st = Ok st'.
Proof.
  intros Hstep He. cbn [ss_loop]. rewrite Hstep. cbn [mbind res_bind bind].
  rewrite (proj2 (Rltb_true _ _) He). reflexivity.
Qed.

Lemma ss_loop_continue (rr : list R -> list R -> option R -> res (R * list R * list R))
    (fi : EOS.t -> EOS.t -> res EOS.t) (so : EOS.t -> bool -> bool -> bool -> bool -> res EOS.t)
    (fc : EOS.t -> R -> list R -> res (list R)) (self : EOS.t) (nc fa : bool) (tol xtol : R)
    (maxiter r i : nat) (st st' : ss_state) (err3 : R) :
  ss_step rr fi so fc self nc fa tol i st = Ok (st', err3) ->
  ~ err3 < xtol -> i <> (maxiter - 1)%nat ->
  ss_loop rr fi so fc self nc fa tol xtol maxiter (S r) i st
  = ss_loop rr fi so fc self nc fa tol xtol maxiter r (S i) st'.
Proof.
  intros Hstep He Hi. cbn [ss_loop]. rewrite Hstep. cbn [mbind res_bind bind].
  rewrite (proj2 (Rltb_false _ _) He).
  rewrite (proj2 (Nat.eqb_neq _ _) Hi). reflexivity.
Qed.

Lemma to_TP_zs_fast_base (comp : list R) (only_l only_g full_alphas : bool) :
  to_TP_zs_fast Scenario.fast_init Scenario.solve Scenario.base 115 1e6 comp
    only_l only_g full_alphas
  = Ok (Scenario.trial comp).
Proof. py_eval. reflexivity. Qed.




(** A pass on the same split with K = [2, 1/2], which misses the tolerance. *)
Lemma step_unconverged (i : nat) (v : option R) (l : option (nat * R * EOS.t * EOS.t)) :
  ss_step (Scenario.rachford_rice (1/2) [1/4; 3/4] [3/4; 1/4]) Scenario.fast_init
    Scenario.solve (Scenario.lnphis 2 (1/2)) Scenario.base true false 1e-5 i
    {| V_over_F := v; xs := [1/4; 3/4]; ys := [3/4; 1/4]; last := l |}
  = Ok ({| V_over_F := Some (1/2); xs := [1/4; 3/4]; ys := [3/4; 1/4];
           last := Some (i, 13/36, Scenario.trial [1/4; 3/4], Scenario.trial [3/4; 1/4]) |},
        13/36).
Proof.
  unfold ss_step, ss_update. rewrite !to_TP_zs_fast_base.
  py_eval; repeat f_equal; field.
Qed.

(** Three passes that never meet the tolerance end in the failure. *)
Lemma flash_exhausted :
  sequential_substitution_VL Scenario.wilson
    (Scenario.rachford_rice (1/2) [1/4; 3/4] [3/4; 1/4]) Scenario.fast_init
    Scenario.solve (Scenario.lnphis 2 (1/2)) Scenario.base None 3
    default_xtol true None (Some [1/4; 3/4]) (Some [3/4; 1/4]) 1e-5 true false
  = Raise (ValueError EndOfSS).
Proof.
  unfold sequential_substitution_VL, initial_split. cbn [mbind res_bind bind].
  erewrite ss_loop_continue;
    [ | apply step_unconverged | unfold default_xtol; lra | simpl; lia].
  erewrite ss_loop_continue;
    [ | apply step_unconverged | unfold default_xtol; lra | simpl; lia].
  cbn [ss_loop]. rewrite step_unconverged. cbn [mbind res_bind bind].
  rewrite (proj2 (Rltb_false _ _)) by (unfold default_xtol; lra).
  reflexivity.
Qed.

(** A call that is given no pass at all fails as well: the names of the
    result were never assigned. *)
Lemma flash_no_pass :
  sequential_substitution_VL Scenario.wilson
    (Scenario.rachford_rice (1/2) [1/4; 3/4] [3/4; 1/4]) Scenario.fast_init
    Scenario.solve (Scenario.lnphis 3 (1/3)) Scenario.base None 0
    default_xtol true None (Some [1/4; 3/4]) (Some [3/4; 1/4]) 1e-5 true false
  = Raise UnboundLocalError.
Proof. reflexivity. Qed.

(** The nearly equal split x = [1/2 - d, 1/2 + d], y = [1/2 + d, 1/2 - d],
    d = 1e-6, with K = y/x. *)
Lemma update_near_trivial (nc : bool) (i : nat) (v : option R)
    (l : option (nat * R * EOS.t * EOS.t)) :
  ss_update (Scenario.rachford_rice (1/2) [499999/1000000; 500001/1000000]
               [500001/1000000; 499999/1000000]) Scenario.fast_init
    Scenario.solve (Scenario.lnphis (500001/499999) (499999/500001)) Scenario.base nc false i
    {| V_over_F := v; xs := [499999/1000000; 500001/1000000];
       ys := [500001/1000000; 499999/1000000]; last := l |}
  = Ok ({| V_over_F := Some (1/2); xs := [499999/1000000; 500001/1000000];
           ys := [500001/1000000; 499999/1000000];
           last := Some (i, 0, Scenario.trial [499999/1000000; 500001/1000000],
                         Scenario.trial [500001/1000000; 499999/1000000]) |}, 0).
Proof.
  unfold ss_update. rewrite !to_TP_zs_fast_base.
  destruct nc; py_eval; repeat f_equal; field.
Qed.

Lemma near_trivial_difference :
  comp_difference [499999/1000000; 500001/1000000] [500001/1000000; 499999/1000000]
  = 4/1000000.
Proof. py_eval. field. Qed.

(** C4, as it is worded, fails when the caller clears [near_critical]: the
    guard is skipped, and the call returns two phases whose compositions
    differ by 4e-6 in all, below the tolerance 1e-5. *)
Lemma trivial_guard_off_counterexample :
  sequential_substitution_VL Scenario.wilson
    (Scenario.rachford_rice (1/2) [499999/1000000; 500001/1000000]
       [500001/1000000; 499999/1000000]) Scenario.fast_init
    Scenario.solve (Scenario.lnphis (500001/499999) (499999/500001)) Scenario.base None
    default_maxiter default_xtol false None
    (Some [499999/1000000; 500001/1000000]) (Some [500001/1000000; 499999/1000000])
    default_trivial_solution_tol false false
  = Ok (Some (1/2), [499999/1000000; 500001/1000000], [500001/1000000; 499999/1000000],
        Scenario.trial [499999/1000000; 500001/1000000],
        Scenario.trial [500001/1000000; 499999/1000000], None) /\
  comp_difference [499999/1000000; 500001/1000000] [500001/1000000; 499999/1000000]
  < default_trivial_solution_tol.
Proof.
  split.
  - unfold sequential_substitution_VL, initial_split. cbn [mbind res_bind bind].
    unfold default_maxiter.
    erewrite ss_loop_break with (r := 999%nat);
      [ | unfold ss_step; rewrite update_near_trivial; reflexivity
        | unfold default_xtol; lra].
    reflexivity.
  - rewrite near_trivial_difference. unfold default_trivial_solution_tol. lra.
Qed.

Lemma trivial_solution_guard_witness :
  ss_loop (Scenario.rachford_rice (1/2) [499999/1000000; 500001/1000000]
             [500001/1000000; 499999/1000000]) Scenario.fast_init
    Scenario.solve (Scenario.lnphis (500001/499999) (499999/500001)) Scenario.base
    true false default_trivial_solution_tol default_xtol default_maxiter
    (S 999) 0
    {| V_over_F := None; xs := [499999/1000000; 500001/1000000];
       ys := [500001/1000000; 499999/1000000]; last := None |}
  = Raise (ValueError TrivialCondition).
Proof.
  apply (proj1 (trivial_solution_guard Scenario.wilson
           (Scenario.rachford_rice (1/2) [499999/1000000; 500001/1000000]
              [500001/1000000; 499999/1000000]) Scenario.fast_init
           Scenario.solve (Scenario.lnphis (500001/499999) (499999/500001)) Scenario.base
           None default_maxiter default_xtol None
           (Some [499999/1000000; 500001/1000000]) (Some [500001/1000000; 499999/1000000])
           default_trivial_solution_tol false false)
         999%nat O _ _ 0 (update_near_trivial true O None None)).
  cbn [xs ys]. rewrite near_trivial_difference. unfold default_trivial_solution_tol. lra.
Defined.

(** A pass whose Rachford-Rice update hands back a negative liquid mole
    fraction. *)
Lemma step_negative (i : nat) (v : option R) (l : option (nat * R * EOS.t * EOS.t)) :
  ss_step (Scenario.rachford_rice (1/2) [-1/4; 3/4] [5/4; 1/4]) Scenario.fast_init
    Scenario.solve (Scenario.lnphis 3 (1/3)) Scenario.base true false 1e-5 i
    {| V_over_F := v; xs := [1/4; 3/4]; ys := [3/4; 1/4]; last := l |}
  = Ok ({| V_over_F := Some (1/2); xs := [1/4; 3/4]; ys := [5/4; 1/4];
           last := Some (i, 0, Scenario.trial [1/4; 3/4], Scenario.trial [3/4; 1/4]) |}, 0).
Proof.
  unfold ss_step, ss_update. rewrite !to_TP_zs_fast_base.
  py_eval. replace (0 + - (-1 / 4) + 3 / 4) with 1 by lra.
  py_eval; reals_eq.
Qed.

Lemma degeneracy_guard_witness :
  exists Ks V xs_new ys_new,
    Scenario.rachford_rice (1/2) [-1/4; 3/4] [5/4; 1/4] (EOS.zs Scenario.base) Ks None
    = Ok (V, xs_new, ys_new) /\
    renormalize_if_negative xs_new = Ok [1/4; 3/4] /\
    renormalize_if_negative ys_new = Ok [5/4; 1/4] /\
    (Exists (fun x => x < 0) xs_new ->
     [1/4; 3/4] = renormalized xs_new /\ py_sum [1/4; 3/4] = 1) /\
    (~ Exists (fun x => x < 0) xs_new -> [1/4; 3/4] = xs_new) /\
    (Exists (fun y => y < 0) ys_new ->
     [5/4; 1/4] = renormalized ys_new /\ py_sum [5/4; 1/4] = 1) /\
    (~ Exists (fun y => y < 0) ys_new -> [5/4; 1/4] = ys_new) /\
    (forall l, exists l', renormalize_if_negative l = Ok l').
Proof.
  apply (degeneracy_guard (Scenario.rachford_rice (1/2) [-1/4; 3/4] [5/4; 1/4])
           Scenario.fast_init Scenario.solve (Scenario.lnphis 3 (1/3)) Scenario.base
           true false 1e-5 O
           {| V_over_F := None; xs := [1/4; 3/4]; ys := [3/4; 1/4]; last := None |}
           _ 0 (step_negative O None None)).
Defined.

End FlashRuns.

(** ** Logarithms of non-positive numbers in the fugacity coefficients *)

Section FugacityFacts.

Lemma nve_Ok {A} (a : A) : no_ValueError (Ok a).
Proof. intros w H. discriminate H. Qed.






Lemma nve_try_except {A} (m h : res A) :
  no_ValueError h -> no_ValueError (try_except m is_ValueError h).
Proof.
  intros Hh w. destruct m as [a|e]; simpl; [discriminate|].
  destruct e; simpl; try discriminate. apply Hh.
Qed.





Lemma log_nonpositive (x : R) : x <= 0 -> log x = Raise (ValueError MathDomain).
Proof. intros Hx. unfold log. destruct (Rlt_dec 0 x); [lra | reflexivity]. Qed.




Lemma try_except_value {A} (m : res A) (a : A) (w : value_error) :
  try_except m is_ValueError (Ok a) <> Raise (ValueError w).
Proof. apply nve_try_except, nve_Ok. Qed.

Lemma map_res_total {A B} (f : A -> res B) (l : list A) :
  (forall x, x ∈ l -> exists y, f x = Ok y) ->
  exists ys, map_res f l = Ok ys /\ length ys = length l.
Proof.
  induction l as [|x l IH]; intros Hf.
  - exists []. auto.
  - destruct (Hf x ltac:(left)) as [y Hy].
    destruct IH as (ys & Hys & Hlen). { intros z Hz. apply Hf. right. exact Hz. }
    exists (y :: ys). cbn [map_res]. rewrite Hy, Hys. simpl. auto.
Qed.

Lemma fdiv_nonzero (x y : R) : y <> 0 -> fdiv x y = Ok (x / y).
Proof. intros Hy. unfold fdiv. destruct (Req_dec_T y 0); [contradiction | reflexivity]. Qed.




Variable R_gas : R.
Variable dlnphi_dns : EOS.t -> R -> list R -> res (list R).
Variable dns_to_dn_partials : list R -> R -> res (list R).


End FugacityFacts.

Section FugacityRuns.




End FugacityRuns.

(** ** The cache of the pairwise quantities *)

Section CacheFacts.

Import MixingRule GCEOSMIX.


(** With [quick] cleared the cache is not read. *)
Lemma pairwise_recomputed (self : EOS.t) (a_alphas : list R) (T : R) :
  snd (pairwise_quantities self a_alphas T false)
  = recomputed_pairwise false a_alphas (EOS.kijs self).
Proof.
  unfold pairwise_quantities.
  destruct (recomputed_pairwise false a_alphas (EOS.kijs self)) as [[[i r] v]|e]; reflexivity.
Qed.















End CacheFacts.

Section CacheRuns.

Import GCEOSMIX.



End CacheRuns.

(** ** More on loops, lists and sums *)

Section MoreOnLists.

Import GCEOSMIX.

Lemma log_positive (x : R) : 0 < x -> log x = Ok (ln x).
Proof. intros H. unfold log. destruct (Rlt_dec 0 x); [reflexivity | contradiction]. Qed.

Lemma log_Ok (x v : R) : log x = Ok v -> 0 < x /\ v = ln x.
Proof.
  unfold log. destruct (Rlt_dec 0 x); intros H; [|discriminate H].
  injection H as <-. auto.
Qed.

Lemma getitem_out_of_range {A} (l : list A) (i : nat) :
  (length l <= i)%nat -> getitem l i = Raise IndexError.
Proof. intros H. unfold getitem. rewrite lookup_ge_None_2 by exact H. reflexivity. Qed.

Lemma getitem_raises {A} (l : list A) (i : nat) (e : exn) :
  getitem l i = Raise e -> e = IndexError.
Proof.
  unfold getitem. destruct (l !! i); intros H; [discriminate H|].
  injection H as <-. reflexivity.
Qed.

(** A loop whose body raises at [k], and returns before, raises there. *)
Lemma for_each_raises_at {St} (body : nat -> St -> res St) (e : exn) (a b k : nat) (s : St) :
  (a <= k < b)%nat ->
  (forall j t, (a <= j < k)%nat -> exists t', body j t = Ok t') ->
  (forall t, body k t = Raise e) ->
  for_each (range a b) body s = Raise e.
Proof.
  intros Hk Hbefore Hat.
  assert (Hsplit : range a b = range a k ++ k :: range (S k) b).
  { unfold range. replace (b - a)%nat with ((k - a) + S (b - S k))%nat by lia.
    rewrite seq_app. cbn [seq]. replace (a + (k - a))%nat with k by lia. reflexivity. }
  rewrite Hsplit, for_each_app.
  destruct (for_each_range_total (fun _ _ => True) body a k ltac:(lia)) with (s := s)
    as (s1 & -> & _); [|exact I|].
  { intros j t Hj _. destruct (Hbefore j t Hj) as [t' Ht']. exists t'. auto. }
  cbn [mbind res_bind bind for_each]. rewrite Hat. reflexivity.
Qed.

(** A loop whose body raises nothing but [e] raises nothing but [e]. *)
Lemma for_each_only_raises {St} (body : nat -> St -> res St) (e : exn) (l : list nat) (s : St)
    (e' : exn) :
  (forall j t e'', body j t = Raise e'' -> e'' = e) ->
  for_each l body s = Raise e' -> e' = e.
Proof.
  intros Hbody. revert s. induction l as [|x l IH]; intros s H; simpl in H.
  - discriminate H.
  - destruct (body x s) as [s'|e''] eqn:Hx.
    + apply (IH s'). exact H.
    + injection H as <-. apply (Hbody x s). exact Hx.
Qed.

Lemma for_each_Ok_each {St} (body : nat -> St -> res St) (l : list nat) (s s' : St) :
  for_each l body s = Ok s' -> forall x, x ∈ l -> exists t t', body x t = Ok t'.
Proof.
  revert s. induction l as [|a l IH]; intros s H x Hx.
  - inversion Hx.
  - cbn [for_each] in H. destruct (body a s) as [s1|e] eqn:Ha; [|discriminate H].
    apply elem_of_cons in Hx. destruct Hx as [->|Hx]; [eauto | exact (IH s1 H x Hx)].
Qed.

Lemma map_res_map {A B} (f : A -> res B) (g : A -> B) (l : list A) :
  (forall x, x ∈ l -> f x = Ok (g x)) -> map_res f l = Ok (map g l).
Proof.
  induction l as [|x l IH]; intros Hf; [reflexivity|].
  cbn [map_res map]. rewrite (Hf x) by left. rewrite IH by (intros y Hy; apply Hf; right; exact Hy).
  reflexivity.
Qed.

Lemma map_res_Ok_each {A B} (f : A -> res B) (l : list A) (ys : list B) :
  map_res f l = Ok ys -> forall x, x ∈ l -> exists y, f x = Ok y.
Proof.
  revert ys. induction l as [|a l IH]; intros ys H x Hx.
  - inversion Hx.
  - cbn [map_res] in H. apply bind_Ok in H. destruct H as (y & Hy & H).
    apply bind_Ok in H. destruct H as (ys' & Hys & _).
    apply elem_of_cons in Hx. destruct Hx as [->|Hx]; [eauto | exact (IH ys' Hys x Hx)].
Qed.

Lemma map_res_length {A B} (f : A -> res B) (l : list A) (ys : list B) :
  map_res f l = Ok ys -> length ys = length l.
Proof.
  revert ys. induction l as [|x l IH]; intros ys H; cbn [map_res] in H.
  - injection H as <-. reflexivity.
  - apply bind_Ok in H. destruct H as (y & _ & H).
    apply bind_Ok in H. destruct H as (ys' & Hys & H). injection H as <-.
    simpl. rewrite (IH ys' Hys). reflexivity.
Qed.

Lemma lookup_map_res {A B} (f : A -> res B) (l : list A) (ys : list B) (i : nat) (x : A) :
  map_res f l = Ok ys -> l !! i = Some x -> exists y, f x = Ok y /\ ys !! i = Some y.
Proof.
  revert ys i. induction l as [|a l IH]; intros ys i H Hx; [discriminate Hx|].
  cbn [map_res] in H. apply bind_Ok in H. destruct H as (y & Hy & H).
  apply bind_Ok in H. destruct H as (ys' & Hys & H). injection H as <-.
  destruct i as [|i].
  - injection Hx as <-. exists y. auto.
  - apply (IH ys' i Hys Hx).
Qed.

Lemma elem_of_range (a b k : nat) : k ∈ range a b <-> (a <= k < b)%nat.
Proof. unfold range. rewrite elem_of_seq. lia. Qed.

Lemma length_range (a b : nat) : length (range a b) = (b - a)%nat.
Proof. unfold range. apply length_seq. Qed.

Lemma py_sum_nil : py_sum [] = 0.
Proof. reflexivity. Qed.

Lemma py_sum_snoc (l : list R) (x : R) : py_sum (l ++ [x]) = py_sum l + x.
Proof. unfold py_sum. rewrite fold_left_app. reflexivity. Qed.

Lemma py_sum_take_S (l : list R) (k : nat) (x : R) :
  l !! k = Some x -> py_sum (take (S k) l) = py_sum (take k l) + x.
Proof. intros H. rewrite (take_S_r l k x H). apply py_sum_snoc. Qed.

Lemma lookup_map {A B} (f : A -> B) (l : list A) (i : nat) :
  map f l !! i = option_map f (l !! i).
Proof.
  revert i. induction l as [|x l IH]; intros [|i]; try reflexivity. apply IH.
Qed.

Lemma at1_map (f : R -> R) (l : list R) (i : nat) :
  (i < length l)%nat -> at1 (map f l) i = f (at1 l i).
Proof.
  intros Hi. unfold at1. rewrite lookup_map.
  destruct (lookup_lt_is_Some_2 l i Hi) as [x ->]. reflexivity.
Qed.

Lemma at2_map2 (f : R -> R -> R) (l : list R) (i j : nat) :
  (i < length l)%nat -> (j < length l)%nat ->
  at2 (map (fun x => map (fun y => f x y) l) l) i j = f (at1 l i) (at1 l j).
Proof.
  intros Hi Hj. unfold at2, at1. rewrite lookup_map.
  destruct (lookup_lt_is_Some_2 l i Hi) as [x ->].
  change (default [] (option_map (fun x0 => map (fun y => f x0 y) l) (Some x)))
    with (map (fun y => f x y) l).
  rewrite lookup_map.
  destruct (lookup_lt_is_Some_2 l j Hj) as [y ->]. reflexivity.
Qed.

Lemma map_over_indices {B} (l : list R) (g : R -> B) :
  map (fun i => g (at1 l i)) (range 0 (length l)) = map g l.
Proof.
  apply list_eq. intros i. rewrite !lookup_map. unfold range. rewrite Nat.sub_0_r.
  destruct (decide (i < length l)%nat) as [Hi|Hi].
  - rewrite lookup_seq_lt by exact Hi. unfold at1.
    destruct (lookup_lt_is_Some_2 l i Hi) as [y Hy].
    cbn [option_map Nat.add]. rewrite Hy. reflexivity.
  - rewrite lookup_seq_ge by lia. rewrite lookup_ge_None_2 by lia. reflexivity.
Qed.

Lemma at1_snoc (l : list R) (x : R) : at1 (l ++ [x]) (length l) = x.
Proof. unfold at1. rewrite lookup_app_r by lia. rewrite Nat.sub_diag. reflexivity. Qed.

Lemma at1_app_l (l l' : list R) (k : nat) :
  (k < length l)%nat -> at1 (l ++ l') k = at1 l k.
Proof. intros Hk. unfold at1. rewrite lookup_app_l by exact Hk. reflexivity. Qed.

Lemma at1_zip_with (f : R -> R -> R) (l1 l2 : list R) (k : nat) :
  (k < length l1)%nat -> (k < length l2)%nat ->
  at1 (zip_with f l1 l2) k = f (at1 l1 k) (at1 l2 k).
Proof.
  intros H1 H2. unfold at1. rewrite lookup_zip_with.
  destruct (lookup_lt_is_Some_2 l1 k H1) as [x ->].
  destruct (lookup_lt_is_Some_2 l2 k H2) as [y ->]. reflexivity.
Qed.





(** The builtin [sum] of a list is the sum of its entries by index. *)
Lemma py_sum_sum_from (l : list R) : py_sum l = sum_from 0 (length l) (at1 l).
Proof.
  induction l as [|x l IH] using rev_ind; [reflexivity|].
  rewrite py_sum_snoc, length_app, Nat.add_comm. cbn [length Nat.add sum_from].
  rewrite at1_snoc, IH. f_equal.
  apply sum_from_ext. intros k Hk. symmetry. apply at1_app_l. lia.
Qed.

End MoreOnLists.

(** ** The tangent-plane distance *)

Section TangentPlaneFacts.

Import GCEOSMIX TangentPlane.

Lemma TPD_loop_total (ys lnphis_test zs lnphis : list R) (tot : R) :
  (forall i yi zi, zipped ys lnphis_test zs lnphis i yi zi -> 0 < zi /\ 0 < yi) ->
  exists v, TPD_loop ys lnphis_test zs lnphis tot = Ok v.
Proof.
  revert lnphis_test zs lnphis tot.
  induction ys as [|yi ys IH]; intros [|pyi lt] [|zi zs] [|pzi l] tot H;
    try (eexists; reflexivity).
  destruct (H O yi zi) as [Hz Hy].
  { repeat split; try reflexivity; eexists; reflexivity. }
  cbn [TPD_loop]. rewrite (log_positive zi Hz), (log_positive yi Hy).
  cbn [mbind res_bind bind]. apply IH.
  intros i y z (H1 & H2 & H3 & H4). apply (H (S i)). repeat split; assumption.
Qed.

Lemma TPD_loop_domain (ys lnphis_test zs lnphis : list R) (tot : R) (i : nat) (yi zi : R) :
  zipped ys lnphis_test zs lnphis i yi zi -> zi <= 0 \/ yi <= 0 ->
  TPD_loop ys lnphis_test zs lnphis tot = Raise (ValueError MathDomain).
Proof.
  revert ys lnphis_test zs lnphis tot.
  induction i as [|i IH]; intros [|y ys] [|pyi lt] [|z zs] [|pzi l] tot (H1 & H2 & H3 & H4) Hneg;
    try discriminate H1; try discriminate H2;
    try (destruct H3 as [? H3]; discriminate H3);
    try (destruct H4 as [? H4]; discriminate H4).
  - injection H1 as ->. injection H2 as ->. cbn [TPD_loop].
    destruct (Rle_or_lt zi 0) as [Hz|Hz].
    + rewrite (log_nonpositive zi Hz). reflexivity.
    + rewrite (log_positive zi Hz). cbn [mbind res_bind bind].
      destruct Hneg as [Hneg|Hneg]; [lra|]. rewrite (log_nonpositive yi Hneg). reflexivity.
  - cbn [TPD_loop].
    destruct (Rle_or_lt z 0) as [Hz|Hz]; [rewrite (log_nonpositive z Hz); reflexivity|].
    rewrite (log_positive z Hz). cbn [mbind res_bind bind].
    destruct (Rle_or_lt y 0) as [Hy|Hy]; [rewrite (log_nonpositive y Hy); reflexivity|].
    rewrite (log_positive y Hy). cbn [mbind res_bind bind].
    apply IH; [|exact Hneg]. repeat split; assumption.
Qed.

Variable R_gas : R.

(** X1. [TPD] returns exactly when every mole fraction that [zip] reaches, of the
    tested phase and of the trial phase, is positive; a zero or negative one
    makes it raise the ValueError of [log]. *)
Theorem TPD_needs_positive_fractions (T : R) (zs lnphis ys lnphis_test : list R) :
  ((forall i yi zi, zipped ys lnphis_test zs lnphis i yi zi -> 0 < zi /\ 0 < yi) ->
   exists v, TPD R_gas T zs lnphis ys lnphis_test = Ok v) /\
  (forall i yi zi, zipped ys lnphis_test zs lnphis i yi zi -> zi <= 0 \/ yi <= 0 ->
   TPD R_gas T zs lnphis ys lnphis_test = Raise (ValueError MathDomain)).
Proof.
  split.
  - intros H. unfold TPD.
    destruct (TPD_loop_total ys lnphis_test zs lnphis 0 H) as [v Hv].
    rewrite Hv. eexists. reflexivity.
  - intros i yi zi Hz Hneg. unfold TPD.
    rewrite (TPD_loop_domain _ _ _ _ 0 i yi zi Hz Hneg). reflexivity.
Qed.

Lemma TPD_loop_same (zs lnphis : list R) (tot : R) :
  Forall (fun z => 0 < z) zs -> TPD_loop zs lnphis zs lnphis tot = Ok tot.
Proof.
  intros Hpos. revert lnphis tot.
  induction Hpos as [|z zs Hz _ IH]; intros [|p l] tot; try reflexivity.
  cbn [TPD_loop]. rewrite (log_positive z Hz). cbn [mbind res_bind bind].
  replace (tot + z * (ln z + p - (ln z + p))) with tot by ring. apply IH.
Qed.

(** X2. The distance of a phase from itself is zero: with the trial composition
    and its log fugacity coefficients equal to those of the tested phase,
    and positive mole fractions, [TPD] returns 0. *)
Theorem TPD_of_the_tested_phase (T : R) (zs lnphis : list R) :
  Forall (fun z => 0 < z) zs ->
  TPD R_gas T zs lnphis zs lnphis = Ok 0.
Proof.
  intros Hpos. unfold TPD. rewrite (TPD_loop_same zs lnphis 0 Hpos).
  cbn [mbind res_bind bind]. f_equal. ring.
Qed.

Lemma TPD_loop_ideal (ys zs lnphis : list R) (tot v : R) :
  length ys = length zs -> length lnphis = length zs ->
  TPD_loop ys lnphis zs lnphis tot = Ok v ->
  tot + (py_sum ys - py_sum zs) <= v.
Proof.
  revert zs lnphis tot.
  induction ys as [|y ys IH]; intros [|z zs] [|p l] tot Hy Hl H;
    try discriminate Hy; try discriminate Hl.
  - cbn [TPD_loop] in H. injection H as <-. unfold py_sum. simpl. lra.
  - cbn [TPD_loop] in H.
    apply bind_Ok in H. destruct H as (lz & Hlz & H).
    apply bind_Ok in H. destruct H as (ly & Hly & H).
    apply log_Ok in Hlz, Hly. destruct Hlz as [Hz ->]. destruct Hly as [Hy0 ->].
    apply IH in H; [|simpl in Hy; lia|simpl in Hl; lia].
    rewrite !py_sum_cons.
    assert (Hbound : y - z <= y * (ln y + p - (ln z + p))).
    { pose proof (ln_le_minus_1 (z / y)) as Hln.
      assert (Hq : 0 < z / y) by (apply Rdiv_lt_0_compat; assumption).
      specialize (Hln Hq). unfold Rdiv in Hln.
      rewrite ln_mult in Hln by (try apply Rinv_0_lt_compat; assumption).
      rewrite ln_Rinv in Hln by assumption.
      replace (y * (ln y + p - (ln z + p))) with (- (y * (ln z + - ln y))) by ring.
      assert (y * (ln z + - ln y) <= y * (z * / y - 1)) by (apply Rmult_le_compat_l; lra).
      replace (y * (z * / y - 1)) with (z - y) in H0 by (field; lra). lra. }
    lra.
Qed.

(** X3. Gibbs' inequality: against a trial phase with the same log fugacity
    coefficients (an ideal mixture) and the same total of mole fractions,
    the distance that [TPD] returns is never negative. *)
Theorem TPD_ideal_is_nonnegative (T : R) (zs ys lnphis : list R) (v : R) :
  0 <= R_gas -> 0 <= T ->
  length ys = length zs -> length lnphis = length zs ->
  py_sum ys = py_sum zs ->
  TPD R_gas T zs lnphis ys lnphis = Ok v ->
  0 <= v.
Proof.
  intros HR HT Hy Hl Hsum H. unfold TPD in H.
  apply bind_Ok in H. destruct H as (tot & Hloop & H). injection H as <-.
  apply TPD_loop_ideal in Hloop; [|assumption|assumption].
  rewrite Hsum in Hloop.
  apply Rmult_le_pos; [apply Rmult_le_pos|]; lra.
Qed.

End TangentPlaneFacts.

(** ** The modified tangent-plane distance of Stateva and Tsvetkov *)

Section StatevaTsvetkovFacts.

Import TangentPlane.

Lemma ki_of_total (yi log_phi_yi zi log_phi_zi : R) :
  exists ki, ki_of yi log_phi_yi zi log_phi_zi = Ok ki.
Proof.
  unfold ki_of, log_or_m690, Rltb, log.
  destruct (Rlt_dec 0 zi); cbn [mbind res_bind bind];
    destruct (Rlt_dec 0 yi); cbn [mbind res_bind bind try_except is_ValueError];
    eexists; reflexivity.
Qed.

(** Against itself every [ki] is zero, whatever the sign of the fraction. *)
Lemma ki_of_same (zi log_phi_zi : R) : ki_of zi log_phi_zi zi log_phi_zi = Ok 0.
Proof.
  unfold ki_of, log_or_m690, Rltb, log.
  destruct (Rlt_dec 0 zi); cbn [mbind res_bind bind try_except is_ValueError];
    f_equal; ring.
Qed.

Lemma kis_loop_total (ys lnphis_trial zs lnphis kis : list R) :
  exists more,
    kis_loop ys lnphis_trial zs lnphis kis = Ok (kis ++ more) /\
    length more
    = Nat.min (Nat.min (Nat.min (length ys) (length lnphis_trial)) (length zs)) (length lnphis).
Proof.
  revert lnphis_trial zs lnphis kis.
  induction ys as [|yi ys IH]; intros [|pyi lt] [|zi zs] [|pzi l] kis;
    try (exists []; rewrite app_nil_r; split; [reflexivity | simpl; lia]).
  cbn [kis_loop]. destruct (ki_of_total yi pyi zi pzi) as [ki ->].
  cbn [mbind res_bind bind].
  destruct (IH lt zs l (kis ++ [ki])) as (more & -> & Hlen).
  exists (ki :: more). rewrite <- app_assoc. split; [reflexivity|].
  simpl. lia.
Qed.

Lemma kis_loop_same (zs lnphis kis : list R) :
  (length zs <= length lnphis)%nat ->
  kis_loop zs lnphis zs lnphis kis = Ok (kis ++ replicate (length zs) 0).
Proof.
  revert lnphis kis. induction zs as [|zi zs IH]; intros [|p l] kis Hlen;
    try (simpl in Hlen; lia); try (cbn [kis_loop length replicate]; rewrite app_nil_r; reflexivity).
  cbn [kis_loop]. rewrite ki_of_same. cbn [mbind res_bind bind].
  rewrite IH by (simpl in Hlen; lia). rewrite <- app_assoc. reflexivity.
Qed.

Lemma gap_loop_total (kis : list R) (n : nat) (tot : R) :
  (n < length kis)%nat -> 0 <= tot ->
  exists v, for_each (range 0 n) (gap_body kis) tot = Ok v /\ 0 <= v.
Proof.
  intros Hn Htot.
  apply (for_each_range_total (fun _ acc => 0 <= acc) (gap_body kis) 0 n ltac:(lia));
    [|exact Htot].
  intros i acc Hi Hacc. unfold gap_body.
  destruct (getitem_lt kis (i + 1) ltac:(lia)) as (k1 & -> & _).
  destruct (getitem_lt kis i ltac:(lia)) as (k & -> & _).
  cbn [mbind res_bind bind]. eexists. split; [reflexivity|].
  pose proof (Rle_0_sqr (k1 - k)) as Hsq. unfold Rsqr in Hsq. lra.
Qed.

Lemma gap_loop_short (kis : list R) (n : nat) (tot : R) :
  (length kis <= n)%nat -> (1 <= length kis)%nat ->
  for_each (range 0 n) (gap_body kis) tot = Raise IndexError.
Proof.
  intros Hn Hk.
  apply (for_each_raises_at _ _ 0 n (length kis - 1)); [lia| |].
  - intros j t Hj. unfold gap_body.
    destruct (getitem_lt kis (j + 1) ltac:(lia)) as (k1 & -> & _).
    destruct (getitem_lt kis j ltac:(lia)) as (k & -> & _).
    cbn [mbind res_bind bind]. eexists. reflexivity.
  - intros t. unfold gap_body.
    rewrite (getitem_out_of_range kis (length kis - 1 + 1)) by lia. reflexivity.
Qed.

(** X4. [Stateva_Tsvetkov_TPDF] returns, and then a number that is not negative,
    exactly when [zs] is not empty and none of the other three lists is
    shorter than [zs]; in every other case it raises IndexError, and it never
    raises the ValueError of [log]. *)
Theorem Stateva_Tsvetkov_TPDF_returns (lnphis zs lnphis_trial ys : list R) :
  let others := Nat.min (Nat.min (length ys) (length lnphis_trial)) (length lnphis) in
  ((1 <= length zs <= others)%nat ->
   exists v, Stateva_Tsvetkov_TPDF lnphis zs lnphis_trial ys = Ok v /\ 0 <= v) /\
  (~ (1 <= length zs <= others)%nat ->
   Stateva_Tsvetkov_TPDF lnphis zs lnphis_trial ys = Raise IndexError).
Proof.
  intros others. unfold Stateva_Tsvetkov_TPDF.
  destruct (kis_loop_total ys lnphis_trial zs lnphis []) as (kis & -> & Hlen).
  cbn [app mbind res_bind bind]. subst others. split.
  - intros Hz.
    destruct (getitem_lt kis 0 ltac:(lia)) as (k0 & -> & _). cbn [mbind res_bind bind].
    apply gap_loop_total; [|lra]. rewrite length_app. simpl. lia.
  - intros Hz. destruct (decide (length kis = 0)%nat) as [H0|H0].
    + rewrite getitem_out_of_range by lia. reflexivity.
    + destruct (getitem_lt kis 0 ltac:(lia)) as (k0 & -> & _). cbn [mbind res_bind bind].
      apply gap_loop_short; rewrite length_app; simpl; lia.
Qed.

Lemma gap_loop_zeros (m n : nat) :
  (n < m)%nat -> for_each (range 0 n) (gap_body (replicate m 0)) 0 = Ok 0.
Proof.
  intros Hn.
  destruct (for_each_range_total (fun _ acc => acc = 0) (gap_body (replicate m 0)) 0 n
              ltac:(lia)) with (s := 0) as (v & Hv & ->); [|reflexivity|exact Hv].
  intros i acc Hi ->. unfold gap_body, getitem.
  rewrite !lookup_replicate_2 by lia. cbn [mbind res_bind bind].
  exists 0. split; [f_equal; ring | reflexivity].
Qed.

(** X5. At the tested phase itself the modified distance is zero, also when
    some mole fractions are zero or negative. *)
Theorem Stateva_Tsvetkov_TPDF_of_the_tested_phase (lnphis zs : list R) :
  (1 <= length zs <= length lnphis)%nat ->
  Stateva_Tsvetkov_TPDF lnphis zs lnphis zs = Ok 0.
Proof.
  intros Hlen. unfold Stateva_Tsvetkov_TPDF.
  rewrite kis_loop_same by lia. cbn [app mbind res_bind bind].
  unfold getitem at 1. rewrite lookup_replicate_2 by lia. cbn [mbind res_bind bind].
  change [0] with (replicate 1 0). rewrite <- replicate_add.
  apply gap_loop_zeros. lia.
Qed.

End StatevaTsvetkovFacts.

(** ** Pseudo-critical properties *)

Section PseudoCriticalFacts.

Import GCEOSMIX PseudoCritical.

(** A mole-weighted sum of values between [lo] and [hi], with fractions
    that are not negative and sum to 1, lies between [lo] and [hi]. *)
Lemma mole_weighted_between (zs vals : list R) (N : nat) (lo hi : R) :
  length zs = N -> length vals = N ->
  Forall (fun z => 0 <= z) zs -> py_sum zs = 1 ->
  Forall (fun v => lo <= v <= hi) vals ->
  exists v, for_each (range 0 N) (mole_weighted zs vals) 0 = Ok v /\ lo <= v <= hi.
Proof.
  intros Hzs Hvals Hpos Hsum Hb.
  destruct (for_each_range_total
              (fun k acc => lo * py_sum (take k zs) <= acc <= hi * py_sum (take k zs))
              (mole_weighted zs vals) 0 N ltac:(lia)) with (s := 0) as (v & Hv & Hin).
  - intros k acc Hk Hacc. unfold mole_weighted.
    destruct (getitem_lt zs k ltac:(lia)) as (zi & -> & Hzi).
    destruct (getitem_lt vals k ltac:(lia)) as (vi & -> & Hvi).
    cbn [mbind res_bind bind]. eexists. split; [reflexivity|].
    rewrite (py_sum_take_S zs k zi Hzi).
    pose proof (Forall_lookup_1 _ _ _ _ Hpos Hzi) as Hz. simpl in Hz.
    pose proof (Forall_lookup_1 _ _ _ _ Hb Hvi) as Hv. simpl in Hv.
    split; nra.
  - unfold py_sum. simpl. lra.
  - exists v. split; [exact Hv|].
    rewrite take_ge in Hin by lia. rewrite Hsum in Hin. lra.
Qed.

(** X6. For a composition whose fractions are not negative and sum to 1, each
    pseudo-critical property lies between the smallest and the largest of the
    pure-component values it is built from. *)
Theorem pseudo_properties_between (self : EOS.t) (lo hi : R) :
  length (EOS.zs self) = EOS.N self ->
  Forall (fun z => 0 <= z) (EOS.zs self) -> py_sum (EOS.zs self) = 1 ->
  (length (EOS.Tcs self) = EOS.N self -> Forall (fun v => lo <= v <= hi) (EOS.Tcs self) ->
   exists Tc, pseudo_Tc self = Ok Tc /\ lo <= Tc <= hi) /\
  (length (EOS.Pcs self) = EOS.N self -> Forall (fun v => lo <= v <= hi) (EOS.Pcs self) ->
   exists Pc, pseudo_Pc self = Ok Pc /\ lo <= Pc <= hi) /\
  (length (EOS.ais self) = EOS.N self -> Forall (fun v => lo <= v <= hi) (EOS.ais self) ->
   exists a, pseudo_a self = Ok a /\ lo <= a <= hi).
Proof.
  intros Hzs Hpos Hsum. repeat split; intros Hlen Hb;
    apply mole_weighted_between; assumption.
Qed.

Lemma mole_weighted_short (zs vals : list R) (N : nat) :
  (length zs < N)%nat \/ (length vals < N)%nat ->
  for_each (range 0 N) (mole_weighted zs vals) 0 = Raise IndexError.
Proof.
  intros Hshort.
  apply (for_each_raises_at _ _ 0 N (Nat.min (length zs) (length vals))); [lia| |].
  - intros j t Hj. unfold mole_weighted.
    destruct (getitem_lt zs j ltac:(lia)) as (zi & -> & _).
    destruct (getitem_lt vals j ltac:(lia)) as (vi & -> & _).
    cbn [mbind res_bind bind]. eexists. reflexivity.
  - intros t. unfold mole_weighted.
    destruct (Nat.le_ge_cases (length zs) (length vals)) as [Hle|Hle].
    + rewrite (getitem_out_of_range zs) by lia. reflexivity.
    + destruct (decide (length vals < length zs)%nat) as [Hlt|Hge].
      * destruct (getitem_lt zs (Nat.min (length zs) (length vals)) ltac:(lia))
          as (zi & -> & _).
        cbn [mbind res_bind bind]. rewrite (getitem_out_of_range vals) by lia. reflexivity.
      * rewrite (getitem_out_of_range zs) by lia. reflexivity.
Qed.

(** X7. A composition or a list of pure-component values with fewer than [N]
    entries makes the pseudo-critical property raise IndexError. *)
Theorem pseudo_properties_short_lists (self : EOS.t) :
  ((length (EOS.zs self) < EOS.N self)%nat \/ (length (EOS.Tcs self) < EOS.N self)%nat ->
   pseudo_Tc self = Raise IndexError) /\
  ((length (EOS.zs self) < EOS.N self)%nat \/ (length (EOS.Pcs self) < EOS.N self)%nat ->
   pseudo_Pc self = Raise IndexError) /\
  ((length (EOS.zs self) < EOS.N self)%nat \/ (length (EOS.ais self) < EOS.N self)%nat ->
   pseudo_a self = Raise IndexError).
Proof. repeat split; intros H; apply mole_weighted_short; exact H. Qed.

Lemma Psat_body_raises (self : EOS.t) (i : nat) (s : R * R * R) (e : exn) :
  Psat_body self i s = Raise e -> e = IndexError.
Proof.
  destruct s as [[Tc Pc] a]. unfold Psat_body.
  repeat (match goal with
          | |- context [getitem ?l ?i] =>
              let H := fresh in
              destruct (getitem l i) eqn:H;
              [cbn [mbind res_bind bind]
              |cbn [mbind res_bind bind]; intros H'; injection H' as <-;
               apply (getitem_raises _ _ _ H)]
          end).
  intros H'. discriminate H'.
Qed.

Lemma Psat_body_total (self : EOS.t) (i : nat) (s : R * R * R) :
  (i < length (EOS.Tcs self))%nat -> (i < length (EOS.zs self))%nat ->
  (i < length (EOS.Pcs self))%nat -> (i < length (EOS.ais self))%nat ->
  exists s', Psat_body self i s = Ok s'.
Proof.
  intros H1 H2 H3 H4. destruct s as [[Tc Pc] a]. unfold Psat_body.
  destruct (getitem_lt (EOS.Tcs self) i H1) as (x1 & -> & _).
  destruct (getitem_lt (EOS.zs self) i H2) as (x2 & -> & _).
  destruct (getitem_lt (EOS.Pcs self) i H3) as (x3 & -> & _).
  destruct (getitem_lt (EOS.ais self) i H4) as (x4 & -> & _).
  cbn [mbind res_bind bind]. eexists. reflexivity.
Qed.

Variable GCEOS_Psat : EOS.t -> R -> R -> R -> R -> R -> bool -> res R.

(** X8. [Psat] on an instance with a number of components other than one never
    returns and never reaches [GCEOS.Psat]: the local [omega] has no value
    there, so the call raises UnboundLocalError, unless a list shorter than
    [N] has raised IndexError before. *)
Theorem Psat_of_a_mixture_never_returns (self : EOS.t) (T : R) (polish : bool) :
  EOS.N self <> 1%nat ->
  (Psat GCEOS_Psat self T polish = Raise UnboundLocalError \/
   Psat GCEOS_Psat self T polish = Raise IndexError) /\
  ((EOS.N self <= length (EOS.Tcs self))%nat -> (EOS.N self <= length (EOS.zs self))%nat ->
   (EOS.N self <= length (EOS.Pcs self))%nat -> (EOS.N self <= length (EOS.ais self))%nat ->
   Psat GCEOS_Psat self T polish = Raise UnboundLocalError).
Proof.
  intros HN. unfold Psat.
  replace (EOS.N self =? 1)%nat with false by (symmetry; apply Nat.eqb_neq; exact HN).
  split.
  - destruct (for_each (range 0 (EOS.N self)) (Psat_body self) (0, 0, 0))
      as [[[Tc Pc] a]|e] eqn:Hloop; cbn [mbind res_bind bind].
    + left. reflexivity.
    + right. f_equal. apply (for_each_only_raises _ IndexError _ _ _ (Psat_body_raises self) Hloop).
  - intros H1 H2 H3 H4.
    destruct (for_each_range_total (fun _ _ => True) (Psat_body self) 0 (EOS.N self)
                ltac:(lia)) with (s := (0, 0, 0)) as ([[Tc Pc] a] & -> & _); [|exact I|].
    + intros k s Hk _. destruct (Psat_body_total self k s) as [s' Hs']; try lia.
      exists s'. auto.
    + reflexivity.
Qed.

End PseudoCriticalFacts.

(** ** New states from an existing one *)

Section RespecifyFacts.

Import GCEOSMIX Respecify.

Lemma option_Reqb_true (x y : option R) : option_Reqb x y = true <-> x = y.
Proof.
  destruct x as [a|], y as [b|]; simpl; try rewrite Reqb_true; split; intros H;
    try discriminate H; try reflexivity; try (injection H as ->; reflexivity).
  subst. reflexivity.
Qed.

Variable class_new : spec_args -> res EOS.t.

Lemma construct_counts (st : store) (args : spec_args) :
  constructions (fst (construct class_new st args)) = S (constructions st).
Proof. unfold construct. destruct (class_new args); reflexivity. Qed.

Lemma construct_is_new (st : store) (args : spec_args) (self : nat) :
  construct class_new st args <> (st, Ok self).
Proof.
  intros H. pose proof (construct_counts st args) as Hc. rewrite H in Hc. simpl in Hc. lia.
Qed.

(** X9. [to_TV_zs] and [to_PV_zs] hand back the very same object exactly when
    the two specifications and the composition asked for are the object's
    own; in every other case they call the class constructor once, with the
    two specifications given, the third left at [None], and the object's own
    constants. *)
Theorem to_TV_zs_and_to_PV_zs_same_object (st : store) (self : nat) (obj : EOS.t)
    (T P : R) (V : option R) (zs : list R) (fugacities only_l only_g : bool) :
  objects st !! self = Some obj ->
  (to_TV_zs class_new st self T V zs fugacities only_l only_g = (st, Ok self)
   <-> T = EOS.T obj /\ V = EOS.V obj /\ zs = EOS.zs obj) /\
  (~ (T = EOS.T obj /\ V = EOS.V obj /\ zs = EOS.zs obj) ->
   to_TV_zs class_new st self T V zs fugacities only_l only_g
   = construct class_new st
       {| spec_T := Some T; spec_P := None; spec_V := V; spec_zs := zs;
          spec_Tcs := EOS.Tcs obj; spec_Pcs := EOS.Pcs obj;
          spec_omegas := EOS.omegas obj; spec_only_l := only_l; spec_only_g := only_g;
          spec_fugacities := fugacities; spec_kwargs := EOS.kwargs obj |}) /\
  (to_PV_zs class_new st self P V zs fugacities only_l only_g = (st, Ok self)
   <-> P = EOS.P obj /\ V = EOS.V obj /\ zs = EOS.zs obj) /\
  (~ (P = EOS.P obj /\ V = EOS.V obj /\ zs = EOS.zs obj) ->
   to_PV_zs class_new st self P V zs fugacities only_l only_g
   = construct class_new st
       {| spec_T := None; spec_P := Some P; spec_V := V; spec_zs := zs;
          spec_Tcs := EOS.Tcs obj; spec_Pcs := EOS.Pcs obj;
          spec_omegas := EOS.omegas obj; spec_only_l := only_l; spec_only_g := only_g;
          spec_fugacities := fugacities; spec_kwargs := EOS.kwargs obj |}).
Proof.
  intros Hobj. unfold to_TV_zs, to_PV_zs. rewrite Hobj.
  assert (HT : Reqb T (EOS.T obj) && option_Reqb V (EOS.V obj) && list_Reqb zs (EOS.zs obj)
               = true <-> T = EOS.T obj /\ V = EOS.V obj /\ zs = EOS.zs obj).
  { rewrite !andb_true_iff, Reqb_true, option_Reqb_true, list_Reqb_true. tauto. }
  assert (HP : Reqb P (EOS.P obj) && option_Reqb V (EOS.V obj) && list_Reqb zs (EOS.zs obj)
               = true <-> P = EOS.P obj /\ V = EOS.V obj /\ zs = EOS.zs obj).
  { rewrite !andb_true_iff, Reqb_true, option_Reqb_true, list_Reqb_true. tauto. }
  split; [|split; [|split]].
  - destruct (Reqb T (EOS.T obj) && option_Reqb V (EOS.V obj) && list_Reqb zs (EOS.zs obj));
      split; intros H.
    + apply HT. reflexivity.
    + reflexivity.
    + exfalso. exact (construct_is_new _ _ _ H).
    + apply HT in H. discriminate H.
  - intros Hn.
    destruct (Reqb T (EOS.T obj) && option_Reqb V (EOS.V obj) && list_Reqb zs (EOS.zs obj));
      [exfalso; apply Hn, HT; reflexivity | reflexivity].
  - destruct (Reqb P (EOS.P obj) && option_Reqb V (EOS.V obj) && list_Reqb zs (EOS.zs obj));
      split; intros H.
    + apply HP. reflexivity.
    + reflexivity.
    + exfalso. exact (construct_is_new _ _ _ H).
    + apply HP in H. discriminate H.
  - intros Hn.
    destruct (Reqb P (EOS.P obj) && option_Reqb V (EOS.V obj) && list_Reqb zs (EOS.zs obj));
      [exfalso; apply Hn, HP; reflexivity | reflexivity].
Qed.

(** X10. [to] looks at the pairs (T, P), (T, V), (P, V) in this order: with [T]
    and [P] both given, a [V] that is given as well is not looked at, and
    asking for the object's own [T] and [P] with [zs] left out hands back the
    object itself; with fewer than two of the three given it calls the class
    constructor in any case. *)
Theorem to_prefers_T_and_P (st : store) (self : nat) (obj : EOS.t)
    (zs : option (list R)) (T P V : option R) (fugacities : bool) :
  objects st !! self = Some obj ->
  (forall t p, T = Some t -> P = Some p ->
     to class_new st self zs T P V fugacities
     = to class_new st self zs T P None fugacities) /\
  (T = Some (EOS.T obj) -> P = Some (EOS.P obj) -> zs = None ->
   to class_new st self zs T P V fugacities = (st, Ok self)) /\
  ((T = None /\ P = None) \/ (T = None /\ V = None) \/ (P = None /\ V = None) ->
   constructions (fst (to class_new st self zs T P V fugacities))
   = S (constructions st)).
Proof.
  intros Hobj. unfold to. rewrite Hobj. split; [|split].
  - intros t p -> ->. reflexivity.
  - intros -> -> ->. unfold to_TP_zs. rewrite Hobj.
    rewrite !Reqb_refl, (proj2 (list_Reqb_true _ _) eq_refl). reflexivity.
  - destruct T, P, V; intros [[H1 H2]|[[H1 H2]|[H1 H2]]];
      try discriminate H1; try discriminate H2; apply construct_counts.
Qed.

End RespecifyFacts.

(** ** The choice of the root for stability tests *)

Section PhaseChoiceFacts.

Import PhaseChoice.

Open Scope string_scope.

(** X11. What [eos_Z_test_phase_stability] returns fits together: [prefer] and
    [alt] name the two different roots, the root returned is the one [alt]
    names, and [eos_Z_trial_phase_stability], asked about the same object
    with these two names, returns that same root. *)
Theorem eos_Z_trial_agrees_with_test (eos : roots) (Z_eos : R) (prefer alt : string) :
  eos_Z_test_phase_stability eos = Ok (Z_eos, prefer, alt) ->
  prefer <> alt /\
  getattr eos alt = Ok Z_eos /\
  eos_Z_trial_phase_stability eos prefer alt = Ok Z_eos.
Proof.
  unfold eos_Z_test_phase_stability, eos_Z_trial_phase_stability.
  destruct eos as [gl gg zl zg ll lg]. cbn [G_dep_l G_dep_g Z_l Z_g].
  destruct gl as [gl|], gg as [gg|], zl as [zl|], zg as [zg|];
    cbn [EOS.attr mbind res_bind bind try_except any_exception hasattr];
    try destruct (Rltb gl gg);
    cbn [EOS.attr mbind res_bind bind try_except any_exception hasattr];
    intros H; try discriminate H; injection H as <- <- <-;
    (split; [discriminate|split; reflexivity]).
Qed.

(** X12. The same for the log fugacity coefficients: the list that
    [eos_lnphis_test_phase_stability] returns is the one [alt] names, and
    [eos_lnphis_trial_phase_stability] returns it again. *)
Theorem eos_lnphis_trial_agrees_with_test (eos : roots) (lnphis_eos : list R)
    (prefer alt : string) :
  eos_lnphis_test_phase_stability eos = Ok (lnphis_eos, prefer, alt) ->
  prefer <> alt /\
  getattr_list eos alt = Ok lnphis_eos /\
  eos_lnphis_trial_phase_stability eos prefer alt = Ok lnphis_eos.
Proof.
  unfold eos_lnphis_test_phase_stability, eos_lnphis_trial_phase_stability.
  destruct eos as [gl gg zl zg ll lg]. cbn [G_dep_l G_dep_g lnphis_l lnphis_g].
  destruct gl as [gl|], gg as [gg|], ll as [ll|], lg as [lg|];
    cbn [EOS.attr mbind res_bind bind try_except any_exception hasattr];
    try destruct (Rltb gl gg);
    cbn [EOS.attr mbind res_bind bind try_except any_exception hasattr];
    intros H; try discriminate H; injection H as <- <- <-;
    (split; [discriminate|split; reflexivity]).
Qed.

End PhaseChoiceFacts.

(** ** Composition derivatives of [b], [delta] and [epsilon] *)

Section CompositionDerivativeFacts.

Import GCEOSMIX CompositionDerivatives PengRobinson.

Lemma zipped_b_sum (bs zs : list R) : zipped_b bs zs = py_sum (zip_with Rmult bs zs).
Proof.
  assert (H : forall acc, fold_left (fun b p => b + fst p * snd p) (zip bs zs) acc
                          = acc + py_sum (zip_with Rmult bs zs)).
  { revert zs. induction bs as [|b bs IH]; intros [|z zs] acc; simpl;
      rewrite ?py_sum_nil; try lra.
    rewrite IH, py_sum_cons. lra. }
  unfold zipped_b. rewrite H. lra.
Qed.

Lemma weighted_differences (zs bs : list R) (b : R) :
  length bs = length zs ->
  py_sum (zip_with Rmult zs (map (fun bi => bi - b) bs))
  = py_sum (zip_with Rmult bs zs) - b * py_sum zs.
Proof.
  revert bs. induction zs as [|z zs IH]; intros [|bi bs] Hlen;
    try discriminate Hlen; simpl.
  - rewrite py_sum_nil. lra.
  - rewrite !py_sum_cons, IH by (simpl in Hlen; lia). lra.
Qed.

(** X13. The mole-number derivatives of [b], weighted by the mole fractions, sum
    to zero, as those of an intensive property must: for a composition that
    sums to 1 and the [b] that [_fast_init_specific] stores. *)
Theorem db_dns_weighted_sum_is_zero (self : EOS.t) (other : attrs) :
  length (EOS.bs self) = length (EOS.zs self) ->
  py_sum (EOS.zs self) = 1 ->
  exists db,
    db_dns (fst (_fast_init_specific self other)) = Ok db /\
    py_sum (zip_with Rmult (EOS.zs self) db) = 0.
Proof.
  intros Hlen Hsum. eexists. split; [reflexivity|].
  cbn [fst _fast_init_specific set_b EOS.bs].
  rewrite weighted_differences by exact Hlen.
  rewrite zipped_b_sum, Hsum. lra.
Qed.

(** The two index loops of [d2epsilon_dninjs] on a list [bs] of [N] entries. *)
Lemma indexed_matrix (bs : list R) (f : R -> R -> R) :
  map_res (fun i =>
    map_res (fun j => bi ← getitem bs i; bj ← getitem bs j; Ok (f bi bj))
      (range 0 (length bs)))
    (range 0 (length bs))
  = Ok (map (fun bi => map (fun bj => f bi bj) bs) bs).
Proof.
  rewrite (map_res_map _ (fun i => map (fun bj => f (at1 bs i) bj) bs)).
  - f_equal. apply (map_over_indices bs (fun bi => map (fun bj => f bi bj) bs)).
  - intros i Hi. apply elem_of_range in Hi.
    destruct (getitem_lt bs i ltac:(lia)) as (bi & Hbi & Hbi').
    rewrite (map_res_map _ (fun j => f (at1 bs i) (at1 bs j))).
    + f_equal. apply (map_over_indices bs (fun bj => f (at1 bs i) bj)).
    + intros j Hj. apply elem_of_range in Hj.
      destruct (getitem_lt bs j ltac:(lia)) as (bj & Hbj & Hbj').
      rewrite Hbi, Hbj. unfold at1. rewrite Hbi', Hbj'. reflexivity.
Qed.

(** X14. PRMIX has [delta = 2b] and [epsilon = -b*b], and its hand-written
    mole-number and mole-fraction derivatives of [delta] and [epsilon] are
    the chain rule applied to the derivatives of [b] that GCEOSMIX gives, up
    to the third mole-number derivatives of [delta]. *)
Theorem delta_and_epsilon_derivatives_follow_b (self : EOS.t) (b : R) :
  EOS.b self = Some b -> length (EOS.bs self) = EOS.N self ->
  exists db d2b d2e,
    db_dns self = Ok db /\ d2b_dninjs self = Ok d2b /\
    ddelta_dns self = Ok (map (Rmult 2) db) /\
    depsilon_dns self = Ok (map (Rmult (-2 * b)) db) /\
    d2delta_dninjs self = Ok (map (map (Rmult 2)) d2b) /\
    d2epsilon_dninjs self = Ok d2e /\
    (forall i j, (i < EOS.N self)%nat -> (j < EOS.N self)%nat ->
       at2 d2e i j = -2 * b * at2 d2b i j - 2 * at1 db i * at1 db j) /\
    ddelta_dzs self = Ok (map (Rmult 2) (EOS.bs self)) /\
    depsilon_dzs self = Ok (map (Rmult (-2 * b)) (EOS.bs self)) /\
    (exists d3b,
       d3b_dninjnks self = Ok d3b /\
       d3delta_dninjnks self = Ok (map (map (map (Rmult 2))) d3b)).
Proof.
  intros Hb HN.
  unfold db_dns, d2b_dninjs, ddelta_dns, depsilon_dns, d2delta_dninjs, d2epsilon_dninjs,
    ddelta_dzs, depsilon_dzs, d3b_dninjnks, d3delta_dninjnks.
  rewrite Hb, <- HN. cbn [EOS.attr mbind res_bind bind].
  rewrite indexed_matrix.
  eexists _, _, _. split; [reflexivity|]. split; [reflexivity|].
  split; [|split; [|split; [|split; [reflexivity|split; [|split; [|split]]]]]].
  - rewrite map_map. reflexivity.
  - rewrite map_map. f_equal. apply map_ext. intros bi. ring.
  - rewrite map_map. f_equal. apply map_ext. intros bi. rewrite map_map. reflexivity.
  - intros i j Hi Hj.
    rewrite (at2_map2 (fun bi bj => - (b + b) * (b + b - (bi + bj)) - 2 * (b - bi) * (b - bj)))
      by assumption.
    rewrite (at2_map2 (fun bi bj => 2 * b - bi - bj)) by assumption.
    rewrite !at1_map by assumption. ring.
  - f_equal. apply map_ext. intros bi. ring.
  - f_equal. apply map_ext. intros bi. ring.
  - eexists. split; [reflexivity|]. f_equal.
    rewrite map_map. apply map_ext. intros bi.
    rewrite map_map. apply map_ext. intros bj.
    rewrite map_map. apply map_ext. intros bk. ring.
Qed.

End CompositionDerivativeFacts.

(** ** PRMIX: construction *)

Section PengRobinsonFacts.

Import GCEOSMIX PengRobinson.

Lemma indexed_b_body_Ok (bs zs : list R) (i : nat) (b b' : R) :
  indexed_b_body bs zs i b = Ok b' ->
  (i < length bs)%nat /\ (i < length zs)%nat /\ b' = b + at1 bs i * at1 zs i.
Proof.
  unfold indexed_b_body. intros H.
  apply bind_Ok in H. destruct H as (bi & Hbi & H).
  apply bind_Ok in H. destruct H as (zi & Hzi & H). injection H as <-.
  apply getitem_Ok in Hbi, Hzi.
  split; [apply lookup_lt_is_Some_1; eauto|]. split; [apply lookup_lt_is_Some_1; eauto|].
  unfold at1. rewrite Hbi, Hzi. reflexivity.
Qed.

(** The index loop of [__init__] and the [zip] loop of [_fast_init_specific]
    add up the same products. *)
Lemma indexed_b_is_zipped_b (bs zs : list R) (b : R) :
  for_each (range 0 (length bs)) (indexed_b_body bs zs) 0 = Ok b ->
  (length bs <= length zs)%nat /\ b = zipped_b bs zs.
Proof.
  intros H.
  assert (Hlen : (length bs <= length zs)%nat).
  { destruct (decide (length bs = 0)%nat) as [->|Hne]; [lia|].
    destruct (for_each_Ok_each _ _ _ _ H (length bs - 1)%nat) as (t & t' & Ht).
    { apply elem_of_range. lia. }
    apply indexed_b_body_Ok in Ht. lia. }
  split; [exact Hlen|].
  apply (adding_loop _ (fun j => at1 bs j * at1 zs j)) in H.
  - rewrite H, zipped_b_sum, py_sum_sum_from, Nat.sub_0_r.
    rewrite length_zip_with, Nat.min_l by exact Hlen. rewrite Rplus_0_l.
    apply sum_from_ext. intros k Hk. symmetry. apply at1_zip_with; lia.
  - intros j x x' _ Hx. apply indexed_b_body_Ok in Hx. apply Hx.
Qed.

Variable c1 c2 R_gas : R.

Lemma init_Ok (Tcs Pcs omegas zs : list R) (kijs : option matrix) (T P : R)
    (V : option R) (obj : EOS.t) (extra : attrs) :
  init c1 c2 R_gas Tcs Pcs omegas zs kijs T P V = Ok (obj, extra) ->
  exists ais bs b,
    length bs = length Tcs /\
    for_each (range 0 (length Tcs)) (indexed_b_body bs zs) 0 = Ok b /\
    obj = EOS.mk (length Tcs) Tcs Pcs omegas
            (match kijs with Some k => k | None => zeros2 (length Tcs) end)
            (match kijs with Some k => k | None => zeros2 (length Tcs) end)
            ais bs zs T P V None None None None None None
            None None None (Some b) None None None None None /\
    extra = {| kappas := map (fun omega => omega * (-0.26992 * omega + 1.54226) + 0.37464)
                           omegas;
               delta := 2 * b; epsilon := - b * b |} /\
    (forall i, (i < length Tcs)%nat -> exists Pci, Pcs !! i = Some Pci /\ Pci <> 0).
Proof.
  unfold init. intros H.
  apply bind_Ok in H. destruct H as (ais & Hais & H).
  apply bind_Ok in H. destruct H as (bs & Hbs & H).
  apply bind_Ok in H. destruct H as (b & Hb & H).
  injection H as <- <-. exists ais, bs, b.
  split. { rewrite (map_res_length _ _ _ Hbs), length_range. lia. }
  split; [exact Hb|]. split; [reflexivity|]. split; [reflexivity|].
  intros i Hi.
  destruct (map_res_Ok_each _ _ _ Hbs i) as [y Hy]. { apply elem_of_range. lia. }
  apply bind_Ok in Hy. destruct Hy as (Tci & _ & Hy).
  apply bind_Ok in Hy. destruct Hy as (Pci & HPci & Hy).
  apply getitem_Ok in HPci. exists Pci. split; [exact HPci|].
  unfold fdiv in Hy. destruct (Req_dec_T Pci 0); [discriminate Hy | assumption].
Qed.

(** X15. [__init__] goes through exactly when [Pcs] and [zs] have an entry for
    each of the [len(Tcs)] components and none of these critical pressures is
    zero. *)
Theorem init_returns_iff (Tcs Pcs omegas zs : list R) (kijs : option matrix) (T P : R)
    (V : option R) :
  (exists r, init c1 c2 R_gas Tcs Pcs omegas zs kijs T P V = Ok r) <->
  (length Tcs <= length Pcs)%nat /\ (length Tcs <= length zs)%nat /\
  (forall i Pci, (i < length Tcs)%nat -> Pcs !! i = Some Pci -> Pci <> 0).
Proof.
  split.
  - intros [[obj extra] H]. apply init_Ok in H.
    destruct H as (ais & bs & b & Hlen & Hb & _ & _ & HP).
    rewrite <- Hlen in Hb. apply indexed_b_is_zipped_b in Hb. destruct Hb as [Hzs _].
    split; [|split; [lia|]].
    + destruct (decide (length Tcs = 0)%nat) as [->|Hne]; [lia|].
      destruct (HP (length Tcs - 1)%nat ltac:(lia)) as (Pci & HPci & _).
      apply lookup_lt_Some in HPci. lia.
    + intros i Pci Hi HPci. destruct (HP i Hi) as (Pci' & HPci' & Hnz). congruence.
  - intros (HP & Hzs & Hnz). unfold init.
    destruct (map_res_total
                (fun i => Tci ← getitem Tcs i; Tci' ← getitem Tcs i; Pci ← getitem Pcs i;
                          fdiv (c1 * (R_gas * R_gas) * Tci * Tci') Pci)
                (range 0 (length Tcs))) as (ais & -> & _).
    { intros i Hi. apply elem_of_range in Hi.
      destruct (getitem_lt Tcs i ltac:(lia)) as (Tci & -> & _).
      destruct (getitem_lt Pcs i ltac:(lia)) as (Pci & -> & HPci).
      cbn [mbind res_bind bind]. rewrite fdiv_nonzero by (apply (Hnz i); [lia | exact HPci]).
      eexists. reflexivity. }
    cbn [mbind res_bind bind].
    destruct (map_res_total
                (fun i => Tci ← getitem Tcs i; Pci ← getitem Pcs i; fdiv (c2 * R_gas * Tci) Pci)
                (range 0 (length Tcs))) as (bs & -> & Hbs).
    { intros i Hi. apply elem_of_range in Hi.
      destruct (getitem_lt Tcs i ltac:(lia)) as (Tci & -> & _).
      destruct (getitem_lt Pcs i ltac:(lia)) as (Pci & -> & HPci).
      cbn [mbind res_bind bind]. rewrite fdiv_nonzero by (apply (Hnz i); [lia | exact HPci]).
      eexists. reflexivity. }
    cbn [mbind res_bind bind]. rewrite length_range, Nat.sub_0_r in Hbs.
    destruct (for_each_range_total (fun _ _ => True) (indexed_b_body bs zs) 0 (length Tcs)
                ltac:(lia)) with (s := 0) as (b & -> & _); [|exact I|].
    { intros i t Hi _. unfold indexed_b_body.
      destruct (getitem_lt bs i ltac:(lia)) as (bi & -> & _).
      destruct (getitem_lt zs i ltac:(lia)) as (zi & -> & _).
      cbn [mbind res_bind bind]. eexists. split; [reflexivity | exact I]. }
    cbn [mbind res_bind bind]. eexists. reflexivity.
Qed.

(** X16. Running the fast initialisation on a freshly constructed state changes
    nothing: it finds again the [b], [delta] and [epsilon] that [__init__]
    has stored. *)
Theorem fast_init_keeps_a_constructed_state (Tcs Pcs omegas zs : list R)
    (kijs : option matrix) (T P : R) (V : option R) (obj : EOS.t) (extra : attrs) :
  init c1 c2 R_gas Tcs Pcs omegas zs kijs T P V = Ok (obj, extra) ->
  _fast_init_specific obj extra = (obj, extra).
Proof.
  intros H. apply init_Ok in H.
  destruct H as (ais & bs & b & Hlen & Hb & -> & -> & _).
  rewrite <- Hlen in Hb. apply indexed_b_is_zipped_b in Hb. destruct Hb as [_ ->].
  reflexivity.
Qed.

End PengRobinsonFacts.

(** ** PRMIX: the pure-component alpha functions and their derivatives *)

Section AlphaFunctionFacts.

Import GCEOSMIX PengRobinson.

Lemma pow_neg_half_positive (x : R) : 0 < x -> pow_neg_half x = Ok (1 / sqrt x).
Proof.
  intros Hx. unfold pow_neg_half.
  destruct (Rlt_dec x 0); [lra|]. destruct (Req_dec_T x 0); [lra | reflexivity].
Qed.

Lemma pow_half_positive (x : R) : 0 < x -> pow_half x = Ok (sqrt x).
Proof. intros Hx. unfold pow_half. destruct (Rlt_dec x 0); [lra | reflexivity]. Qed.

(** The loop of the [full] branch appends one entry per zipped component. *)
Lemma alpha_full_loop_spec (T : R) (ais kappas Tcs A D D2 : list R) :
  Forall (fun Tc => 0 < Tc) Tcs ->
  exists A' D' D2',
    alpha_full_loop (sqrt T) (1 / sqrt T) (0.5 * (1 / T)) (0.5 * (1 / sqrt T * (1 / T)))
      ais kappas Tcs (A, D, D2)
    = Ok (A ++ A', D ++ D', D2 ++ D2') /\
    forall i a kappa Tc,
      ais !! i = Some a -> kappas !! i = Some kappa -> Tcs !! i = Some Tc ->
      A' !! i = Some (a_alpha_entry a kappa Tc T) /\
      D' !! i = Some (da_alpha_dT_entry a kappa Tc T) /\
      D2' !! i = Some (d2a_alpha_dT2_entry a kappa Tc T).
Proof.
  intros Hpos. revert ais kappas A D D2.
  induction Hpos as [|Tc Tcs HTc _ IH]; intros ais kappas A D D2.
  - exists [], [], []. rewrite !app_nil_r.
    split; [destruct ais, kappas; reflexivity|].
    intros i a kappa Tc _ _ H. rewrite lookup_nil in H. discriminate H.
  - destruct ais as [|a ais]; [|destruct kappas as [|kappa kappas]].
    + exists [], [], []. rewrite !app_nil_r. split; [reflexivity|].
      intros i a kappa Tc' H. rewrite lookup_nil in H. discriminate H.
    + exists [], [], []. rewrite !app_nil_r. split; [reflexivity|].
      intros i a' kappa Tc' _ H. rewrite lookup_nil in H. discriminate H.
    + cbn [alpha_full_loop]. rewrite (pow_neg_half_positive Tc HTc).
      cbn [mbind res_bind bind].
      destruct (IH ais kappas
                  (A ++ [a_alpha_entry a kappa Tc T])
                  (D ++ [da_alpha_dT_entry a kappa Tc T])
                  (D2 ++ [d2a_alpha_dT2_entry a kappa Tc T]))
        as (A' & D' & D2' & Hloop & Hat).
      exists (a_alpha_entry a kappa Tc T :: A'), (da_alpha_dT_entry a kappa Tc T :: D'),
        (d2a_alpha_dT2_entry a kappa Tc T :: D2').
      split.
      * unfold a_alpha_entry, da_alpha_dT_entry, d2a_alpha_dT2_entry, x2_at in Hloop |- *.
        rewrite Hloop, <- !app_assoc. reflexivity.
      * intros [|i] a' kappa' Tc' H1 H2 H3.
        -- injection H1 as <-. injection H2 as <-. injection H3 as <-. auto.
        -- apply (Hat i a' kappa' Tc' H1 H2 H3).
Qed.

Lemma vectorized_full_values (self : EOS.t) (extra : attrs) (T : R) :
  0 < T -> Forall (fun Tc => 0 < Tc) (EOS.Tcs self) ->
  exists A D D2,
    vectorized_full self extra T = Ok (A, D, D2) /\
    forall i a kappa Tc,
      EOS.ais self !! i = Some a -> kappas extra !! i = Some kappa ->
      EOS.Tcs self !! i = Some Tc ->
      at1 A i = a_alpha_entry a kappa Tc T /\
      at1 D i = da_alpha_dT_entry a kappa Tc T /\
      at1 D2 i = d2a_alpha_dT2_entry a kappa Tc T.
Proof.
  intros HT Hpos. unfold vectorized_full.
  assert (Hroot : sqrt T <> 0) by (pose proof (sqrt_lt_R0 T HT); lra).
  rewrite (fdiv_nonzero 1 T) by lra. cbn [mbind res_bind bind].
  rewrite (pow_half_positive T HT). cbn [mbind res_bind bind].
  rewrite (fdiv_nonzero 1 (sqrt T) Hroot). cbn [mbind res_bind bind].
  destruct (alpha_full_loop_spec T (EOS.ais self) (kappas extra) (EOS.Tcs self) [] [] [] Hpos)
    as (A & D & D2 & -> & Hat).
  cbn [app]. exists A, D, D2. split; [reflexivity|].
  intros i a kappa Tc H1 H2 H3. destruct (Hat i a kappa Tc H1 H2 H3) as (HA & HD & HD2).
  unfold at1. rewrite HA, HD, HD2. auto.
Qed.

Lemma vectorized_full_spec (self : EOS.t) (extra : attrs) (T : R) :
  0 < T -> Forall (fun Tc => 0 < Tc) (EOS.Tcs self) ->
  exists A D D2,
    a_alpha_and_derivatives_vectorized self extra T true
    = Ok (AlphasAndDerivatives A D D2) /\
    forall i a kappa Tc,
      EOS.ais self !! i = Some a -> kappas extra !! i = Some kappa ->
      EOS.Tcs self !! i = Some Tc ->
      at1 A i = a_alpha_entry a kappa Tc T /\
      at1 D i = da_alpha_dT_entry a kappa Tc T /\
      at1 D2 i = d2a_alpha_dT2_entry a kappa Tc T.
Proof.
  intros HT Hpos.
  destruct (vectorized_full_values self extra T HT Hpos) as (A & D & D2 & H & Hat).
  exists A, D, D2. split; [|exact Hat].
  unfold a_alpha_and_derivatives_vectorized. cbn [negb]. rewrite H. reflexivity.
Qed.

Lemma a_alpha_entry_is_alpha_PR (a kappa Tc T : R) :
  0 <= T -> 0 < Tc -> a_alpha_entry a kappa Tc T = alpha_PR a kappa Tc T.
Proof.
  intros HT HTc. unfold a_alpha_entry, x2_at, alpha_PR.
  rewrite (sqrt_div_alt T Tc HTc). unfold Rdiv. ring.
Qed.

(** X17. With [full] set, at a positive temperature and for positive critical
    temperatures, the call returns, and each [a_alpha] it lists is the alpha
    function of Peng and Robinson, a*[1 + kappa*(1 - sqrt(T/Tc))]^2, which at
    the component's own critical temperature is [a] itself. *)
Theorem vectorized_alpha_is_Peng_Robinson (self : EOS.t) (extra : attrs) (T : R) :
  0 < T -> Forall (fun Tc => 0 < Tc) (EOS.Tcs self) ->
  exists a_alphas da_alpha_dTs d2a_alpha_dT2s,
    a_alpha_and_derivatives_vectorized self extra T true
    = Ok (AlphasAndDerivatives a_alphas da_alpha_dTs d2a_alpha_dT2s) /\
    forall i a kappa Tc,
      EOS.ais self !! i = Some a -> kappas extra !! i = Some kappa ->
      EOS.Tcs self !! i = Some Tc ->
      at1 a_alphas i = alpha_PR a kappa Tc T /\
      (Tc = T -> at1 a_alphas i = a).
Proof.
  intros HT Hpos.
  destruct (vectorized_full_spec self extra T HT Hpos) as (A & D & D2 & Hv & Hat).
  exists A, D, D2. split; [exact Hv|].
  intros i a kappa Tc H1 H2 H3. destruct (Hat i a kappa Tc H1 H2 H3) as (HA & _).
  pose proof (Forall_lookup_1 _ _ _ _ Hpos H3) as HTc. simpl in HTc.
  rewrite HA, a_alpha_entry_is_alpha_PR by lra. split; [reflexivity|].
  intros ->. unfold alpha_PR. unfold Rdiv. rewrite Rinv_r by lra. rewrite sqrt_1. ring.
Qed.

(** *** The derivatives with respect to the temperature *)

Lemma x2_at_derivative (kappa Tc T : R) :
  0 < T ->
  derivable_pt_lim (x2_at kappa Tc) T (kappa * (1 / sqrt Tc) * / (2 * sqrt T)).
Proof.
  intros HT.
  apply (derivable_pt_lim_ext
           (fun t => (fun s => kappa * (s * (1 / sqrt Tc) - 1) - 1) (sqrt t))).
  { intros t. reflexivity. }
  pose proof (derivable_pt_lim_sqrt T HT) as Hs.
  apply (derivable_pt_lim_ext
           (comp (fun s => kappa * (s * (1 / sqrt Tc) - 1) - 1) sqrt)).
  { intros t. reflexivity. }
  apply derivable_pt_lim_comp; [exact Hs|].
  apply (derivable_pt_lim_ext
           (plus_fct (mult_real_fct (kappa * (1 / sqrt Tc)) id) (fct_cte (- kappa - 1)))).
  { intros s. unfold plus_fct, mult_real_fct, fct_cte, id. ring. }
  replace (kappa * (1 / sqrt Tc)) with (kappa * (1 / sqrt Tc) * 1 + 0) at 2 by ring.
  apply derivable_pt_lim_plus.
  - apply derivable_pt_lim_scal, derivable_pt_lim_id.
  - apply derivable_pt_lim_const.
Qed.

Lemma a_alpha_entry_derivative (a kappa Tc T : R) :
  0 < T ->
  derivable_pt_lim (a_alpha_entry a kappa Tc) T (da_alpha_dT_entry a kappa Tc T).
Proof.
  intros HT. pose proof (x2_at_derivative kappa Tc T HT) as H2.
  pose proof (sqrt_lt_R0 T HT) as Hroot.
  apply (derivable_pt_lim_ext
           (mult_real_fct a (mult_fct (x2_at kappa Tc) (x2_at kappa Tc)))).
  { intros t. unfold mult_real_fct, mult_fct, a_alpha_entry. ring. }
  replace (da_alpha_dT_entry a kappa Tc T)
    with (a * (kappa * (1 / sqrt Tc) * / (2 * sqrt T) * x2_at kappa Tc T
               + x2_at kappa Tc T * (kappa * (1 / sqrt Tc) * / (2 * sqrt T)))).
  - apply derivable_pt_lim_scal, derivable_pt_lim_mult; exact H2.
  - unfold da_alpha_dT_entry.
    generalize (1 / sqrt Tc) as c, (x2_at kappa Tc T) as x. intros c x. field. lra.
Qed.

Lemma da_alpha_dT_entry_derivative (a kappa Tc T : R) :
  0 < T ->
  derivable_pt_lim (da_alpha_dT_entry a kappa Tc) T (d2a_alpha_dT2_entry a kappa Tc T).
Proof.
  intros HT. pose proof (x2_at_derivative kappa Tc T HT) as H2.
  pose proof (derivable_pt_lim_sqrt T HT) as Hs.
  pose proof (sqrt_lt_R0 T HT) as Hroot.
  apply (derivable_pt_lim_ext
           (mult_real_fct (1 / sqrt Tc * (a * kappa)) (div_fct (x2_at kappa Tc) sqrt))).
  { intros t. unfold mult_real_fct, div_fct, da_alpha_dT_entry. unfold Rdiv. ring. }
  replace (d2a_alpha_dT2_entry a kappa Tc T)
    with (1 / sqrt Tc * (a * kappa)
          * ((kappa * (1 / sqrt Tc) * / (2 * sqrt T) * sqrt T
              - / (2 * sqrt T) * x2_at kappa Tc T) / Rsqr (sqrt T))).
  - apply derivable_pt_lim_scal, derivable_pt_lim_div; [exact H2 | exact Hs | lra].
  - rewrite Rsqr_sqrt by lra. unfold d2a_alpha_dT2_entry.
    assert (HTs : T = sqrt T * sqrt T) by (symmetry; apply sqrt_sqrt; lra).
    revert HTs Hroot. generalize (1 / sqrt Tc) as c, (x2_at kappa Tc T) as x, (sqrt T) as s.
    intros c x s HTs Hs0. rewrite HTs. replace 0.5 with (1 / 2) by lra. field. lra.
Qed.

(** X18. With [full] set, the second and the third list are what their names say:
    at a positive temperature, for each component, the entry of
    [da_alpha_dTs] is the derivative with respect to the temperature of the
    entry of [a_alphas], and the entry of [d2a_alpha_dT2s] is the derivative
    of the entry of [da_alpha_dTs]. *)
Theorem vectorized_derivatives_are_derivatives (self : EOS.t) (extra : attrs) (T : R)
    (i : nat) (a kappa Tc : R) :
  0 < T -> Forall (fun Tc => 0 < Tc) (EOS.Tcs self) ->
  EOS.ais self !! i = Some a -> kappas extra !! i = Some kappa ->
  EOS.Tcs self !! i = Some Tc ->
  derivable_pt_lim (a_alpha_at self extra i) T (da_alpha_dT_at self extra i T) /\
  derivable_pt_lim (da_alpha_dT_at self extra i) T (d2a_alpha_dT2_at self extra i T).
Proof.
  intros HT Hpos H1 H2 H3.
  assert (Hat : forall t, 0 < t ->
            a_alpha_at self extra i t = a_alpha_entry a kappa Tc t /\
            da_alpha_dT_at self extra i t = da_alpha_dT_entry a kappa Tc t /\
            d2a_alpha_dT2_at self extra i t = d2a_alpha_dT2_entry a kappa Tc t).
  { intros t Ht. unfold a_alpha_at, da_alpha_dT_at, d2a_alpha_dT2_at.
    destruct (vectorized_full_spec self extra t Ht Hpos) as (A & D & D2 & -> & Hi).
    apply (Hi i a kappa Tc H1 H2 H3). }
  destruct (Hat T HT) as (_ & -> & ->). split.
  - apply (derivable_pt_lim_locally_ext (a_alpha_entry a kappa Tc) _ T 0 (T + 1));
      [lra | | apply a_alpha_entry_derivative; exact HT].
    intros t Ht. symmetry. apply Hat. lra.
  - apply (derivable_pt_lim_locally_ext (da_alpha_dT_entry a kappa Tc) _ T 0 (T + 1));
      [lra | | apply da_alpha_dT_entry_derivative; exact HT].
    intros t Ht. symmetry. apply Hat. lra.
Qed.

(** *** The branch for [a_alphas] alone *)

Lemma alpha_only_value (ais kappas Tcs : list R) (T : R) (i : nat) (a kappa Tc : R) :
  ais !! i = Some a -> kappas !! i = Some kappa -> Tcs !! i = Some Tc -> 0 < Tc ->
  alpha_only ais kappas Tcs T i
  = Ok (a * (1 + kappa * (1 - T * (1 / sqrt Tc))) * (1 + kappa * (1 - T * (1 / sqrt Tc)))).
Proof.
  intros H1 H2 H3 HTc. unfold alpha_only.
  rewrite (proj2 (getitem_Ok _ _ _) H3). cbn [mbind res_bind bind].
  rewrite (pow_neg_half_positive Tc HTc). cbn [mbind res_bind bind].
  rewrite (proj2 (getitem_Ok _ _ _) H2). cbn [mbind res_bind bind].
  rewrite (proj2 (getitem_Ok _ _ _) H1). reflexivity.
Qed.

(** X19. Without [full] the call computes another function: it multiplies [T],
    not its square root, by [Tc**-0.5], so that each entry it returns is
    a*[1 + kappa*(1 - T/sqrt(Tc))]^2; at the component's own critical
    temperature this is a*[1 + kappa*(1 - sqrt(Tc))]^2 and not [a], the value
    of the [full] branch. *)
Theorem vectorized_alpha_without_full_differs (self : EOS.t) (extra : attrs) (T : R)
    (a_alphas : list R) (i : nat) (a kappa Tc : R) :
  a_alpha_and_derivatives_vectorized self extra T false = Ok (Alphas a_alphas) ->
  (i < EOS.N self)%nat -> 0 < Tc ->
  EOS.ais self !! i = Some a -> kappas extra !! i = Some kappa ->
  EOS.Tcs self !! i = Some Tc ->
  at1 a_alphas i
  = a * (1 + kappa * (1 - T / sqrt Tc)) * (1 + kappa * (1 - T / sqrt Tc)) /\
  (Tc = T ->
   at1 a_alphas i = a * (1 + kappa * (1 - sqrt Tc)) * (1 + kappa * (1 - sqrt Tc))) /\
  (Tc = T -> a <> 0 -> kappa <> 0 -> Tc <> 1 -> kappa * (1 - sqrt Tc) <> -2 ->
   at1 a_alphas i <> a).
Proof.
  intros H Hi HTc H1 H2 H3. unfold a_alpha_and_derivatives_vectorized in H. cbn [negb] in H.
  apply bind_Ok in H. destruct H as (l & Hl & H). injection H as <-.
  destruct (lookup_map_res _ _ _ i i Hl) as (y & Hy & Hly).
  { unfold range. rewrite Nat.sub_0_r. apply lookup_seq_lt. exact Hi. }
  rewrite (alpha_only_value _ _ _ T i a kappa Tc H1 H2 H3 HTc) in Hy. injection Hy as <-.
  assert (Hval : at1 l i
                 = a * (1 + kappa * (1 - T / sqrt Tc)) * (1 + kappa * (1 - T / sqrt Tc))).
  { unfold at1. rewrite Hly. change (default 0 (Some ?v)) with v. unfold Rdiv. ring. }
  pose proof (sqrt_lt_R0 Tc HTc) as Hroot.
  assert (Hcrit : Tc = T -> T / sqrt Tc = sqrt Tc).
  { intros <-. rewrite <- (sqrt_sqrt Tc) at 1 by lra. field. lra. }
  split; [exact Hval|]. split.
  - intros HT. rewrite Hval, (Hcrit HT). reflexivity.
  - intros HT Ha Hk H1' Hm2. rewrite Hval, (Hcrit HT). intros Heq.
    assert (Hs1 : sqrt Tc <> 1).
    { intros Hs. apply H1'. rewrite <- (sqrt_sqrt Tc) by lra. rewrite Hs. ring. }
    assert (Hprod : a * ((kappa * (1 - sqrt Tc)) * (kappa * (1 - sqrt Tc) + 2)) = 0) by lra.
    apply Rmult_integral in Hprod. destruct Hprod as [Hz|Hz]; [contradiction|].
    apply Rmult_integral in Hz. destruct Hz as [Hz|Hz]; [|lra].
    apply Rmult_integral in Hz. destruct Hz as [Hz|Hz]; [contradiction | lra].
Qed.

End AlphaFunctionFacts.

(** ** The fugacity sum terms and the composition derivatives of [a_alpha] *)

Section SumTermFacts.

Import GCEOSMIX MixingRuleSpec CompositionDerivatives.

Section Row.

Variable N : nat.
Variable zs : list R.
Variable l : list R.
Variable i : nat.
Hypothesis zs_length : length zs = N.
Hypothesis l_length : length l = N.
Hypothesis i_bound : (i < N)%nat.



End Row.








End SumTermFacts.

(** ** The full mixing rule with temperature derivatives *)

Section FullMixingRuleFacts.

Import MixingRule MixingRuleSpec GCEOSMIX.

(** The sum over the lower triangle, taken twice, plus the diagonal: the
    order in which [a_alpha_and_derivatives_full] adds the terms. *)
Lemma lower_triangle_sum (f : nat -> nat -> R) (n : nat) :
  (forall i j, (i < n)%nat -> (j < n)%nat -> f i j = f j i) ->
  sum_from 0 n (fun i => sum_from 0 i (fun j => f i j + f i j) + f i i)
  = sum_from 0 n (fun i => sum_from 0 n (fun j => f i j)).
Proof.
  induction n as [|n IH]; intros Hsym.
  - reflexivity.
  - cbn [sum_from Nat.add]. rewrite IH by (intros i j Hi Hj; apply Hsym; lia).
    rewrite (sum_from_plus 0 n (fun i => sum_from 0 n (fun j => f i j)) (fun i => f i n)).
    rewrite (sum_from_plus 0 n (fun j => f n j) (fun j => f n j)).
    rewrite (sum_from_ext 0 n (fun i => f i n) (fun j => f n j))
      by (intros i Hi; apply Hsym; lia).
    lra.
Qed.

Lemma lookup_range (N i : nat) : (i < N)%nat -> range 0 N !! i = Some i.
Proof. intros Hi. unfold range. rewrite Nat.sub_0_r. apply lookup_seq_lt. exact Hi. Qed.

Lemma z_products_of_spec (N : nat) (zs : list R) (z_products : matrix) :
  z_products_of N zs = Ok z_products ->
  forall i j, (i < N)%nat -> (j < N)%nat ->
    at2 z_products i j = at1 zs i * at1 zs j.
Proof.
  intros H i j Hi Hj. unfold z_products_of in H.
  destruct (lookup_map_res _ _ _ i i H (lookup_range N i Hi)) as (row & Hrow & Hlook).
  destruct (lookup_map_res _ _ _ j j Hrow (lookup_range N j Hj)) as (v & Hv & Hlook').
  apply bind_Ok in Hv. destruct Hv as (zi & Hzi & Hv).
  apply bind_Ok in Hv. destruct Hv as (zj & Hzj & Hv). injection Hv as <-.
  apply getitem_at1 in Hzi, Hzj.
  unfold at2. rewrite Hlook. change (default [] (Some row)) with row.
  unfold at1 at 1. rewrite Hlook'. rewrite Hzi, Hzj. reflexivity.
Qed.

Lemma full_sum_body_partial (a_alpha_ijs z_products : matrix) (zs : list R) (N i : nat)
    (acc acc' : R) :
  (i < N)%nat ->
  (forall p q, (p < N)%nat -> (q < N)%nat -> at2 z_products p q = at1 zs p * at1 zs q) ->
  full_sum_body a_alpha_ijs z_products i acc = Ok acc' ->
  acc' = acc + (sum_from 0 i
                  (fun j => weighted a_alpha_ijs zs i j + weighted a_alpha_ijs zs i j)
                + weighted a_alpha_ijs zs i i).
Proof.
  intros Hi Hz H. unfold full_sum_body in H.
  apply bind_Ok in H. destruct H as (row & Hrow & H).
  apply bind_Ok in H. destruct H as (zrow & Hzrow & H).
  apply bind_Ok in H. destruct H as (acc1 & Hloop & H).
  apply bind_Ok in H. destruct H as (aii & Haii & H).
  apply bind_Ok in H. destruct H as (zz & Hzz & H).
  injection H as <-.
  apply getitem_Ok in Hrow, Hzrow. apply getitem_at1 in Haii, Hzz.
  assert (Hat : forall j, at2 a_alpha_ijs i j = at1 row j).
  { intros j. unfold at2. rewrite Hrow. reflexivity. }
  assert (Hzat : forall j, at2 z_products i j = at1 zrow j).
  { intros j. unfold at2. rewrite Hzrow. reflexivity. }
  apply (adding_loop _ (fun j => weighted a_alpha_ijs zs i j + weighted a_alpha_ijs zs i j))
    in Hloop.
  - assert (Hd : weighted a_alpha_ijs zs i i = aii * zz).
    { unfold weighted. rewrite (Hat i), Haii, <- Hzz, <- Hzat, (Hz i i Hi Hi). ring. }
    rewrite Hloop, Nat.sub_0_r, Hd. lra.
  - intros j x x' Hj Hx. unfold lower_body in Hx.
    apply bind_Ok in Hx. destruct Hx as (aij & Haij & Hx).
    apply bind_Ok in Hx. destruct Hx as (zij & Hzij & Hx).
    injection Hx as <-. apply getitem_at1 in Haij, Hzij.
    unfold weighted. rewrite Hat, Haij, <- Hzij, <- Hzat, (Hz i j) by lia. ring.
Qed.

Lemma full_accumulate_partial (a_alpha_ijs z_products : matrix) (zs : list R) (N : nat)
    (a_alpha : R) :
  (forall p q, (p < N)%nat -> (q < N)%nat -> at2 z_products p q = at1 zs p * at1 zs q) ->
  for_each (range 0 N) (full_sum_body a_alpha_ijs z_products) 0 = Ok a_alpha ->
  a_alpha = sum_from 0 N (fun i =>
    sum_from 0 i (fun j => weighted a_alpha_ijs zs i j + weighted a_alpha_ijs zs i j)
    + weighted a_alpha_ijs zs i i).
Proof.
  intros Hz H. apply (adding_loop _ (fun i =>
    sum_from 0 i (fun j => weighted a_alpha_ijs zs i j + weighted a_alpha_ijs zs i j)
    + weighted a_alpha_ijs zs i i)) in H.
  - rewrite H, Nat.sub_0_r. lra.
  - intros i x x' Hi Hx. apply (full_sum_body_partial _ _ _ N i _ _ ltac:(lia) Hz Hx).
Qed.

(** X22. A call of the full routine that returns has returned the [a_alpha] and
    the pairwise matrix that [a_alpha_and_derivatives] returns for the same
    arguments: the one sums the matrix below the diagonal, the other above
    it. *)
Theorem full_and_plain_mixing_rules_agree (a_alphas da_alpha_dTs d2a_alpha_dT2s : list R)
    (T : R) (zs : list R) (kijs : matrix) (second_derivative : bool)
    (a_alpha da_alpha_dT d2a_alpha_dT2 : R) (d2_ijs : option matrix) (da_ijs ijs : matrix) :
  length zs = length a_alphas ->
  a_alpha_and_derivatives_full a_alphas da_alpha_dTs d2a_alpha_dT2s T zs kijs
    None None None second_derivative
  = Ok (a_alpha, da_alpha_dT, d2a_alpha_dT2, d2_ijs, da_ijs, ijs) ->
  a_alpha_and_derivatives a_alphas T zs kijs None None None = Ok (a_alpha, None, ijs).
Proof.
  intros Hzs H. unfold a_alpha_and_derivatives_full in H.
  apply bind_Ok in H. destruct H as ([[ijs' roots] inv] & Hci & H).
  apply bind_Ok in H. destruct H as (zp & Hzp & H).
  apply bind_Ok in H. destruct H as (a & Hacc & H).
  apply bind_Ok in H. destruct H as ([[[d1 d2] m1] m2] & _ & H).
  injection H as <- _ _ _ _ <-.
  unfold a_alpha_and_derivatives. rewrite Hci. cbn [mbind res_bind bind].
  apply (composition_independent_partial _ reciprocal_value) in Hci as Hspec;
    [|exact reciprocal_value_spec].
  destruct Hspec as (Hm & _ & _ & _ & _ & Hijs & _).
  destruct (accumulate_total (length a_alphas) ijs' zs Hm Hzs) as [a' Ha'].
  rewrite Ha'. cbn [mbind res_bind bind]. repeat f_equal.
  apply accumulate_partial in Ha'.
  apply (full_accumulate_partial _ _ zs _ _ (z_products_of_spec _ _ _ Hzp)) in Hacc.
  assert (Hsym : forall i j, (i < length a_alphas)%nat -> (j < length a_alphas)%nat ->
                   weighted ijs' zs i j = weighted ijs' zs j i).
  { intros i j Hi Hj. unfold weighted.
    rewrite (Hijs i j Hi Hj), (Hijs j i Hj Hi), ijs_entry_sym. ring. }
  rewrite Ha', Hacc, (triangle_sum _ _ Hsym), (lower_triangle_sum _ _ Hsym). reflexivity.
Qed.

(** *** A pure-component attraction value of zero *)

(** The pair [(i, i)] of the derivative loops divides by
    [x0_05_inv*x0*x0] with [x0 = a_alphas[i]**2]. *)
Lemma deriv_pair_zero (a_alphas da_alpha_dTs d2a_alpha_dT2s kijs_i inv_i z_products_i : list R)
    (da_i d2a_i : R) (i : nat) (s s' : deriv_state) :
  a_alphas !! i = Some 0 ->
  deriv_pair a_alphas da_alpha_dTs d2a_alpha_dT2s kijs_i inv_i z_products_i
    0 da_i d2a_i i i s <> Ok s'.
Proof.
  intros Hzero H. destruct s as [[[da d2a] m1] m2]. unfold deriv_pair in H.
  rewrite Nat.ltb_irrefl in H.
  apply bind_Ok in H. destruct H as (aj & Haj & H).
  apply getitem_Ok in Haj. rewrite Hzero in Haj. injection Haj as <-.
  apply bind_Ok in H. destruct H as (x0_05_inv & _ & H).
  apply bind_Ok in H. destruct H as (zi_zj & _ & H).
  apply bind_Ok in H. destruct H as (da_j & _ & H).
  apply bind_Ok in H. destruct H as (kij & _ & H).
  apply bind_Ok in H. destruct H as (m1' & _ & H).
  apply bind_Ok in H. destruct H as (m1'' & _ & H).
  apply bind_Ok in H. destruct H as (d2a_j & _ & H).
  apply bind_Ok in H. destruct H as (q & Hq & _).
  unfold fdiv in Hq.
  destruct (Req_dec_T (x0_05_inv * (0 * 0) * (0 * 0)) 0) as [_|Hne]; [discriminate Hq|].
  apply Hne. ring.
Qed.

Lemma derivative_loops_zero (sd : bool) (a_alphas da_alpha_dTs d2a_alpha_dT2s : list R)
    (kijs inv z_products : matrix) (i : nat) (s : deriv_state) :
  a_alphas !! i = Some 0 ->
  derivative_loops sd a_alphas da_alpha_dTs d2a_alpha_dT2s kijs inv z_products <> Ok s.
Proof.
  intros Hzero H. unfold derivative_loops in H.
  assert (Hi : (i < length a_alphas)%nat) by (apply lookup_lt_is_Some_1; eauto).
  destruct (for_each_Ok_each _ _ _ _ H i) as (t & t' & Hrow).
  { apply elem_of_range. lia. }
  unfold deriv_row in Hrow.
  apply bind_Ok in Hrow. destruct Hrow as (kijs_i & _ & Hrow).
  apply bind_Ok in Hrow. destruct Hrow as (ai & Hai & Hrow).
  apply getitem_Ok in Hai. rewrite Hzero in Hai. injection Hai as <-.
  apply bind_Ok in Hrow. destruct Hrow as (zp_i & _ & Hrow).
  apply bind_Ok in Hrow. destruct Hrow as (da_i & _ & Hrow).
  apply bind_Ok in Hrow. destruct Hrow as (d2a_i & _ & Hrow).
  apply bind_Ok in Hrow. destruct Hrow as (inv_i & _ & Hrow).
  apply bind_Ok in Hrow. destruct Hrow as (row_i & _ & Hrow).
  destruct (for_each_Ok_each _ _ _ _ Hrow i) as (u & u' & Hpair).
  { apply elem_of_range. lia. }
  exact (deriv_pair_zero _ _ _ _ _ _ _ _ _ _ _ Hzero Hpair).
Qed.

Lemma full_zero (a_alphas da_alpha_dTs d2a_alpha_dT2s : list R) (T : R) (zs : list R)
    (kijs : matrix) (c1 : option matrix) (c2 : option (list R)) (c3 : option matrix)
    (sd : bool) (i : nat) (r : full_result) :
  a_alphas !! i = Some 0 ->
  a_alpha_and_derivatives_full a_alphas da_alpha_dTs d2a_alpha_dT2s T zs kijs c1 c2 c3 sd
  <> Ok r.
Proof.
  intros Hzero H. unfold a_alpha_and_derivatives_full in H.
  apply bind_Ok in H. destruct H as ([[ijs roots] inv] & _ & H).
  apply bind_Ok in H. destruct H as (zp & _ & H).
  apply bind_Ok in H. destruct H as (a & _ & H).
  apply bind_Ok in H. destruct H as (s & Hs & _).
  exact (derivative_loops_zero _ _ _ _ _ _ _ i s Hzero Hs).
Qed.

(** X23. A pure-component [a_alpha] of exactly zero defeats the derivatives: the
    full routine divides by zero on that component's diagonal pair, with
    the divide-safe reciprocals too. With one component the method then falls
    back on the pure values; with any other number of components the names
    of the three tensors are left unassigned and the method raises
    UnboundLocalError, once the pairwise quantities have been obtained. *)
Theorem zero_a_alpha_defeats_the_derivatives (self : EOS.t)
    (a_alphas da_alpha_dTs d2a_alpha_dT2s : list R) (T : R) (quick : bool) (i : nat) :
  a_alphas !! i = Some 0 ->
  let out := a_alpha_and_derivatives_py self a_alphas da_alpha_dTs d2a_alpha_dT2s T
               true quick in
  (forall r, snd (pairwise_quantities self a_alphas T quick) = Raise r -> snd out = Raise r) /\
  (forall c, snd (pairwise_quantities self a_alphas T quick) = Ok c ->
     EOS.N self <> 1%nat -> snd out = Raise UnboundLocalError) /\
  (forall c a0 da0 d2a0, snd (pairwise_quantities self a_alphas T quick) = Ok c ->
     EOS.N self = 1%nat -> a_alphas !! 0%nat = Some a0 ->
     da_alpha_dTs !! 0%nat = Some da0 -> d2a_alpha_dT2s !! 0%nat = Some d2a0 ->
     snd out = Ok (Full a0 da0 d2a0)).
Proof.
  intros Hzero out. subst out. unfold a_alpha_and_derivatives_py.
  destruct (pairwise_quantities self a_alphas T quick) as [self' [[[ijs roots] inv]|e]] eqn:Hpq;
    cbn [snd].
  - assert (HN : EOS.N self' = EOS.N self).
    { unfold pairwise_quantities in Hpq.
      destruct quick.
      - destruct (cached_pairwise self (Reqb T (EOS.T self))) as [c|e0].
        + injection Hpq as <- _. reflexivity.
        + destruct (is_Attribute_or_AssertionError e0); [|discriminate Hpq].
          destruct (recomputed_pairwise true a_alphas (EOS.kijs self)) as [[[i' r'] v']|e1];
            [|discriminate Hpq].
          injection Hpq as <- _ _ _. reflexivity.
      - destruct (recomputed_pairwise false a_alphas (EOS.kijs self)) as [[[i' r'] v']|e1];
          [|discriminate Hpq].
        injection Hpq as <- _ _ _. destruct (Reqb T (EOS.T self)); reflexivity. }
    unfold finish_value.
    destruct (a_alpha_and_derivatives_full a_alphas da_alpha_dTs d2a_alpha_dT2s T
                (EOS.zs self') (EOS.kijs self') (Some ijs) (Some roots) (Some inv) true)
      as [r|e] eqn:Hfull.
    { exfalso. exact (full_zero _ _ _ _ _ _ _ _ _ _ i r Hzero Hfull). }
    cbn [mbind res_bind bind try_except any_exception]. rewrite HN.
    split; [intros r Hr; discriminate Hr|]. split.
    + intros c _ Hne.
      replace (EOS.N self =? 1)%nat with false by (symmetry; apply Nat.eqb_neq; exact Hne).
      reflexivity.
    + intros c a0 da0 d2a0 _ -> H0 H1 H2. cbn [Nat.eqb].
      rewrite (proj2 (getitem_Ok _ _ _) H0), (proj2 (getitem_Ok _ _ _) H1),
        (proj2 (getitem_Ok _ _ _) H2).
      reflexivity.
  - split; [intros r Hr; injection Hr as ->; reflexivity|]. split.
    + intros c Hc. discriminate Hc.
    + intros c a0 da0 d2a0 Hc. discriminate Hc.
Qed.

End FullMixingRuleFacts.

(** ** More on the stability iteration and the flash *)

Section IterationFacts.

Import GCEOSMIX.

Variable Wilson_K_value : R -> R -> R -> R -> R -> res R.
Variable flash_inner_loop : list R -> list R -> option R -> res (R * list R * list R).
Variable _fast_init_specific : EOS.t -> EOS.t -> res EOS.t.
Variable solve : EOS.t -> bool -> bool -> bool -> bool -> res EOS.t.
Variable fugacity_coefficients : EOS.t -> R -> list R -> res (list R).
Variable eos_fugacities_lowest_Gibbs : EOS.t -> res (list R * phase).

Lemma phase_eqb_true (p q : phase) : phase_eqb p q = true <-> p = q.
Proof. destruct p, q; simpl; split; intros H; try reflexivity; discriminate H. Qed.

(** A one-sided iteration that returns after a pass has either met the
    tolerance on that pass or ended in the phase of the reference. *)
Lemma trial_loop_Ok (self : EOS.t) (T P : R) (zs : list R) (liq : bool) (xtol : R)
    (fugacities_ref : list R) (ref_phase : phase) (maxiter r i : nat)
    (st st' : trial_state) :
  (i + r = maxiter)%nat ->
  trial_loop _fast_init_specific solve eos_fugacities_lowest_Gibbs self T P zs liq xtol
    fugacities_ref ref_phase maxiter r i st = Ok st' ->
  (r = O /\ st' = st) \/
  exists Ks_prev sum_zs_test trial_phase err,
    trial_step _fast_init_specific solve eos_fugacities_lowest_Gibbs self T P zs liq
      fugacities_ref Ks_prev = Ok (fst st', sum_zs_test, trial_phase, err) /\
    snd st' = Some (sum_zs_test, trial_phase) /\
    (err < xtol \/ trial_phase = ref_phase).
Proof.
  revert i st. induction r as [|r IH]; intros i st Hsync H.
  - left. simpl in H. injection H as <-. auto.
  - right. cbn [trial_loop] in H.
    apply bind_Ok in H. destruct H as ([[[Ks s] ph] err] & Hstep & H).
    destruct (Rltb err xtol) eqn:Herr.
    + injection H as <-. exists (fst st), s, ph, err.
      split; [exact Hstep|]. split; [reflexivity|]. left. apply Rltb_true. exact Herr.
    + destruct ((i =? maxiter - 1)%nat && negb (phase_eqb ref_phase ph)) eqn:Hlast;
        [discriminate H|].
      destruct (IH (S i) _ ltac:(lia) H) as [[Hr ->]|Hlater].
      * exists (fst st), s, ph, err. split; [exact Hstep|]. split; [reflexivity|]. right.
        apply andb_false_iff in Hlast. destruct Hlast as [Hi|Hph].
        -- apply Nat.eqb_neq in Hi. lia.
        -- apply negb_false_iff, phase_eqb_true in Hph. symmetry. exact Hph.
      * exact Hlater.
Qed.

(** X24. A one-sided stability iteration whose result says that the trial phase
    is not of the reference's type has converged: its last pass met the
    tolerance. *)
Theorem stability_trial_of_another_phase_has_converged (self : EOS.t) (T P : R)
    (zs : list R) (Ks_initial : option (list R)) (maxiter : nat) (xtol : R) (liq : bool)
    (sum_zs_test : R) (Ks : list R) :
  stabiliy_iteration_Michelsen Wilson_K_value _fast_init_specific solve
    eos_fugacities_lowest_Gibbs self T P zs Ks_initial maxiter xtol liq
  = Ok (sum_zs_test, Ks, false) ->
  exists fugacities_ref ref_phase Ks_prev trial_phase err,
    eos_fugacities_lowest_Gibbs self = Ok (fugacities_ref, ref_phase) /\
    trial_step _fast_init_specific solve eos_fugacities_lowest_Gibbs self T P zs liq
      fugacities_ref Ks_prev = Ok (Ks, sum_zs_test, trial_phase, err) /\
    trial_phase <> ref_phase /\ err < xtol.
Proof.
  intros H. unfold stabiliy_iteration_Michelsen in H.
  apply bind_Ok in H. destruct H as ([fref pref] & Href & H).
  apply bind_Ok in H. destruct H as (Ks0 & _ & H).
  apply bind_Ok in H. destruct H as ([Ks' last] & Hloop & H).
  apply trial_loop_Ok in Hloop; [|lia].
  destruct Hloop as [[_ Hst]|(Ks_prev & s & ph & err & Hstep & Hlast & Hwhy)].
  - injection Hst as -> ->. discriminate H.
  - cbn [fst snd] in Hstep, Hlast, H. rewrite Hlast in H. injection H as <- <- Hph.
    assert (Hne : ph <> pref).
    { intros ->. rewrite (proj2 (phase_eqb_true pref pref) eq_refl) in Hph. discriminate Hph. }
    exists fref, pref, Ks_prev, ph, err. split; [exact Href|]. split; [exact Hstep|].
    split; [exact Hne|]. destruct Hwhy as [Hlt|Heq]; [exact Hlt | contradiction].
Qed.



(** X26. With [maxiter = 0] no pass runs, and neither the flash nor the
    stability iteration has anything to return: once the preparation before
    the loop has gone through, each raises UnboundLocalError. *)
Theorem no_pass_no_result (self : EOS.t) (T P : R) (zs : list R)
    (Ks_initial : option (list R)) (xtol : R) (nc : bool)
    (Ks_extra : option (list (list R))) (xs0 ys0 : option (list R)) (tol : R)
    (info fa liq : bool) :
  (forall split,
     initial_split Wilson_K_value flash_inner_loop self Ks_initial Ks_extra xs0 ys0
     = Ok split ->
     sequential_substitution_VL Wilson_K_value flash_inner_loop _fast_init_specific solve
       fugacity_coefficients self Ks_initial 0 xtol nc Ks_extra xs0 ys0 tol info fa
     = Raise UnboundLocalError) /\
  (forall ref Ks,
     eos_fugacities_lowest_Gibbs self = Ok ref ->
     match Ks_initial with
     | None => wilson_Ks Wilson_K_value T P (EOS.Pcs self) (EOS.Tcs self) (EOS.omegas self)
     | Some Ks => Ok Ks
     end = Ok Ks ->
     stabiliy_iteration_Michelsen Wilson_K_value _fast_init_specific solve
       eos_fugacities_lowest_Gibbs self T P zs Ks_initial 0 xtol liq
     = Raise UnboundLocalError).
Proof.
  split.
  - intros [[V x] y] Hsplit. unfold sequential_substitution_VL. rewrite Hsplit. reflexivity.
  - intros [fref pref] Ks Href HKs. unfold stabiliy_iteration_Michelsen.
    rewrite Href. cbn [mbind res_bind bind]. rewrite HKs. reflexivity.
Qed.

End IterationFacts.

(** ** The residuals of the Newton flash and the dew-point loop *)

Section NewtonResidualFacts.

Import GCEOSMIX NewtonResidual.

Lemma zip_res_Ok (f : R -> R -> res R) (l1 l2 out : list R) :
  zip_res f l1 l2 = Ok out ->
  length out = Nat.min (length l1) (length l2) /\
  forall i a b, l1 !! i = Some a -> l2 !! i = Some b ->
    exists v, out !! i = Some v /\ f a b = Ok v.
Proof.
  revert l2 out. induction l1 as [|x l1 IH]; intros l2 out H.
  - simpl in H. injection H as <-. split; [reflexivity|]. intros i a b Ha. discriminate Ha.
  - destruct l2 as [|y l2].
    + simpl in H. injection H as <-. split; [reflexivity|]. intros i a b _ Hb. discriminate Hb.
    + cbn [zip_res] in H.
      apply bind_Ok in H. destruct H as (v & Hv & H).
      apply bind_Ok in H. destruct H as (vs & Hvs & H). injection H as <-.
      destruct (IH _ _ Hvs) as (Hlen & Hall).
      split; [simpl; rewrite Hlen; reflexivity|].
      intros i a b Ha Hb. destruct i as [|i].
      * simpl in Ha, Hb. injection Ha as <-. injection Hb as <-.
        exists v. split; [reflexivity | exact Hv].
      * simpl in Ha, Hb. apply (Hall i a b Ha Hb).
Qed.

Variable Rachford_Rice_flash_error : R -> list R -> list R -> res R.
Variable _fast_init_specific : EOS.t -> EOS.t -> res EOS.t.
Variable solve : EOS.t -> bool -> bool -> bool -> bool -> res EOS.t.
Variable fugacities : EOS.t -> res (option (list R) * option (list R)).

(** X27. The compositions that [_err_VL] writes to [info] close the material
    balance of every component: with [VF] the last entry of [lnKsVF] and the
    K-values the exponentials of the entries before it, each pair has
    [ys[i] = Ks[i]*xs[i]] and [(1 - VF)*xs[i] + VF*ys[i] = zs[i]]; the two
    states handed back are the vapor-only one of [ys] and the liquid-only one
    of [xs]. *)
Theorem err_VL_closes_the_material_balance (self : EOS.t) (lnKsVF : list R) (T P : R)
    (zs : list R) (near_critical : bool) (Fs : list R) (VF : R) (xs ys : list R)
    (eos_l eos_g : EOS.t) :
  _err_VL Rachford_Rice_flash_error _fast_init_specific solve fugacities self lnKsVF T P zs
    near_critical = Ok (Fs, (VF, xs, ys, eos_l, eos_g)) ->
  lnKsVF !! (length lnKsVF - 1)%nat = Some VF /\
  length xs = Nat.min (length zs) (length lnKsVF - 1) /\ length ys = length xs /\
  (forall i zi lnKi, zs !! i = Some zi -> lnKsVF !! i = Some lnKi ->
     (i < length lnKsVF - 1)%nat ->
     exists xi yi, xs !! i = Some xi /\ ys !! i = Some yi /\
       yi = exp lnKi * xi /\ (1 - VF) * xi + VF * yi = zi) /\
  to_TP_zs_fast _fast_init_specific solve self T P ys false true true = Ok eos_g /\
  to_TP_zs_fast _fast_init_specific solve self T P xs true false true = Ok eos_l.
Proof.
  unfold _err_VL. intros H.
  apply bind_Ok in H. destruct H as (VF' & HVF & H).
  apply bind_Ok in H. destruct H as (xs' & Hxs & H).
  apply bind_Ok in H. destruct H as (err_RR & _ & H).
  apply bind_Ok in H. destruct H as (eos_g' & Hg & H).
  apply bind_Ok in H. destruct H as ([gl gg] & _ & H).
  apply bind_Ok in H. destruct H as (eos_l' & Hl & H).
  apply bind_Ok in H. destruct H as ([ll lg] & _ & H).
  apply bind_Ok in H. destruct H as ([lnphis_g lnphis_l] & _ & H).
  injection H as _ <- <- <- <- <-.
  apply getitem_Ok in HVF.
  destruct (zip_res_Ok _ _ _ _ Hxs) as (Hlen & Hall).
  rewrite length_map, length_take in Hlen.
  assert (Hlen' : length xs' = Nat.min (length zs) (length lnKsVF - 1)) by lia.
  split; [exact HVF|]. split; [exact Hlen'|].
  split. { rewrite length_zip_with, length_map, length_take. lia. }
  split; [|split; assumption].
  intros i zi lnKi Hzi HlnKi Hi.
  assert (HKi : map exp (take (length lnKsVF - 1) lnKsVF) !! i = Some (exp lnKi)).
  { rewrite lookup_map, lookup_take_lt by exact Hi. rewrite HlnKi. reflexivity. }
  destruct (Hall i zi (exp lnKi) Hzi HKi) as (xi & Hxi & Hdiv).
  exists xi, (exp lnKi * xi). split; [exact Hxi|]. split.
  { rewrite lookup_zip_with, HKi. cbn [mbind option_bind]. rewrite Hxi. reflexivity. }
  split; [reflexivity|].
  unfold fdiv in Hdiv. destruct (Req_dec_T (1 + VF' * (exp lnKi - 1)) 0) as [|Hne];
    [discriminate Hdiv|].
  injection Hdiv as <-. field. exact Hne.
Qed.

End NewtonResidualFacts.

Section DewPointFacts.

Import GCEOSMIX DewPoint.

Variable to_TP_zs : EOS.t -> R -> R -> list R -> res phase_attrs.
Variable Wilson_K_value : R -> R -> R -> R -> R -> res R.
Variable K_value : R -> R -> res R.
Variable flash_inner_loop : list R -> list R -> option R -> res (R * list R * list R).

Lemma dew_loop_tolerance (self : EOS.t) (eos_g : phase_attrs) (T P : R) (zs : list R)
    (xtol xtol' : R) (remaining : nat) (st : dew_state) :
  1e-10 <= xtol -> 1e-10 <= xtol' ->
  dew_loop to_TP_zs K_value flash_inner_loop self eos_g T P zs xtol remaining st
  = dew_loop to_TP_zs K_value flash_inner_loop self eos_g T P zs xtol' remaining st.
Proof.
  intros Hx Hx'. revert st. induction remaining as [|r IH]; intros st; [reflexivity|].
  cbn [dew_loop].
  destruct (dew_pass to_TP_zs K_value flash_inner_loop self eos_g T P zs st)
    as [[st' err]|e]; [|reflexivity].
  cbn [mbind res_bind bind].
  rewrite (proj2 (Rltb_false xtol 1e-10)) by lra.
  rewrite (proj2 (Rltb_false xtol' 1e-10)) by lra.
  apply IH.
Qed.

Lemma dew_loop_one_pass (self : EOS.t) (eos_g : phase_attrs) (T P : R) (zs : list R)
    (xtol xtol' : R) (remaining : nat) (st : dew_state) :
  xtol < 1e-10 ->
  dew_loop to_TP_zs K_value flash_inner_loop self eos_g T P zs xtol (S remaining) st
  = dew_loop to_TP_zs K_value flash_inner_loop self eos_g T P zs xtol' 1 st.
Proof.
  intros Hx. cbn [dew_loop].
  destruct (dew_pass to_TP_zs K_value flash_inner_loop self eos_g T P zs st)
    as [[st' err]|e]; [|reflexivity].
  cbn [mbind res_bind bind].
  rewrite (proj2 (Rltb_true xtol 1e-10)) by lra.
  destruct (Rltb xtol' 1e-10); reflexivity.
Qed.

(** X28. The error that a pass computes is never compared with the tolerance:
    the loop breaks on [xtol < 1E-10]. With any tolerance of at least 1e-10,
    the default among them, the call runs all [maxiter] passes and its
    outcome does not depend on the tolerance; with a smaller one it stops
    after the first pass, whatever the error. *)
Theorem dew_tolerance_is_never_compared (self : EOS.t) (T P : R) (zs : list R)
    (maxiter : nat) (xtol xtol' : R) :
  (1e-10 <= xtol -> 1e-10 <= xtol' ->
   _V_over_F_dew_T_inner to_TP_zs Wilson_K_value K_value flash_inner_loop self T P zs
     maxiter xtol
   = _V_over_F_dew_T_inner to_TP_zs Wilson_K_value K_value flash_inner_loop self T P zs
       maxiter xtol') /\
  (xtol < 1e-10 -> (1 <= maxiter)%nat ->
   _V_over_F_dew_T_inner to_TP_zs Wilson_K_value K_value flash_inner_loop self T P zs
     maxiter xtol
   = _V_over_F_dew_T_inner to_TP_zs Wilson_K_value K_value flash_inner_loop self T P zs
       1 xtol').
Proof.
  split.
  - intros Hx Hx'. unfold _V_over_F_dew_T_inner.
    destruct (to_TP_zs self T P zs) as [eos_g|e]; [|reflexivity].
    cbn [mbind res_bind bind].
    destruct (negb (PhaseChoice.hasattr (V_g eos_g))); [reflexivity|].
    destruct (wilson_Ks Wilson_K_value T P (EOS.Pcs self) (EOS.Tcs self) (EOS.omegas self))
      as [Ks|e]; [|reflexivity].
    cbn [mbind res_bind bind].
    destruct (flash_inner_loop zs Ks None) as [[[V xs] ys]|e]; [|reflexivity].
    cbn [mbind res_bind bind].
    rewrite (dew_loop_tolerance self eos_g T P zs xtol xtol' maxiter _ Hx Hx').
    reflexivity.
  - intros Hx Hm. destruct maxiter as [|m]; [lia|].
    unfold _V_over_F_dew_T_inner.
    destruct (to_TP_zs self T P zs) as [eos_g|e]; [|reflexivity].
    cbn [mbind res_bind bind].
    destruct (negb (PhaseChoice.hasattr (V_g eos_g))); [reflexivity|].
    destruct (wilson_Ks Wilson_K_value T P (EOS.Pcs self) (EOS.Tcs self) (EOS.omegas self))
      as [Ks|e]; [|reflexivity].
    cbn [mbind res_bind bind].
    destruct (flash_inner_loop zs Ks None) as [[[V xs] ys]|e]; [|reflexivity].
    cbn [mbind res_bind bind].
    rewrite (dew_loop_one_pass self eos_g T P zs xtol xtol' m _ Hx).
    reflexivity.
Qed.

End DewPointFacts.

(** ** A one-component PRMIX *)

Section OneComponentFacts.

Import MixingRule GCEOSMIX PengRobinson MixtureAlpha.

Lemma single_pairwise (a : R) :
  0 < a ->
  a_alpha_aijs_composition_independent [a] [[0]] = Ok ([[a]], [sqrt a], [[1 / a]]).
Proof.
  intros Ha.
  assert (Hroot : sqrt a * sqrt a = a) by (apply sqrt_sqrt; lra).
  unfold a_alpha_aijs_composition_independent, composition_independent,
    reciprocal, fdiv, pow_half.
  py_eval. rewrite Hroot in *. py_eval. repeat f_equal. lra.
Qed.

Lemma single_pairwise_quantities (self : EOS.t) (a T : R) (quick : bool) :
  0 < a -> EOS.kijs self = [[0]] -> EOS.a_alpha_ijs self = None ->
  pairwise_quantities self [a] T quick
  = ((if quick then EOS.set_pairwise self [[a]] [sqrt a] [[1 / a]]
      else if Reqb T (EOS.T self) then EOS.set_pairwise self [[a]] [sqrt a] [[1 / a]]
      else self),
     Ok ([[a]], [sqrt a], [[1 / a]])).
Proof.
  intros Ha Hk Hc. unfold pairwise_quantities, cached_pairwise, recomputed_pairwise.
  rewrite Hk, Hc, (single_pairwise a Ha).
  destruct quick; [|reflexivity].
  destruct (Reqb T (EOS.T self)); reflexivity.
Qed.

Variable IS_PYPY : bool.
Variable a_alpha_and_derivatives_numpy :
  EOS.t -> list R -> list R -> list R -> R -> bool -> bool -> EOS.t * res a_alpha_result.

Lemma one_component_only (self : EOS.t) (A D D2 T : R) (quick : bool) :
  EOS.N self = 1%nat -> EOS.zs self = [1] -> EOS.kijs self = [[0]] ->
  EOS.a_alpha_ijs self = None -> 0 < A ->
  snd (a_alpha_and_derivatives_py self [A] [D] [D2] T false quick) = Ok (Only A).
Proof.
  intros HN Hz Hk Hc HA. unfold a_alpha_and_derivatives_py.
  rewrite (single_pairwise_quantities self A T quick HA Hk Hc).
  assert (Hf : finish_value [1] [[0]] 1 [A] [D] [D2] T false [[A]] [sqrt A] [[1 / A]]
               = Ok (Only A, None, [], [[A]])).
  { py_eval. repeat f_equal. lra. }
  destruct quick; [|destruct (Reqb T (EOS.T self))]; cbn [EOS.set_pairwise EOS.zs EOS.kijs EOS.N];
    rewrite Hz, Hk, HN, Hf; reflexivity.
Qed.

Lemma one_component_full_value (A D D2 T : R) :
  0 < A ->
  exists d2 da ijs,
    finish_value [1] [[0]] 1 [A] [D] [D2] T true [[A]] [sqrt A] [[1 / A]]
    = Ok (Full A D D2, d2, da, ijs).
Proof.
  intros HA. unfold finish_value.
  destruct (a_alpha_and_derivatives_full [A] [D] [D2] T [1] [[0]] (Some [[A]])
              (Some [sqrt A]) (Some [[1 / A]]) true) as [r|e] eqn:Hfull.
  - revert Hfull. py_eval.
    destruct (Req_dec_T (1 / A * (A * A) * (A * A)) 0) as [|Hne];
      [intros Hfull; discriminate Hfull|].
    cbn [mbind res_bind bind]. intros Hfull. injection Hfull as <-.
    do 3 eexists. f_equal. f_equal. f_equal. f_equal.
    f_equal; [lra | |];
      replace (-0.5) with (- (1 / 2)) by lra; try replace 0.25 with (1 / 4) by lra;
      field; lra.
  - cbn [try_except any_exception Nat.eqb getitem lookup list_lookup mbind res_bind bind].
    do 3 eexists. reflexivity.
Qed.

Lemma one_component_full (self : EOS.t) (A D D2 T : R) (quick : bool) :
  EOS.N self = 1%nat -> EOS.zs self = [1] -> EOS.kijs self = [[0]] ->
  EOS.a_alpha_ijs self = None -> 0 < A ->
  snd (a_alpha_and_derivatives_py self [A] [D] [D2] T true quick) = Ok (Full A D D2).
Proof.
  intros HN Hz Hk Hc HA. unfold a_alpha_and_derivatives_py.
  rewrite (single_pairwise_quantities self A T quick HA Hk Hc).
  destruct (one_component_full_value A D D2 T HA) as (d2 & da & ijs & Hf).
  destruct quick; [|destruct (Reqb T (EOS.T self))]; cbn [EOS.set_pairwise EOS.zs EOS.kijs EOS.N];
    rewrite Hz, Hk, HN, Hf; reflexivity.
Qed.

Lemma alpha_PR_positive (a kappa Tc T : R) :
  0 < a -> 1 + kappa * (1 - sqrt (T / Tc)) <> 0 -> 0 < alpha_PR a kappa Tc T.
Proof.
  intros Ha Hx. unfold alpha_PR. apply Rmult_lt_0_compat; [exact Ha|].
  destruct (Rtotal_order (1 + kappa * (1 - sqrt (T / Tc))) 0) as [H|[H|H]]; [|lra|]; nra.
Qed.

Lemma alpha_PR_everywhere (a kappa Tc : R) :
  0 < Tc -> forall t, a_alpha_entry a kappa Tc t = alpha_PR a kappa Tc t.
Proof.
  intros HTc t. destruct (Rle_or_lt 0 t) as [Ht|Ht].
  - apply a_alpha_entry_is_alpha_PR; assumption.
  - unfold a_alpha_entry, x2_at, alpha_PR.
    rewrite (sqrt_neg_0 t) by lra.
    rewrite (sqrt_neg_0 (t / Tc)).
    + ring.
    + unfold Rdiv. pose proof (Rinv_0_lt_compat Tc HTc). nra.
Qed.

Lemma one_component_vectorized (self : EOS.t) (extra : attrs) (T a kappa Tc : R) :
  EOS.ais self = [a] -> kappas extra = [kappa] -> EOS.Tcs self = [Tc] ->
  0 < T -> 0 < Tc ->
  vectorized_full self extra T
  = Ok ([a_alpha_entry a kappa Tc T], [da_alpha_dT_entry a kappa Tc T],
        [d2a_alpha_dT2_entry a kappa Tc T]).
Proof.
  intros Ha Hk HTcs HT HTc. unfold vectorized_full. rewrite Ha, Hk, HTcs.
  assert (Hroot : sqrt T <> 0) by (pose proof (sqrt_lt_R0 T HT); lra).
  rewrite (fdiv_nonzero 1 T) by lra. cbn [mbind res_bind bind].
  rewrite (pow_half_positive T HT). cbn [mbind res_bind bind].
  rewrite (fdiv_nonzero 1 (sqrt T) Hroot). cbn [mbind res_bind bind].
  cbn [alpha_full_loop]. rewrite (pow_neg_half_positive Tc HTc).
  reflexivity.
Qed.

(** X29. A one-component PRMIX has the [a_alpha] of the pure Peng-Robinson
    equation: on an instance with [zs = [1.0]], [kijs = [[0.0]]] and no
    cached pairwise quantities, at a positive temperature where the alpha
    function does not vanish, [a_alpha_and_derivatives] returns
    a*[1 + kappa*(1 - sqrt(T/Tc))]^2, and with [full] also two numbers that
    are its first and its second derivative with respect to the
    temperature. *)
Theorem one_component_mixture_has_the_pure_alpha (self : EOS.t) (extra : attrs)
    (T a kappa Tc : R) (quick : bool) :
  EOS.N self = 1%nat -> EOS.zs self = [1] -> EOS.kijs self = [[0]] ->
  EOS.a_alpha_ijs self = None ->
  EOS.ais self = [a] -> kappas extra = [kappa] -> EOS.Tcs self = [Tc] ->
  0 < T -> 0 < Tc -> 0 < a -> 1 + kappa * (1 - sqrt (T / Tc)) <> 0 ->
  snd (a_alpha_and_derivatives IS_PYPY a_alpha_and_derivatives_numpy self extra T
         false quick true)
  = Ok (Only (alpha_PR a kappa Tc T)) /\
  (exists da_alpha_dT d2a_alpha_dT2,
     snd (a_alpha_and_derivatives IS_PYPY a_alpha_and_derivatives_numpy self extra T
            true quick true)
     = Ok (Full (alpha_PR a kappa Tc T) da_alpha_dT d2a_alpha_dT2) /\
     da_alpha_dT = da_alpha_dT_entry a kappa Tc T /\
     derivable_pt_lim (alpha_PR a kappa Tc) T da_alpha_dT /\
     derivable_pt_lim (da_alpha_dT_entry a kappa Tc) T d2a_alpha_dT2).
Proof.
  intros HN Hz Hk Hc Ha Hkap HTcs HT HTc Hapos Hx.
  pose proof (alpha_PR_positive a kappa Tc T Hapos Hx) as HA.
  rewrite <- (alpha_PR_everywhere a kappa Tc HTc T) in HA |- *.
  assert (Hpy : forall full,
            a_alpha_and_derivatives IS_PYPY a_alpha_and_derivatives_numpy self extra T
              full quick true
            = a_alpha_and_derivatives_py
                (EOS.set_alphas self [a_alpha_entry a kappa Tc T]
                   [da_alpha_dT_entry a kappa Tc T] [d2a_alpha_dT2_entry a kappa Tc T])
                [a_alpha_entry a kappa Tc T] [da_alpha_dT_entry a kappa Tc T]
                [d2a_alpha_dT2_entry a kappa Tc T] T full quick).
  { intros full. unfold a_alpha_and_derivatives.
    rewrite (one_component_vectorized self extra T a kappa Tc Ha Hkap HTcs HT HTc).
    cbn [mbind res_bind bind EOS.set_alphas EOS.N]. rewrite HN.
    rewrite andb_false_r. reflexivity. }
  split.
  - rewrite Hpy. apply one_component_only; try assumption.
  - exists (da_alpha_dT_entry a kappa Tc T), (d2a_alpha_dT2_entry a kappa Tc T).
    split; [|split; [reflexivity|split]].
    + rewrite Hpy. apply one_component_full; try assumption.
    + apply (derivable_pt_lim_ext (a_alpha_entry a kappa Tc)).
      * apply (alpha_PR_everywhere a kappa Tc HTc).
      * apply a_alpha_entry_derivative. exact HT.
    + apply da_alpha_dT_entry_derivative. exact HT.
Qed.

End OneComponentFacts.

(** ** The derivative tensors of the full mixing rule *)

Section DerivativeTensorFacts.

Import MixingRule MixingRuleSpec GCEOSMIX DerivativeSpec.

Lemma sum_from_zero (a n : nat) : sum_from a n (fun _ => 0) = 0.
Proof. induction n as [|n IH]; simpl; [|rewrite IH]; lra. Qed.

(** A sum with one term that is not zero. *)
Lemma sum_from_single (n k : nat) (c : R) :
  (k < n)%nat -> sum_from 0 n (fun q => if (q =? k)%nat then c else 0) = c.
Proof.
  induction n as [|n IH]; intros Hk; [lia|].
  cbn [sum_from Nat.add]. destruct (decide (k = n)) as [->|Hne].
  - rewrite Nat.eqb_refl.
    rewrite (sum_from_ext 0 n _ (fun _ => 0)).
    + rewrite sum_from_zero. lra.
    + intros q Hq. destruct (Nat.eqb_spec q n); [lia | reflexivity].
  - rewrite IH by lia. destruct (Nat.eqb_spec n k); [lia | lra].
Qed.

Lemma double_sum_single (n i j : nat) (c : R) :
  (i < n)%nat -> (j < n)%nat ->
  sum_from 0 n (fun p => sum_from 0 n (fun q => if (p =? i)%nat && (q =? j)%nat then c else 0))
  = c.
Proof.
  intros Hi Hj.
  rewrite (sum_from_ext 0 n _ (fun p => if (p =? i)%nat then c else 0)).
  - apply sum_from_single. exact Hi.
  - intros p Hp. destruct (Nat.eqb_spec p i) as [->|Hne]; cbn [andb].
    + apply sum_from_single. exact Hj.
    + apply sum_from_zero.
Qed.

Lemma double_sum_plus (n : nat) (f g : nat -> nat -> R) :
  sum_from 0 n (fun p => sum_from 0 n (fun q => f p q + g p q))
  = sum_from 0 n (fun p => sum_from 0 n (fun q => f p q))
    + sum_from 0 n (fun p => sum_from 0 n (fun q => g p q)).
Proof.
  rewrite <- sum_from_plus. apply sum_from_ext. intros p Hp. apply sum_from_plus.
Qed.

Lemma double_sum_ext (n : nat) (f g : nat -> nat -> R) :
  (forall p q, (p < n)%nat -> (q < n)%nat -> f p q = g p q) ->
  sum_from 0 n (fun p => sum_from 0 n (fun q => f p q))
  = sum_from 0 n (fun p => sum_from 0 n (fun q => g p q)).
Proof.
  intros H. apply sum_from_ext. intros p Hp. apply sum_from_ext. intros q Hq.
  apply H; lia.
Qed.

(** Writing [v] at [(i, j)] and at [(j, i)], where 0.0 stood, adds the pair's
    weight to the double sum: once on the diagonal, twice off it. *)
Lemma double_sum_pair (N : nat) (zs : list R) (m m' : matrix) (i j : nat) (v : R) :
  (i < N)%nat -> (j < N)%nat -> at2 m i j = 0 -> at2 m j i = 0 ->
  (forall p q, at2 m' p q
     = if decide (p = j /\ q = i) then v
       else if decide (p = i /\ q = j) then v else at2 m p q) ->
  double_sum N zs m'
  = double_sum N zs m
    + (if (i =? j)%nat then v * (at1 zs i * at1 zs j)
       else v * (at1 zs i * at1 zs j) + v * (at1 zs i * at1 zs j)).
Proof.
  intros Hi Hj H0 H0' Hm'. unfold double_sum.
  set (c := v * (at1 zs i * at1 zs j)).
  rewrite (double_sum_ext N _
             (fun p q => at1 zs p * at1 zs q * at2 m p q
                         + ((if (p =? i)%nat && (q =? j)%nat then c else 0)
                            + (if (p =? j)%nat && (q =? i)%nat
                               then (if (i =? j)%nat then 0 else c) else 0)))).
  - rewrite double_sum_plus, double_sum_plus.
    rewrite (double_sum_single N i j c Hi Hj).
    rewrite (double_sum_single N j i _ Hj Hi).
    destruct (i =? j)%nat; lra.
  - intros p q Hp Hq. rewrite Hm'. unfold c.
    destruct (decide (p = j /\ q = i)) as [[-> ->]|Hn1].
    + rewrite !Nat.eqb_refl. cbn [andb].
      destruct (Nat.eqb_spec j i) as [->|Hne].
      * rewrite ?Nat.eqb_refl. cbn [andb]. rewrite H0. lra.
      * destruct (Nat.eqb_spec i j) as [Heq|_]; [congruence|]. cbn [andb].
        rewrite ?andb_false_r. rewrite H0'. lra.
    + destruct (decide (p = i /\ q = j)) as [[-> ->]|Hn2].
      * rewrite !Nat.eqb_refl. cbn [andb].
        destruct (Nat.eqb_spec i j) as [Heq|Hne].
        -- subst. exfalso. apply Hn1. auto.
        -- cbn [andb]. rewrite H0. lra.
      * assert (Hb1 : ((p =? i)%nat && (q =? j)%nat) = false).
        { apply andb_false_iff.
          destruct (Nat.eqb_spec p i); destruct (Nat.eqb_spec q j); auto.
          exfalso. apply Hn2. auto. }
        assert (Hb2 : ((p =? j)%nat && (q =? i)%nat) = false).
        { apply andb_false_iff.
          destruct (Nat.eqb_spec p j); destruct (Nat.eqb_spec q i); auto.
          exfalso. apply Hn1. auto. }
        rewrite Hb1, Hb2. lra.
Qed.

(** One write of a pair keeps a total and its matrix consistent. *)
Lemma consistent_pair (N : nat) (zs : list R) (i j : nat) (total : R) (m m1 m2 : matrix)
    (v : R) :
  (i < N)%nat -> (i <= j < N)%nat ->
  consistent N zs i j total m ->
  setitem2 m i j v = Ok m1 -> setitem2 m1 j i v = Ok m2 ->
  consistent N zs i (S j)
    (if (i =? j)%nat then total + v * (at1 zs i * at1 zs j)
     else total + (v * (at1 zs i * at1 zs j) + v * (at1 zs i * at1 zs j))) m2.
Proof.
  intros Hi Hj (Hm & Hsym & Hun & Htot) H1 H2.
  destruct (setitem2_inv N m i j v m1 Hm H1) as (Hm1 & Hat1).
  destruct (setitem2_inv N m1 j i v m2 Hm1 H2) as (Hm2 & Hat2).
  assert (Hat : forall p q, at2 m2 p q
                  = if decide (p = j /\ q = i) then v
                    else if decide (p = i /\ q = j) then v else at2 m p q).
  { intros p q. rewrite Hat2, Hat1. reflexivity. }
  split; [exact Hm2|]. split; [|split].
  - intros p q Hp Hq. rewrite !Hat.
    destruct (decide (p = j /\ q = i)) as [[-> ->]|Hn1].
    + destruct (decide (i = j /\ j = i)) as [_|Hn]; [reflexivity|].
      destruct (decide (i = i /\ j = j)) as [_|Hn']; [reflexivity | exfalso; auto].
    + destruct (decide (q = j /\ p = i)) as [[-> ->]|Hn2].
      * destruct (decide (i = i /\ j = j)) as [_|Hn']; [reflexivity | exfalso; auto].
      * destruct (decide (p = i /\ q = j)) as [[-> ->]|Hn3]; [exfalso; auto|].
        destruct (decide (q = i /\ p = j)) as [[-> ->]|Hn4]; [exfalso; auto|].
        apply Hsym; assumption.
  - intros p q Hp Hq Hip Hiq Hpj Hqj. rewrite Hat.
    destruct (decide (p = j /\ q = i)) as [[-> ->]|_]; [specialize (Hqj eq_refl); lia|].
    destruct (decide (p = i /\ q = j)) as [[-> ->]|_]; [specialize (Hpj eq_refl); lia|].
    apply Hun; try assumption; intros E; [specialize (Hpj E) | specialize (Hqj E)]; lia.
  - rewrite (double_sum_pair N zs m m2 i j v); try assumption; try lia.
    + rewrite <- Htot. destruct (i =? j)%nat; lra.
    + apply Hun; try lia.
    + apply Hun; try lia.
Qed.

Lemma consistent_moves (N : nat) (zs : list R) (i j i' j' : nat) (total : R) (m : matrix) :
  (forall p q, (p < N)%nat -> (q < N)%nat ->
     (i' <= p)%nat -> (i' <= q)%nat -> (p = i' -> (j' <= q)%nat) ->
     (q = i' -> (j' <= p)%nat) ->
     (i <= p)%nat /\ (i <= q)%nat /\ (p = i -> (j <= q)%nat) /\ (q = i -> (j <= p)%nat)) ->
  consistent N zs i j total m -> consistent N zs i' j' total m.
Proof.
  intros Hmove (Hm & Hsym & Hun & Htot).
  split; [exact Hm|]. split; [exact Hsym|]. split; [|exact Htot].
  intros p q Hp Hq H1 H2 H3 H4.
  destruct (Hmove p q Hp Hq H1 H2 H3 H4) as (G1 & G2 & G3 & G4).
  apply Hun; assumption.
Qed.

Lemma state_consistent_moves (N : nat) (zs : list R) (i j i' j' : nat) (s : deriv_state) :
  (forall p q, (p < N)%nat -> (q < N)%nat ->
     (i' <= p)%nat -> (i' <= q)%nat -> (p = i' -> (j' <= q)%nat) ->
     (q = i' -> (j' <= p)%nat) ->
     (i <= p)%nat /\ (i <= q)%nat /\ (p = i -> (j <= q)%nat) /\ (q = i -> (j <= p)%nat)) ->
  state_consistent N zs i j s -> state_consistent N zs i' j' s.
Proof.
  intros Hmove. destruct s as [[[da d2a] m1] [m2|]]; cbn [state_consistent].
  - intros [H1 H2]. split; apply (consistent_moves N zs i j i' j'); assumption.
  - intros [H1 _]. split; [|exact I]. apply (consistent_moves N zs i j i' j'); assumption.
Qed.

(** One pass of the inner derivative loop keeps the totals and the tensors
    consistent. *)
Lemma deriv_pair_consistent (N : nat) (zs a_alphas da_alpha_dTs d2a_alpha_dT2s kijs_i inv_i
    z_products_i : list R) (ai da_i d2a_i : R) (i j : nat) (s s' : deriv_state) :
  (i < N)%nat -> (j < N)%nat ->
  (forall q, (q < N)%nat -> at1 z_products_i q = at1 zs i * at1 zs q) ->
  state_consistent N zs i j s ->
  deriv_pair a_alphas da_alpha_dTs d2a_alpha_dT2s kijs_i inv_i z_products_i
    ai da_i d2a_i i j s = Ok s' ->
  state_consistent N zs i (S j) s'.
Proof.
  intros Hi Hj Hz Hs H. destruct s as [[[da d2a] m1] m2o]. unfold deriv_pair in H.
  destruct (Nat.ltb_spec j i) as [Hlt|Hge].
  - injection H as <-.
    apply (state_consistent_moves N zs i j i (S j)); [|exact Hs].
    intros p q Hp Hq H1 H2 H3 H4. repeat split; try assumption; intros E; lia.
  - apply bind_Ok in H. destruct H as (aj & _ & H).
    apply bind_Ok in H. destruct H as (x0_05_inv & _ & H).
    apply bind_Ok in H. destruct H as (zi_zj & Hzz & H).
    apply bind_Ok in H. destruct H as (da_j & _ & H).
    apply bind_Ok in H. destruct H as (kij & _ & H).
    apply bind_Ok in H. destruct H as (m1' & Hw1 & H).
    apply bind_Ok in H. destruct H as (m1'' & Hw2 & H).
    apply bind_Ok in H. destruct H as (d2a_j & _ & H).
    apply bind_Ok in H. destruct H as (q & _ & H).
    apply bind_Ok in H. destruct H as (m2o' & Hw3 & H).
    apply getitem_at1 in Hzz. rewrite (Hz j Hj) in Hzz. subst zi_zj.
    cbn [state_consistent] in Hs. destruct Hs as [Hs1 Hs2].
    pose proof (consistent_pair N zs i j da m1 m1' m1'' _ Hi ltac:(lia) Hs1 Hw1 Hw2) as Hc1.
    assert (Hc2 : match m2o' with
                  | Some m =>
                      consistent N zs i (S j)
                        (if (i =? j)%nat
                         then d2a + (kij - 1) * q * (at1 zs i * at1 zs j)
                         else d2a + ((kij - 1) * q * (at1 zs i * at1 zs j)
                                     + (kij - 1) * q * (at1 zs i * at1 zs j))) m
                  | None => True
                  end).
    { destruct m2o as [m2|].
      - apply bind_Ok in Hw3. destruct Hw3 as (m2' & Hw4 & Hw3).
        apply bind_Ok in Hw3. destruct Hw3 as (m2'' & Hw5 & Hw3). injection Hw3 as <-.
        apply (consistent_pair N zs i j d2a m2 m2' m2'' _ Hi ltac:(lia) Hs2 Hw4 Hw5).
      - injection Hw3 as <-. exact I. }
    destruct (i =? j)%nat; injection H as <-; cbn [state_consistent]; split; assumption.
Qed.

Lemma deriv_row_consistent (N : nat) (zs a_alphas da_alpha_dTs d2a_alpha_dT2s : list R)
    (kijs inv z_products : matrix) (i : nat) (s s' : deriv_state) :
  (i < N)%nat ->
  (forall p q, (p < N)%nat -> (q < N)%nat -> at2 z_products p q = at1 zs p * at1 zs q) ->
  state_consistent N zs i i s ->
  deriv_row N a_alphas da_alpha_dTs d2a_alpha_dT2s kijs inv z_products i s = Ok s' ->
  state_consistent N zs (S i) (S i) s'.
Proof.
  intros Hi Hz Hs H. unfold deriv_row in H.
  apply bind_Ok in H. destruct H as (kijs_i & _ & H).
  apply bind_Ok in H. destruct H as (ai & _ & H).
  apply bind_Ok in H. destruct H as (zp_i & Hzp & H).
  apply bind_Ok in H. destruct H as (da_i & _ & H).
  apply bind_Ok in H. destruct H as (d2a_i & _ & H).
  apply bind_Ok in H. destruct H as (inv_i & _ & H).
  apply bind_Ok in H. destruct H as (row_i & _ & H).
  apply getitem_Ok in Hzp.
  assert (Hzi : forall q, (q < N)%nat -> at1 zp_i q = at1 zs i * at1 zs q).
  { intros q Hq. rewrite <- (Hz i q Hi Hq). unfold at2. rewrite Hzp. reflexivity. }
  apply (state_consistent_moves N zs i N (S i) (S i)).
  { intros p q Hp Hq H1 H2 H3 H4. repeat split; try lia; intros E; lia. }
  apply (for_each_range_partial (fun j t => state_consistent N zs i j t)
           (deriv_pair a_alphas da_alpha_dTs d2a_alpha_dT2s kijs_i inv_i zp_i ai da_i d2a_i i)
           0 N ltac:(lia)) with (s := s); [| |exact H].
  - intros j t t' Hj Ht Hstep.
    apply (deriv_pair_consistent N zs _ _ _ _ _ _ _ _ _ i j t t' Hi ltac:(lia) Hzi Ht Hstep).
  - apply (state_consistent_moves N zs i i i 0); [|exact Hs].
    intros p q Hp Hq H1 H2 H3 H4. repeat split; try lia; intros E; lia.
Qed.

Lemma double_sum_zeros (N : nat) (zs : list R) : double_sum N zs (zeros2 N) = 0.
Proof.
  unfold double_sum.
  rewrite (double_sum_ext N _ (fun _ _ => 0)).
  - rewrite (sum_from_ext 0 N _ (fun _ => 0)); [apply sum_from_zero|].
    intros p Hp. apply sum_from_zero.
  - intros p q Hp Hq. rewrite at2_zeros2. lra.
Qed.

Lemma zeros_consistent (N : nat) (zs : list R) : consistent N zs 0 0 0 (zeros2 N).
Proof.
  split; [apply zeros2_is_matrix|]. split; [|split].
  - intros p q Hp Hq. rewrite !at2_zeros2. reflexivity.
  - intros p q Hp Hq _ _ _ _. apply at2_zeros2.
  - symmetry. apply double_sum_zeros.
Qed.

Lemma derivative_loops_consistent (sd : bool) (zs a_alphas da_alpha_dTs
    d2a_alpha_dT2s : list R) (kijs inv z_products : matrix) (s : deriv_state) :
  (forall p q, (p < length a_alphas)%nat -> (q < length a_alphas)%nat ->
     at2 z_products p q = at1 zs p * at1 zs q) ->
  derivative_loops sd a_alphas da_alpha_dTs d2a_alpha_dT2s kijs inv z_products = Ok s ->
  state_consistent (length a_alphas) zs (length a_alphas) (length a_alphas) s.
Proof.
  intros Hz H. unfold derivative_loops in H. set (N := length a_alphas) in *.
  apply (for_each_range_partial (fun i t => state_consistent N zs i i t)
           (deriv_row N a_alphas da_alpha_dTs d2a_alpha_dT2s kijs inv z_products)
           0 N ltac:(lia)) with (s := (0, 0, zeros2 N, if sd then Some (zeros2 N) else None));
    [| |exact H].
  - intros i t t' Hi Ht Hstep.
    apply (deriv_row_consistent N zs _ _ _ _ _ _ i t t' ltac:(lia) Hz Ht Hstep).
  - cbn [state_consistent]. split; [apply zeros_consistent|].
    destruct sd; [apply zeros_consistent | exact I].
Qed.

(** X30. The two temperature derivatives that the full routine returns are
    consistent with the pairwise tensors it returns beside them: each tensor
    is a symmetric N x N matrix, and the derivative is its double sum
    sum_i sum_j zs[i]*zs[j]*m[i][j], although the loops visit only the pairs
    with [j >= i]. *)
Theorem full_derivatives_are_double_sums (a_alphas da_alpha_dTs d2a_alpha_dT2s : list R)
    (T : R) (zs : list R) (kijs : matrix) (a_alpha_ijs : option matrix)
    (a_alpha_i_roots : option (list R)) (a_alpha_ij_roots_inv : option matrix)
    (second_derivative : bool) (a_alpha da_alpha_dT d2a_alpha_dT2 : R)
    (d2_ijs : option matrix) (da_ijs ijs : matrix) :
  a_alpha_and_derivatives_full a_alphas da_alpha_dTs d2a_alpha_dT2s T zs kijs
    a_alpha_ijs a_alpha_i_roots a_alpha_ij_roots_inv second_derivative
  = Ok (a_alpha, da_alpha_dT, d2a_alpha_dT2, d2_ijs, da_ijs, ijs) ->
  is_matrix (length a_alphas) da_ijs /\ symmetric (length a_alphas) da_ijs /\
  da_alpha_dT = double_sum (length a_alphas) zs da_ijs /\
  (forall m, d2_ijs = Some m ->
     is_matrix (length a_alphas) m /\ symmetric (length a_alphas) m /\
     d2a_alpha_dT2 = double_sum (length a_alphas) zs m).
Proof.
  intros H. unfold a_alpha_and_derivatives_full in H.
  apply bind_Ok in H. destruct H as ([[ijs' roots] inv] & _ & H).
  apply bind_Ok in H. destruct H as (zp & Hzp & H).
  apply bind_Ok in H. destruct H as (a & _ & H).
  apply bind_Ok in H. destruct H as ([[[da d2a] m1] m2o] & Hloops & H).
  injection H as _ <- <- <- <- _.
  pose proof (derivative_loops_consistent second_derivative zs a_alphas da_alpha_dTs
                d2a_alpha_dT2s kijs inv zp _ (z_products_of_spec _ zs zp Hzp) Hloops) as Hs.
  cbn [state_consistent] in Hs. destruct Hs as [(Hm & Hsym & _ & Htot) H2].
  split; [exact Hm|]. split; [exact Hsym|]. split; [exact Htot|].
  intros m Hsome. subst m2o. destruct H2 as (Hm2 & Hsym2 & _ & Htot2). auto.
Qed.

End DerivativeTensorFacts.

(** ** The further properties on concrete cases *)

#[local] Hint Unfold TangentPlane.TPD TangentPlane.log_or_m690 TangentPlane.ki_of
  TangentPlane.gap_body TangentPlane.Stateva_Tsvetkov_TPDF : py_model.
#[local] Hint Unfold PseudoCritical.mole_weighted PseudoCritical.pseudo_Tc
  PseudoCritical.pseudo_Pc PseudoCritical.pseudo_a PseudoCritical.Psat_body
  PseudoCritical.Psat : py_model.
#[local] Hint Unfold PhaseChoice.getattr PhaseChoice.getattr_list PhaseChoice.hasattr
  PhaseChoice.eos_Z_test_phase_stability PhaseChoice.eos_Z_trial_phase_stability
  PhaseChoice.eos_lnphis_test_phase_stability
  PhaseChoice.eos_lnphis_trial_phase_stability : py_model.
#[local] Hint Unfold PengRobinson.pow_neg_half PengRobinson._fast_init_specific
  PengRobinson.indexed_b_body PengRobinson.init PengRobinson.alpha_only
  PengRobinson.a_alpha_and_derivatives_vectorized : py_model.
#[local] Hint Unfold NewtonResidual._err_VL : py_model.
#[local] Hint Unfold Cases.class_new Cases.lowest_Gibbs_by_root Cases.GCEOS_Psat
  Cases.rachford_rice_error Cases.fugacities : py_model.

Section TangentPlaneRuns.

Import TangentPlane.

Lemma TPD_needs_positive_fractions_witness :
  (exists v, TPD 8.3144598 300 [1/2; 1/2] [0; 0] [1/4; 3/4] [0; 0] = Ok v) /\
  TPD 8.3144598 300 [0; 1] [0; 0] [1/4; 3/4] [0; 0] = Raise (ValueError MathDomain).
Proof.
  split.
  - apply (proj1 (TPD_needs_positive_fractions 8.3144598 300 [1/2; 1/2] [0; 0]
                    [1/4; 3/4] [0; 0])).
    intros i yi zi (Hy & Hz & _).
    destruct i as [|[|i]]; simpl in Hy, Hz; inversion Hy; inversion Hz; lra.
  - apply (proj2 (TPD_needs_positive_fractions 8.3144598 300 [0; 1] [0; 0]
                    [1/4; 3/4] [0; 0]) 0%nat (1/4) 0).
    + repeat split; eauto.
    + left. lra.
Defined.

Lemma TPD_of_the_tested_phase_witness :
  TPD 8.3144598 300 [1/4; 3/4] [1/10; -1/5] [1/4; 3/4] [1/10; -1/5] = Ok 0.
Proof.
  apply (TPD_of_the_tested_phase 8.3144598 300 [1/4; 3/4] [1/10; -1/5]).
  repeat constructor; lra.
Defined.

Lemma TPD_ideal_run :
  TPD 8.3144598 300 [1/2; 1/2] [0; 0] [1/4; 3/4] [0; 0]
  = Ok ((0 + 1/4 * (ln (1/4) + 0 - (ln (1/2) + 0))
           + 3/4 * (ln (3/4) + 0 - (ln (1/2) + 0))) * 8.3144598 * 300).
Proof. py_eval. reflexivity. Qed.

Lemma TPD_ideal_is_nonnegative_witness :
  0 <= (0 + 1/4 * (ln (1/4) + 0 - (ln (1/2) + 0))
          + 3/4 * (ln (3/4) + 0 - (ln (1/2) + 0))) * 8.3144598 * 300.
Proof.
  apply (TPD_ideal_is_nonnegative 8.3144598 300 [1/2; 1/2] [1/4; 3/4] [0; 0]).
  - lra.
  - lra.
  - reflexivity.
  - reflexivity.
  - unfold GCEOSMIX.py_sum. simpl. lra.
  - apply TPD_ideal_run.
Defined.

Lemma Stateva_Tsvetkov_TPDF_returns_witness :
  (exists v, Stateva_Tsvetkov_TPDF [0; 0] [1/2; 1/2] [1/10; 1/5] [1/4; 3/4] = Ok v /\ 0 <= v) /\
  Stateva_Tsvetkov_TPDF [0] [1/2; 1/2] [1/10; 1/5] [1/4; 3/4] = Raise IndexError.
Proof.
  split.
  - apply (proj1 (Stateva_Tsvetkov_TPDF_returns [0; 0] [1/2; 1/2] [1/10; 1/5] [1/4; 3/4])).
    simpl. lia.
  - apply (proj2 (Stateva_Tsvetkov_TPDF_returns [0] [1/2; 1/2] [1/10; 1/5] [1/4; 3/4])).
    simpl. lia.
Defined.

Lemma Stateva_Tsvetkov_TPDF_of_the_tested_phase_witness :
  Stateva_Tsvetkov_TPDF [1/10; 1/5] [0; 1] [1/10; 1/5] [0; 1] = Ok 0.
Proof.
  apply (Stateva_Tsvetkov_TPDF_of_the_tested_phase [1/10; 1/5] [0; 1]). simpl. lia.
Defined.

End TangentPlaneRuns.

Section PseudoCriticalRuns.

Import GCEOSMIX PseudoCritical.

Lemma pseudo_properties_between_witness :
  exists Tc, pseudo_Tc Scenario.base = Ok Tc /\ 126.1 <= Tc <= 190.6.
Proof.
  apply (pseudo_properties_between Scenario.base 126.1 190.6).
  - reflexivity.
  - repeat constructor; simpl; lra.
  - unfold py_sum. simpl. lra.
  - reflexivity.
  - repeat constructor; simpl; lra.
Defined.

Lemma pseudo_properties_short_lists_witness :
  pseudo_Tc Cases.short_composition = Raise IndexError.
Proof.
  apply (pseudo_properties_short_lists Cases.short_composition).
  left. simpl. lia.
Defined.

Lemma Psat_of_a_mixture_never_returns_witness :
  Psat Cases.GCEOS_Psat Scenario.base 100 true = Raise UnboundLocalError.
Proof.
  apply (Psat_of_a_mixture_never_returns Cases.GCEOS_Psat Scenario.base 100 true).
  - simpl. lia.
  - simpl. lia.
  - simpl. lia.
  - simpl. lia.
  - simpl. lia.
Defined.

End PseudoCriticalRuns.

Section RespecifyRuns.

Import GCEOSMIX Respecify.

Lemma to_TV_zs_and_to_PV_zs_same_object_witness :
  to_TV_zs Cases.class_new Cases.one_object 0 115 None [1/2; 1/2] true false false
  = (Cases.one_object, Ok 0%nat) /\
  to_PV_zs Cases.class_new Cases.one_object 0 2e6 None [1/2; 1/2] true false false
  = construct Cases.class_new Cases.one_object
      {| spec_T := None; spec_P := Some 2e6; spec_V := None; spec_zs := [1/2; 1/2];
         spec_Tcs := EOS.Tcs Scenario.base; spec_Pcs := EOS.Pcs Scenario.base;
         spec_omegas := EOS.omegas Scenario.base; spec_only_l := false;
         spec_only_g := false; spec_fugacities := true;
         spec_kwargs := EOS.kwargs Scenario.base |}.
Proof.
  split.
  - apply (proj1 (to_TV_zs_and_to_PV_zs_same_object Cases.class_new Cases.one_object 0
                    Scenario.base 115 2e6 None [1/2; 1/2] true false false eq_refl)).
    repeat split.
  - apply (proj2 (proj2 (proj2
             (to_TV_zs_and_to_PV_zs_same_object Cases.class_new Cases.one_object 0
                Scenario.base 115 2e6 None [1/2; 1/2] true false false eq_refl)))).
    intros (HP & _). simpl in HP. lra.
Defined.

Lemma to_prefers_T_and_P_witness :
  to Cases.class_new Cases.one_object 0 None (Some 115) (Some 1e6) (Some 1) true
  = (Cases.one_object, Ok 0%nat).
Proof.
  apply (proj1 (proj2 (to_prefers_T_and_P Cases.class_new Cases.one_object 0
                         Scenario.base None (Some 115) (Some 1e6) (Some 1) true eq_refl)));
    reflexivity.
Defined.

End RespecifyRuns.

Section PhaseChoiceRuns.

Import PhaseChoice.

Open Scope string_scope.

Lemma roots_test_Z :
  eos_Z_test_phase_stability Cases.two_roots = Ok (1/10, "Z_g", "Z_l").
Proof. py_eval. reflexivity. Qed.

Lemma roots_test_lnphis :
  eos_lnphis_test_phase_stability Cases.two_roots = Ok ([-1; -2], "lnphis_g", "lnphis_l").
Proof. py_eval. reflexivity. Qed.

Lemma eos_Z_trial_agrees_with_test_witness :
  "Z_g" <> "Z_l" /\
  getattr Cases.two_roots "Z_l" = Ok (1/10) /\
  eos_Z_trial_phase_stability Cases.two_roots "Z_g" "Z_l" = Ok (1/10).
Proof.
  apply (eos_Z_trial_agrees_with_test Cases.two_roots (1/10) "Z_g" "Z_l").
  apply roots_test_Z.
Defined.

Lemma eos_lnphis_trial_agrees_with_test_witness :
  "lnphis_g" <> "lnphis_l" /\
  getattr_list Cases.two_roots "lnphis_l" = Ok [-1; -2] /\
  eos_lnphis_trial_phase_stability Cases.two_roots "lnphis_g" "lnphis_l" = Ok [-1; -2].
Proof.
  apply (eos_lnphis_trial_agrees_with_test Cases.two_roots [-1; -2] "lnphis_g" "lnphis_l").
  apply roots_test_lnphis.
Defined.

End PhaseChoiceRuns.

Section CompositionDerivativeRuns.

Import GCEOSMIX CompositionDerivatives PengRobinson.

Lemma db_dns_weighted_sum_is_zero_witness :
  exists db,
    db_dns (fst (_fast_init_specific Scenario.base Cases.pr_attrs)) = Ok db /\
    py_sum (zip_with Rmult (EOS.zs Scenario.base) db) = 0.
Proof.
  apply (db_dns_weighted_sum_is_zero Scenario.base Cases.pr_attrs).
  - reflexivity.
  - unfold py_sum. simpl. lra.
Defined.

Lemma delta_and_epsilon_derivatives_follow_b_witness :
  exists db d2b d2e,
    db_dns Scenario.pr = Ok db /\ d2b_dninjs Scenario.pr = Ok d2b /\
    ddelta_dns Scenario.pr = Ok (map (Rmult 2) db) /\
    depsilon_dns Scenario.pr = Ok (map (Rmult (-2 * 2.5e-5)) db) /\
    d2delta_dninjs Scenario.pr = Ok (map (map (Rmult 2)) d2b) /\
    d2epsilon_dninjs Scenario.pr = Ok d2e /\
    (forall i j, (i < EOS.N Scenario.pr)%nat -> (j < EOS.N Scenario.pr)%nat ->
       at2 d2e i j = -2 * 2.5e-5 * at2 d2b i j - 2 * at1 db i * at1 db j) /\
    ddelta_dzs Scenario.pr = Ok (map (Rmult 2) (EOS.bs Scenario.pr)) /\
    depsilon_dzs Scenario.pr = Ok (map (Rmult (-2 * 2.5e-5)) (EOS.bs Scenario.pr)) /\
    (exists d3b,
       d3b_dninjnks Scenario.pr = Ok d3b /\
       d3delta_dninjnks Scenario.pr = Ok (map (map (map (Rmult 2))) d3b)).
Proof.
  apply (delta_and_epsilon_derivatives_follow_b Scenario.pr 2.5e-5); reflexivity.
Defined.

End CompositionDerivativeRuns.

Section PengRobinsonRuns.

Import GCEOSMIX PengRobinson.

Lemma init_returns_iff_witness :
  exists r,
    init 0.45724 0.0778 8.3144598 [126.1; 190.6] [33.94e5; 46.04e5] [0.04; 0.011]
      [1/2; 1/2] None 115 1e6 None = Ok r.
Proof.
  apply (proj2 (init_returns_iff 0.45724 0.0778 8.3144598 [126.1; 190.6]
                  [33.94e5; 46.04e5] [0.04; 0.011] [1/2; 1/2] None 115 1e6 None)).
  split; [simpl; lia|]. split; [simpl; lia|].
  intros i Pci Hi HP.
  destruct i as [|[|i]]; simpl in Hi, HP; try lia; inversion HP; lra.
Defined.

Lemma init_run :
  exists obj extra,
    init 0.45724 0.0778 8.3144598 [126.1; 190.6] [33.94e5; 46.04e5] [0.04; 0.011]
      [1/2; 1/2] None 115 1e6 None = Ok (obj, extra).
Proof. py_eval. do 2 eexists. reflexivity. Qed.

Lemma fast_init_keeps_a_constructed_state_witness :
  exists obj extra,
    init 0.45724 0.0778 8.3144598 [126.1; 190.6] [33.94e5; 46.04e5] [0.04; 0.011]
      [1/2; 1/2] None 115 1e6 None = Ok (obj, extra) /\
    _fast_init_specific obj extra = (obj, extra).
Proof.
  destruct init_run as (obj & extra & H). exists obj, extra. split; [exact H|].
  apply (fast_init_keeps_a_constructed_state 0.45724 0.0778 8.3144598 [126.1; 190.6]
           [33.94e5; 46.04e5] [0.04; 0.011] [1/2; 1/2] None 115 1e6 None obj extra H).
Defined.

Lemma vectorized_alpha_is_Peng_Robinson_witness :
  exists a_alphas da_alpha_dTs d2a_alpha_dT2s,
    a_alpha_and_derivatives_vectorized Scenario.base Cases.pr_attrs 115 true
    = Ok (AlphasAndDerivatives a_alphas da_alpha_dTs d2a_alpha_dT2s) /\
    forall i a kappa Tc,
      EOS.ais Scenario.base !! i = Some a -> kappas Cases.pr_attrs !! i = Some kappa ->
      EOS.Tcs Scenario.base !! i = Some Tc ->
      at1 a_alphas i = alpha_PR a kappa Tc 115 /\
      (Tc = 115 -> at1 a_alphas i = a).
Proof.
  apply (vectorized_alpha_is_Peng_Robinson Scenario.base Cases.pr_attrs 115).
  - lra.
  - repeat constructor; simpl; lra.
Defined.

Lemma vectorized_derivatives_are_derivatives_witness :
  derivable_pt_lim (a_alpha_at Scenario.base Cases.pr_attrs 0) 115
    (da_alpha_dT_at Scenario.base Cases.pr_attrs 0 115) /\
  derivable_pt_lim (da_alpha_dT_at Scenario.base Cases.pr_attrs 0) 115
    (d2a_alpha_dT2_at Scenario.base Cases.pr_attrs 0 115).
Proof.
  apply (vectorized_derivatives_are_derivatives Scenario.base Cases.pr_attrs 115 0
           0.15 1 126.1).
  - lra.
  - repeat constructor; simpl; lra.
  - reflexivity.
  - reflexivity.
  - reflexivity.
Defined.

Lemma alpha_only_run :
  exists a_alphas,
    a_alpha_and_derivatives_vectorized Scenario.base Cases.pr_attrs 126.1 false
    = Ok (Alphas a_alphas).
Proof. py_eval. eexists. reflexivity. Qed.

Lemma vectorized_alpha_without_full_differs_witness :
  exists a_alphas,
    a_alpha_and_derivatives_vectorized Scenario.base Cases.pr_attrs 126.1 false
    = Ok (Alphas a_alphas) /\
    at1 a_alphas 0 <> 0.15.
Proof.
  destruct alpha_only_run as (a_alphas & H). exists a_alphas. split; [exact H|].
  apply (vectorized_alpha_without_full_differs Scenario.base Cases.pr_attrs 126.1
           a_alphas 0 0.15 1 126.1 H).
  - simpl. lia.
  - lra.
  - reflexivity.
  - reflexivity.
  - reflexivity.
  - reflexivity.
  - lra.
  - lra.
  - lra.
  - intros Hs. assert (Hq : sqrt 126.1 = 3) by lra.
    pose proof (sqrt_sqrt 126.1 ltac:(lra)) as Hr. rewrite Hq in Hr. lra.
Defined.

End PengRobinsonRuns.

Section SumTermRuns.

Import GCEOSMIX MixingRuleSpec CompositionDerivatives.






End SumTermRuns.

Section FullMixingRuleRuns.

Import MixingRule MixingRuleSpec GCEOSMIX.

Lemma full_run :
  exists r,
    a_alpha_and_derivatives_full [1; 1] [0; 0] [0; 0] 300 [1/2; 1/2]
      [[0; 1/10]; [1/10; 0]] None None None false = Ok r.
Proof. py_eval. eexists. reflexivity. Qed.

Lemma full_and_plain_mixing_rules_agree_witness :
  exists a_alpha ijs,
    a_alpha_and_derivatives [1; 1] 300 [1/2; 1/2] [[0; 1/10]; [1/10; 0]] None None None
    = Ok (a_alpha, None, ijs).
Proof.
  destruct full_run as ([[[[[a_alpha da] d2a] d2_ijs] da_ijs] ijs] & H).
  exists a_alpha, ijs.
  apply (full_and_plain_mixing_rules_agree [1; 1] [0; 0] [0; 0] 300 [1/2; 1/2]
           [[0; 1/10]; [1/10; 0]] false a_alpha da d2a d2_ijs da_ijs ijs eq_refl H).
Defined.

Lemma zero_a_alpha_pairwise_run :
  exists c, snd (pairwise_quantities Scenario.base [0; 1] 115 true) = Ok c.
Proof. py_eval. eexists. reflexivity. Qed.

Lemma zero_a_alpha_defeats_the_derivatives_witness :
  snd (a_alpha_and_derivatives_py Scenario.base [0; 1] [0; 0] [0; 0] 115 true true)
  = Raise UnboundLocalError.
Proof.
  destruct zero_a_alpha_pairwise_run as (c & H).
  apply (proj1 (proj2 (zero_a_alpha_defeats_the_derivatives Scenario.base [0; 1] [0; 0]
                         [0; 0] 115 true 0 eq_refl)) c H).
  simpl. lia.
Defined.

End FullMixingRuleRuns.

Section IterationRuns.

Import GCEOSMIX.

(** A pass from K = [1, 1] whose trial state has a vapor-like root. *)
Lemma trial_step_vapor (liq : bool) :
  trial_step Scenario.fast_init Scenario.solve Cases.lowest_Gibbs_by_root
    Scenario.base 115 1e6 [1/2; 1/2] liq [1; 1] [1; 1]
  = Ok ([1; 1], 1, phase_g, 0).
Proof.
  destruct liq; py_eval; repeat f_equal; field.
Qed.

Lemma iteration_vapor (liq : bool) :
  stabiliy_iteration_Michelsen Scenario.wilson Scenario.fast_init Scenario.solve
    Cases.lowest_Gibbs_by_root Scenario.base 115 1e6 [1/2; 1/2] (Some [1; 1]) 20 1e-12 liq
  = Ok (1, [1; 1], false).
Proof.
  unfold stabiliy_iteration_Michelsen.
  change (Cases.lowest_Gibbs_by_root Scenario.base)
    with (@Ok (list R * phase) ([1; 1], phase_l)).
  cbn [mbind res_bind bind].
  erewrite trial_loop_break with (st := ([1; 1], None));
    [ | apply trial_step_vapor | lra].
  reflexivity.
Qed.

Lemma stability_trial_of_another_phase_has_converged_witness :
  exists fugacities_ref ref_phase Ks_prev trial_phase err,
    Cases.lowest_Gibbs_by_root Scenario.base = Ok (fugacities_ref, ref_phase) /\
    trial_step Scenario.fast_init Scenario.solve Cases.lowest_Gibbs_by_root
      Scenario.base 115 1e6 [1/2; 1/2] false fugacities_ref Ks_prev
    = Ok ([1; 1], 1, trial_phase, err) /\
    trial_phase <> ref_phase /\ err < 1e-12.
Proof.
  apply (stability_trial_of_another_phase_has_converged Scenario.wilson Scenario.fast_init
           Scenario.solve Cases.lowest_Gibbs_by_root Scenario.base 115 1e6 [1/2; 1/2]
           (Some [1; 1]) 20 1e-12 false 1 [1; 1]).
  apply (iteration_vapor false).
Defined.


Lemma no_pass_no_result_witness :
  sequential_substitution_VL Scenario.wilson
    (Scenario.rachford_rice (1/2) [1/4; 3/4] [3/4; 1/4]) Scenario.fast_init
    Scenario.solve (Scenario.lnphis 3 (1/3)) Scenario.base None 0
    default_xtol true None (Some [1/4; 3/4]) (Some [3/4; 1/4]) 1e-5 true false
  = Raise UnboundLocalError /\
  stabiliy_iteration_Michelsen Scenario.wilson Scenario.fast_init Scenario.solve
    Scenario.lowest_Gibbs Scenario.base 115 1e6 [1/2; 1/2] (Some [1; 1]) 0 1e-12 false
  = Raise UnboundLocalError.
Proof.
  split.
  - apply (proj1 (no_pass_no_result Scenario.wilson
                    (Scenario.rachford_rice (1/2) [1/4; 3/4] [3/4; 1/4])
                    Scenario.fast_init Scenario.solve (Scenario.lnphis 3 (1/3))
                    Scenario.lowest_Gibbs Scenario.base 115 1e6 [1/2; 1/2] None
                    default_xtol true None (Some [1/4; 3/4]) (Some [3/4; 1/4]) 1e-5
                    true false false)
             (None, [1/4; 3/4], [3/4; 1/4])).
    reflexivity.
  - apply (proj2 (no_pass_no_result Scenario.wilson
                    (Scenario.rachford_rice (1/2) [1/4; 3/4] [3/4; 1/4])
                    Scenario.fast_init Scenario.solve (Scenario.lnphis 3 (1/3))
                    Scenario.lowest_Gibbs Scenario.base 115 1e6 [1/2; 1/2] (Some [1; 1])
                    1e-12 true None None None 1e-5 true false false)
             ([1; 1], phase_l) [1; 1]); reflexivity.
Defined.

End IterationRuns.

Section NewtonResidualRuns.

Import GCEOSMIX NewtonResidual.

Lemma err_VL_run :
  exists Fs xs ys eos_l eos_g,
    _err_VL Cases.rachford_rice_error Scenario.fast_init Scenario.solve Cases.fugacities
      Scenario.base [0; 0; 1/2] 115 1e6 [1/2; 1/2] false
    = Ok (Fs, (1/2, xs, ys, eos_l, eos_g)).
Proof. py_eval. do 5 eexists. reflexivity. Qed.

Lemma err_VL_closes_the_material_balance_witness :
  exists xs ys,
    [0; 0; 1/2] !! (length [0; 0; 1/2] - 1)%nat = Some (1/2) /\
    length xs = Nat.min (length [1/2; 1/2]) (length [0; 0; 1/2] - 1) /\
    length ys = length xs /\
    (forall i zi lnKi, [1/2; 1/2] !! i = Some zi -> [0; 0; 1/2] !! i = Some lnKi ->
       (i < length [0; 0; 1/2] - 1)%nat ->
       exists xi yi, xs !! i = Some xi /\ ys !! i = Some yi /\
         yi = exp lnKi * xi /\ (1 - 1/2) * xi + 1/2 * yi = zi).
Proof.
  destruct err_VL_run as (Fs & xs & ys & eos_l & eos_g & H).
  exists xs, ys.
  destruct (err_VL_closes_the_material_balance Cases.rachford_rice_error Scenario.fast_init
              Scenario.solve Cases.fugacities Scenario.base [0; 0; 1/2] 115 1e6
              [1/2; 1/2] false Fs (1/2) xs ys eos_l eos_g H)
    as (H1 & H2 & H3 & H4 & _).
  repeat split; assumption.
Defined.

End NewtonResidualRuns.

Section DewPointRuns.

Import GCEOSMIX DewPoint.

Lemma dew_tolerance_is_never_compared_witness :
  _V_over_F_dew_T_inner Cases.both_roots_state Scenario.wilson Cases.K_value
    (Scenario.rachford_rice (1/2) [1/4; 3/4] [3/4; 1/4]) Scenario.base 115 1e6
    [1/2; 1/2] 20 1e-3
  = _V_over_F_dew_T_inner Cases.both_roots_state Scenario.wilson Cases.K_value
      (Scenario.rachford_rice (1/2) [1/4; 3/4] [3/4; 1/4]) Scenario.base 115 1e6
      [1/2; 1/2] 20 1e-10 /\
  _V_over_F_dew_T_inner Cases.both_roots_state Scenario.wilson Cases.K_value
    (Scenario.rachford_rice (1/2) [1/4; 3/4] [3/4; 1/4]) Scenario.base 115 1e6
    [1/2; 1/2] 20 1e-11
  = _V_over_F_dew_T_inner Cases.both_roots_state Scenario.wilson Cases.K_value
      (Scenario.rachford_rice (1/2) [1/4; 3/4] [3/4; 1/4]) Scenario.base 115 1e6
      [1/2; 1/2] 1 1e-3.
Proof.
  split.
  - apply (proj1 (dew_tolerance_is_never_compared Cases.both_roots_state Scenario.wilson
                    Cases.K_value (Scenario.rachford_rice (1/2) [1/4; 3/4] [3/4; 1/4])
                    Scenario.base 115 1e6 [1/2; 1/2] 20 1e-3 1e-10)); lra.
  - apply (proj2 (dew_tolerance_is_never_compared Cases.both_roots_state Scenario.wilson
                    Cases.K_value (Scenario.rachford_rice (1/2) [1/4; 3/4] [3/4; 1/4])
                    Scenario.base 115 1e6 [1/2; 1/2] 20 1e-11 1e-3)); [lra | lia].
Defined.

End DewPointRuns.

Section OneComponentRuns.

Import GCEOSMIX PengRobinson MixtureAlpha.

Lemma one_component_mixture_has_the_pure_alpha_witness :
  snd (a_alpha_and_derivatives false Cases.no_numpy Cases.pure_component Cases.pure_attrs
         126.1 false true true)
  = Ok (Only (alpha_PR 0.15 (1/2) 126.1 126.1)).
Proof.
  apply (one_component_mixture_has_the_pure_alpha false Cases.no_numpy
           Cases.pure_component Cases.pure_attrs 126.1 0.15 (1/2) 126.1 true);
    try reflexivity; try lra.
  replace (126.1 / 126.1) with 1 by (field; lra). rewrite sqrt_1. lra.
Defined.

End OneComponentRuns.

Section DerivativeTensorRuns.

Import MixingRule MixingRuleSpec DerivativeSpec.

Lemma full_run_second :
  exists r,
    a_alpha_and_derivatives_full [1; 1] [1; 2] [0; 0] 300 [1/2; 1/2]
      [[0; 1/10]; [1/10; 0]] None None None true = Ok r.
Proof. py_eval. eexists. reflexivity. Qed.

Lemma full_derivatives_are_double_sums_witness :
  exists a_alpha da_alpha_dT d2a_alpha_dT2 d2_ijs da_ijs ijs,
    a_alpha_and_derivatives_full [1; 1] [1; 2] [0; 0] 300 [1/2; 1/2]
      [[0; 1/10]; [1/10; 0]] None None None true
    = Ok (a_alpha, da_alpha_dT, d2a_alpha_dT2, d2_ijs, da_ijs, ijs) /\
    is_matrix 2 da_ijs /\ symmetric 2 da_ijs /\
    da_alpha_dT = double_sum 2 [1/2; 1/2] da_ijs.
Proof.
  destruct full_run_second as ([[[[[a_alpha da] d2a] d2_ijs] da_ijs] ijs] & H).
  exists a_alpha, da, d2a, d2_ijs, da_ijs, ijs. split; [exact H|].
  destruct (full_derivatives_are_double_sums [1; 1] [1; 2] [0; 0] 300 [1/2; 1/2]
              [[0; 1/10]; [1/10; 0]] None None None true a_alpha da d2a d2_ijs da_ijs ijs H)
    as (H1 & H2 & H3 & _).
  split; [exact H1|]. split; [exact H2 | exact H3].
Defined.

End DerivativeTensorRuns.
